(** * obsidian-completr: suggestion providers and their aggregation

    A shallow embedding of the dictionary provider
    ([src/provider/dictionary_provider.ts]), of the suggestion popup
    ([SuggestionPopup]: the provider fan-out of [getSuggestions] and the
    methods for trigger, selection and navigation) and of the LLM
    provider ([LlmSuggestionProvider], in the variant with the pending
    slot and in that of [src/provider/llm_provider.ts]), together with
    the properties the design document states about them and further
    properties of the code. *)

From Stdlib Require Import Ascii String.
From Stdlib Require Import List Bool Arith NArith ZArith QArith Qround Lia.
From Stdlib Require Import Permutation Sorted DecimalString.
Import ListNotations.
Open Scope nat_scope.

Set Implicit Arguments.

(* ================================================================== *)
(** * JavaScript strings and the built-ins the providers call *)
(* ================================================================== *)

(** A JavaScript string is a sequence of UTF-16 code units. *)
Definition code_unit := N.
Definition jsstring := list code_unit.

(** Literals: the code units of an ASCII text. *)
Definition js (s : string) : jsstring :=
  map N_of_ascii (list_ascii_of_string s).
Arguments js s%_string.

Definition jsstring_eq_dec : forall a b : jsstring, {a = b} + {a <> b} :=
  list_eq_dec N.eq_dec.

(** [a === b] on strings. *)
Definition str_eqb (a b : jsstring) : bool :=
  if jsstring_eq_dec a b then true else false.

(** [s.startsWith(q)]. *)
Fixpoint startsWith (s q : jsstring) {struct q} : bool :=
  match q, s with
  | [], _ => true
  | _ :: _, [] => false
  | c :: q', d :: s' => N.eqb c d && startsWith s' q'
  end.

(** [s.charAt(0)]: the first code unit as a string, or the empty string. *)
Definition charAt0 (s : jsstring) : jsstring := firstn 1 s.

(** [s.substring(n, s.length)]. *)
Definition substringFrom (n : nat) (s : jsstring) : jsstring := skipn n s.

(** The string built-ins whose Unicode tables are outside the repository:
    [String.prototype.toLowerCase], [toUpperCase] and [normalize("NFD")]. *)
Class StringBuiltins := {
  toLowerCase : jsstring -> jsstring;
  toUpperCase : jsstring -> jsstring;
  normalizeNFD : jsstring -> jsstring
}.

(** The built-ins restricted to the ASCII range, where case mapping moves
    [A-Z] to [a-z] and canonical decomposition changes nothing. *)
Definition asciiLowerUnit (c : code_unit) : code_unit :=
  if (65 <=? c)%N && (c <=? 90)%N then (c + 32)%N else c.

Definition asciiUpperUnit (c : code_unit) : code_unit :=
  if (97 <=? c)%N && (c <=? 122)%N then (c - 32)%N else c.

Definition asciiBuiltins : StringBuiltins := {|
  toLowerCase := map asciiLowerUnit;
  toUpperCase := map asciiUpperUnit;
  normalizeNFD := fun s => s
|}.

(** How a call or an awaited promise ends: with a value, or with an
    exception (a rejection, for a promise). *)
Inductive Completion (A : Type) :=
| Normal (a : A)
| Abrupt.
Arguments Abrupt {A}.

(** [Array.prototype.sort(cmp)]: the stable sort by a comparator that
    returns a negative, zero or positive number. *)
Section ArraySort.
Variable A : Type.
Variable cmp : A -> A -> Z.

Fixpoint sortInsert (x : A) (l : list A) : list A :=
  match l with
  | [] => [x]
  | y :: l' => if (cmp x y <=? 0)%Z then x :: y :: l' else y :: sortInsert x l'
  end.

Definition Array_sort (l : list A) : list A := fold_right sortInsert [] l.
End ArraySort.

(* ================================================================== *)
(** * Settings and suggestions *)
(* ================================================================== *)

Inductive WordInsertionMode :=
| MATCH_CASE_REPLACE
| IGNORE_CASE_REPLACE
| IGNORE_CASE_APPEND.

Definition WordInsertionMode_eqb (a b : WordInsertionMode) : bool :=
  match a, b with
  | MATCH_CASE_REPLACE, MATCH_CASE_REPLACE
  | IGNORE_CASE_REPLACE, IGNORE_CASE_REPLACE
  | IGNORE_CASE_APPEND, IGNORE_CASE_APPEND => true
  | _, _ => false
  end.

(** The fields of [CompletrSettings] the modelled providers read.  A
    temperature or timeout is [None] when the stored number is not finite;
    every finite double is a rational, so [Q] holds it exactly. *)
Record CompletrSettings := {
  minWordTriggerLength : Z;
  wordInsertionMode : WordInsertionMode;
  ignoreDiacriticsWhenFiltering : bool;
  llmProviderEnabled : bool;
  llmApiUrl : jsstring;
  llmApiKey : jsstring;
  llmModel : jsstring;
  llmTemperature : option Q;
  llmRequestTimeout : option Q
}.

Record EditorPosition := { line : Z; ch : Z }.

Inductive SuggestionTriggerSource := manual | auto | unknown.

(** Modelled from the spec: the [Suggestion] value type of
    [provider/provider.ts], which is not among the sources: the displayed
    text, the inserted text and the optional override span, icon and
    colour. *)
Record Suggestion := {
  displayName : jsstring;
  replacement : jsstring;
  overrideStart : option EditorPosition;
  overrideEnd : option EditorPosition;
  icon : option jsstring;
  color : option jsstring
}.

(** Modelled from the spec: [Suggestion.fromString] of
    [provider/provider.ts], the verbatim suggestion whose displayed and
    inserted texts are both the given string. *)
Definition Suggestion_fromString (s : jsstring) : Suggestion :=
  {| displayName := s; replacement := s;
     overrideStart := None; overrideEnd := None;
     icon := None; color := None |}.

(** The per-query snapshot handed to every provider.  The editor handle
    is represented by what the providers read through it: the document
    text from its beginning up to the cursor [end]. *)
Record SuggestionContext := {
  textBeforeCursor : jsstring;
  query : jsstring;
  separatorChar : option jsstring;
  triggerSource : option SuggestionTriggerSource
}.

(* ================================================================== *)
(** * The dictionary provider *)
(* ================================================================== *)

Module DictionaryProvider.

Record SuggestionCache := {
  cache_query : jsstring;
  cache_ignoreCase : bool;
  cache_ignoreDiacritics : bool;
  cache_firstChar : jsstring;
  cache_matches : list jsstring
}.

(** [Map<string, Iterable<string>>] in insertion order. *)
Definition WordMap := list (jsstring * list jsstring).

(** An instance of the abstract class: its word map, its [isEnabled]
    and the private single-entry cache. *)
Record t := {
  wordMap : WordMap;
  isEnabled : CompletrSettings -> bool;
  suggestionCache : option SuggestionCache
}.

Definition set_suggestionCache (p : t) (c : option SuggestionCache) : t :=
  {| wordMap := wordMap p; isEnabled := isEnabled p; suggestionCache := c |}.

(** [wordMap.get(key) ?? []]. *)
Fixpoint getOrEmpty (m : WordMap) (key : jsstring) : list jsstring :=
  match m with
  | [] => []
  | (k, v) :: m' => if str_eqb k key then v else getOrEmpty m' key
  end.

Section WithBuiltins.
Context {B : StringBuiltins}.

(** Modelled from the spec: [maybeLowerCase] of [editor_helpers.ts],
    which is not among the sources: [lowercase(s, enabled)]. *)
Definition maybeLowerCase (str : jsstring) (lowerCase : bool) : jsstring :=
  if lowerCase then toLowerCase str else str.

(** [DIACRITICS_REGEX]: the code units U+0300 to U+036F. *)
Definition isDiacritic (c : code_unit) : bool :=
  ((768 <=? c) && (c <=? 879))%N.

Definition removeDiacritics (str : jsstring) : jsstring :=
  filter (fun c => negb (isDiacritic c)) (normalizeNFD str).

Definition normalize (val : jsstring) (ignoreCase ignoreDiacritics : bool)
  : jsstring :=
  let normalized := maybeLowerCase val ignoreCase in
  if ignoreDiacritics then removeDiacritics normalized else normalized.

Definition filterIterable (iterable : list jsstring) (query : jsstring)
    (ignoreCase ignoreDiacritics : bool) : list jsstring :=
  filter (fun val =>
            startsWith (normalize val ignoreCase ignoreDiacritics) query)
         iterable.

Definition canReuseCache (cached : option SuggestionCache)
    (ignoreCase ignoreDiacritics : bool) (firstChar query : jsstring)
  : bool :=
  match cached with
  | None => false
  | Some c =>
      Bool.eqb (cache_ignoreCase c) ignoreCase &&
      Bool.eqb (cache_ignoreDiacritics c) ignoreDiacritics &&
      str_eqb (cache_firstChar c) firstChar &&
      startsWith query (cache_query c)
  end.

(** The buckets the [ignoreDiacritics] loop pushes, in entry order. *)
Definition diacriticBuckets (m : WordMap) (ignoreCase : bool)
    (firstChar : jsstring) : list (list jsstring) :=
  map snd
    (filter (fun kv =>
               let keyFirstChar :=
                 maybeLowerCase (charAt0 (fst kv)) ignoreCase in
               str_eqb (removeDiacritics keyFirstChar) firstChar)
            m).

(** The array of candidate arrays named [list] in the source. *)
Definition candidateLists (m : WordMap)
    (ignoreCase ignoreDiacritics : bool) (firstChar : jsstring)
  : list (list jsstring) :=
  (if ignoreCase
   then [getOrEmpty m firstChar; getOrEmpty m (toUpperCase firstChar)]
   else [getOrEmpty m firstChar])
  ++ (if ignoreDiacritics
      then diacriticBuckets m ignoreCase firstChar else []).

(** The loop of the branch taken when the cache cannot be reused. *)
Definition scanLists (lists : list (list jsstring)) (query : jsstring)
    (ignoreCase ignoreDiacritics : bool) : list jsstring :=
  flat_map (fun el => filterIterable el query ignoreCase ignoreDiacritics)
           lists.

Definition byDisplayLength (a b : Suggestion) : Z :=
  Z.of_nat (length (displayName a)) - Z.of_nat (length (displayName b)).

Definition mapSuggestion (mode : WordInsertionMode)
    (contextQuery query : jsstring) (s : jsstring) : Suggestion :=
  if WordInsertionMode_eqb mode IGNORE_CASE_APPEND
  then Suggestion_fromString
         (contextQuery ++ substringFrom (length query) s)
  else Suggestion_fromString s.

(** [getSuggestions(context, settings)]: the returned array and the
    provider after the call. *)
Definition getSuggestions (p : t) (context : SuggestionContext)
    (settings : CompletrSettings) : list Suggestion * t :=
  if negb (isEnabled p settings)
     || (length (query context) =? 0)%nat
     || (Z.of_nat (length (query context))
           <? minWordTriggerLength settings)%Z
  then ([], p)
  else
    let ignoreCase :=
      negb (WordInsertionMode_eqb (wordInsertionMode settings)
                                  MATCH_CASE_REPLACE) in
    let lowered := maybeLowerCase (query context) ignoreCase in
    let ignoreDiacritics := ignoreDiacriticsWhenFiltering settings in
    let q :=
      if ignoreDiacritics then removeDiacritics lowered else lowered in
    let firstChar := charAt0 q in
    let cached := suggestionCache p in
    let reuse :=
      canReuseCache cached ignoreCase ignoreDiacritics firstChar q in
    let p1 := if reuse then p else set_suggestionCache p None in
    let list :=
      candidateLists (wordMap p) ignoreCase ignoreDiacritics firstChar in
    if (length list <? 1)%nat then ([], p1)
    else
      let matches :=
        match reuse, cached with
        | true, Some c =>
            filterIterable (cache_matches c) q
                           ignoreCase ignoreDiacritics
        | _, _ => scanLists list q ignoreCase ignoreDiacritics
        end in
      let p2 :=
        set_suggestionCache p1
          (Some {| cache_query := q;
                   cache_ignoreCase := ignoreCase;
                   cache_ignoreDiacritics := ignoreDiacritics;
                   cache_firstChar := firstChar;
                   cache_matches := matches |}) in
      let result :=
        map (mapSuggestion (wordInsertionMode settings)
                           (query context) q)
            matches in
      (Array_sort byDisplayLength result, p2).

(** ** Notions used to state the provider's properties *)

(** The flag, the normalised query and the guard of a call, as
    [getSuggestions] computes them. *)
Definition ignoreCaseOf (settings : CompletrSettings) : bool :=
  negb (WordInsertionMode_eqb (wordInsertionMode settings)
                              MATCH_CASE_REPLACE).

Definition normalizedQuery (context : SuggestionContext)
    (settings : CompletrSettings) : jsstring :=
  normalize (query context) (ignoreCaseOf settings)
            (ignoreDiacriticsWhenFiltering settings).

Definition exitsEarly (p : t) (context : SuggestionContext)
    (settings : CompletrSettings) : bool :=
  negb (isEnabled p settings)
  || (length (query context) =? 0)%nat
  || (Z.of_nat (length (query context)) <? minWordTriggerLength settings)%Z.

(** The value of the local [canReuseCache] for a call on [p]. *)
Definition reuseCondition (p : t) (context : SuggestionContext)
    (settings : CompletrSettings) : bool :=
  canReuseCache (suggestionCache p) (ignoreCaseOf settings)
    (ignoreDiacriticsWhenFiltering settings)
    (charAt0 (normalizedQuery context settings))
    (normalizedQuery context settings).

(** The matches a scan of the candidate buckets finds for a call. *)
Definition rescan (m : WordMap) (context : SuggestionContext)
    (settings : CompletrSettings) : list jsstring :=
  scanLists
    (candidateLists m (ignoreCaseOf settings)
       (ignoreDiacriticsWhenFiltering settings)
       (charAt0 (normalizedQuery context settings)))
    (normalizedQuery context settings) (ignoreCaseOf settings)
    (ignoreDiacriticsWhenFiltering settings).

(** The providers a fresh instance over [m] can become by calls of
    [getSuggestions]. *)
Inductive reachable (m : WordMap) (en : CompletrSettings -> bool)
  : t -> Prop :=
| reachable_fresh :
    reachable m en
      {| wordMap := m; isEnabled := en; suggestionCache := None |}
| reachable_call (p : t) (context : SuggestionContext)
    (settings : CompletrSettings) :
    reachable m en p ->
    reachable m en (snd (getSuggestions p context settings)).

(** The cache holds what a scan for its query finds. *)
Definition cacheSound (p : t) : Prop :=
  match suggestionCache p with
  | None => True
  | Some c =>
      cache_matches c =
      scanLists
        (candidateLists (wordMap p) (cache_ignoreCase c)
           (cache_ignoreDiacritics c) (cache_firstChar c))
        (cache_query c) (cache_ignoreCase c) (cache_ignoreDiacritics c)
  end.

End WithBuiltins.

End DictionaryProvider.

(* ================================================================== *)
(** * The suggestion popup: fan-out over the providers and merge *)
(* ================================================================== *)

Module SuggestionPopup.

(** What one call of [provider.getSuggestions] hands back: an array (or
    [null]/[undefined]), an exception, or a promise together with the
    way it will settle. *)
Inductive ProviderReturn :=
| Returns (r : option (list Suggestion))
| Throws
| PromiseResolves (r : option (list Suggestion))
| PromiseRejects.

Record SuggestionProvider := {
  getSuggestions_of : SuggestionContext -> CompletrSettings -> ProviderReturn;
  blocksAllOtherProviders : bool
}.

(** One entry of [pendingAsync]: the index and provider captured by the
    callbacks, and the settlement of the promise they are chained to. *)
Record Task := {
  task_i : nat;
  task_provider : SuggestionProvider;
  task_settles : Completion (option (list Suggestion))
}.

(** The local variables of [getSuggestions] and [this.context.start]. *)
Record Locals := {
  providerResults : list (option (list Suggestion));
  pendingAsync : list Task;
  blockingIndex : option nat;
  context_start : EditorPosition
}.

(** [providerResults[i] = results]. *)
Fixpoint setIndex (l : list (option (list Suggestion))) (i : nat)
    (results : list Suggestion) : list (option (list Suggestion)) :=
  match l, i with
  | [], O => [Some results]
  | [], S i' => None :: setIndex [] i' results
  | _ :: l', O => Some results :: l'
  | x :: l', S i' => x :: setIndex l' i' results
  end.

(** The [forEach] that moves [this.context.start]. *)
Definition applyOverrides (results : list Suggestion)
    (start : EditorPosition) : EditorPosition :=
  fold_left (fun st suggestion =>
               match overrideStart suggestion with
               | None => st
               | Some o => o
               end) results start.

Definition orEmpty (r : option (list Suggestion)) : list Suggestion :=
  match r with Some l => l | None => [] end.

Definition isEmpty (l : list Suggestion) : bool :=
  match l with [] => true | _ => false end.

(** [.then(results => results ?? []).catch(error => [])]. *)
Definition settledResults (c : Completion (option (list Suggestion)))
  : list Suggestion :=
  match c with
  | Normal r => orEmpty r
  | Abrupt => []
  end.

(** The last [.then] callback of a task. *)
Definition taskCallback (v : Locals) (t : Task) : Locals :=
  let i := task_i t in
  let results := settledResults (task_settles t) in
  let stored := setIndex (providerResults v) i results in
  if negb (isEmpty results) && blocksAllOtherProviders (task_provider t)
  then {| providerResults := stored;
          pendingAsync := pendingAsync v;
          blockingIndex :=
            match blockingIndex v with
            | None => Some i
            | Some b => Some (Nat.min b i)
            end;
          context_start := applyOverrides results (context_start v) |}
  else {| providerResults := stored;
          pendingAsync := pendingAsync v;
          blockingIndex := blockingIndex v;
          context_start := context_start v |}.

(** The suggestions a provider's return contributes once settled: an
    array as it is, [null] and a failure as nothing. *)
Definition contributes (r : ProviderReturn) : list Suggestion :=
  match r with
  | Returns x => orEmpty x
  | PromiseResolves x => orEmpty x
  | Throws => []
  | PromiseRejects => []
  end.

Section Popup.
(** [PROVIDERS], the blacklist collaborator's [has], the settings, and
    the order in which the event loop runs the callbacks of the
    launched tasks while [Promise.allSettled] is awaited. *)
Variable PROVIDERS : list SuggestionProvider.
Variable blacklist_has : Suggestion -> bool.
Variable settings : CompletrSettings.
Variable schedule : list Task -> list Task.

(** The first loop, from index [i] over the remaining providers. *)
Fixpoint fanOut (providerContext : SuggestionContext)
    (rest : list SuggestionProvider) (i : nat) (v : Locals)
  : Completion Locals :=
  match rest with
  | [] => Normal v
  | provider :: rest' =>
      if match blockingIndex v with
         | Some b => (b <? i)%nat
         | None => false
         end
      then Normal v
      else
        match getSuggestions_of provider providerContext settings with
        | Throws => Abrupt
        | PromiseResolves r =>
            fanOut providerContext rest' (S i)
              {| providerResults := providerResults v;
                 pendingAsync :=
                   pendingAsync v ++
                   [{| task_i := i; task_provider := provider;
                       task_settles := Normal r |}];
                 blockingIndex := blockingIndex v;
                 context_start := context_start v |}
        | PromiseRejects =>
            fanOut providerContext rest' (S i)
              {| providerResults := providerResults v;
                 pendingAsync :=
                   pendingAsync v ++
                   [{| task_i := i; task_provider := provider;
                       task_settles := Abrupt |}];
                 blockingIndex := blockingIndex v;
                 context_start := context_start v |}
        | Returns maybeSuggestions =>
            let providerSuggestions := orEmpty maybeSuggestions in
            let stored :=
              setIndex (providerResults v) i providerSuggestions in
            if negb (isEmpty providerSuggestions)
               && blocksAllOtherProviders provider
            then Normal
                   {| providerResults := stored;
                      pendingAsync := pendingAsync v;
                      blockingIndex := Some i;
                      context_start :=
                        applyOverrides providerSuggestions
                                       (context_start v) |}
            else fanOut providerContext rest' (S i)
                   {| providerResults := stored;
                      pendingAsync := pendingAsync v;
                      blockingIndex := blockingIndex v;
                      context_start := context_start v |}
        end
  end.

(** [if (pendingAsync.length > 0) await Promise.allSettled(pendingAsync)]. *)
Definition awaitAllSettled (v : Locals) : Locals :=
  match pendingAsync v with
  | [] => v
  | _ :: _ => fold_left taskCallback (schedule (pendingAsync v)) v
  end.

(** The inner loop of the merge over one provider's suggestions. *)
Fixpoint mergeOne (providerSuggestions : list Suggestion)
    (acc : list jsstring * list Suggestion)
  : list jsstring * list Suggestion :=
  match providerSuggestions with
  | [] => acc
  | suggestion :: more =>
      let '(seen, suggestions) := acc in
      if existsb (str_eqb (displayName suggestion)) seen
      then mergeOne more acc
      else if blacklist_has suggestion
      then mergeOne more acc
      else mergeOne more
             (displayName suggestion :: seen, suggestions ++ [suggestion])
  end.

(** The outer loop of the merge over the kept slots. *)
Fixpoint mergeSlots (slots : list (option (list Suggestion)))
    (acc : list jsstring * list Suggestion)
  : list jsstring * list Suggestion :=
  match slots with
  | [] => acc
  | None :: slots' => mergeSlots slots' acc
  | Some providerSuggestions :: slots' =>
      mergeSlots slots' (mergeOne providerSuggestions acc)
  end.

Definition merge (v : Locals) : option (list Suggestion) :=
  let lastIndex :=
    match blockingIndex v with
    | Some b => Z.of_nat b
    | None => (Z.of_nat (length PROVIDERS) - 1)%Z
    end in
  let suggestions :=
    snd (mergeSlots
           (firstn (Z.to_nat (lastIndex + 1)) (providerResults v))
           ([], [])) in
  match suggestions with
  | [] => None
  | _ => Some suggestions
  end.

(** [SuggestionPopup.getSuggestions(context)]: how the returned
    promise settles. *)
Definition getSuggestions (providerContext : SuggestionContext)
    (start : EditorPosition) : Completion (option (list Suggestion)) :=
  match fanOut providerContext PROVIDERS 0
          {| providerResults := repeat None (length PROVIDERS);
             pendingAsync := [];
             blockingIndex := None;
             context_start := start |} with
  | Abrupt => Abrupt
  | Normal v => Normal (merge (awaitAllSettled v))
  end.

(** ** Notions used to state the popup's properties *)

(** A task carries the provider at its index and settles as the
    promise that provider returned. *)
Definition taskFaithful (providerContext : SuggestionContext) (t : Task)
  : Prop :=
  nth_error PROVIDERS (task_i t) = Some (task_provider t) /\
  settledResults (task_settles t)
  = contributes
      (getSuggestions_of (task_provider t) providerContext settings).

(** A filled slot holds what the provider at its index contributes. *)
Definition slotsFaithful (providerContext : SuggestionContext)
    (slots : list (option (list Suggestion))) : Prop :=
  forall j l,
    nth_error slots j = Some (Some l) ->
    exists provider,
      nth_error PROVIDERS j = Some provider /\
      l = contributes
            (getSuggestions_of provider providerContext settings).

(** The test of a task's callback: a blocking provider whose promise
    resolved with at least one suggestion. *)
Definition blocksNonEmpty (t : Task) : bool :=
  negb (isEmpty (settledResults (task_settles t)))
  && blocksAllOtherProviders (task_provider t).

End Popup.

(** ** The merge told on the contributions of the providers *)

Section Merged.
Variable blacklist_has : Suggestion -> bool.

(** The first suggestion of each display name, in the order of [l] and
    leaving out the names in [seen]. *)
Fixpoint firstByName (seen : list jsstring) (l : list Suggestion)
  : list Suggestion :=
  match l with
  | [] => []
  | s :: l' =>
      if existsb (str_eqb (displayName s)) seen then firstByName seen l'
      else s :: firstByName (displayName s :: seen) l'
  end.

(** What the design document asks of the merge: the contributions in
    priority order, without the blacklisted suggestions, one suggestion
    for each display name, and [null] when nothing is left. *)
Definition merged (contributions : list (list Suggestion))
  : option (list Suggestion) :=
  match firstByName []
          (filter (fun s => negb (blacklist_has s)) (concat contributions))
  with
  | [] => None
  | suggestions => Some suggestions
  end.
End Merged.

End SuggestionPopup.

(* ================================================================== *)
(** * Text helpers of the LLM provider *)
(* ================================================================== *)

(** White space as [String.prototype.trim] and the regular-expression
    class [\s] define it. *)
Definition isWhiteSpace (c : code_unit) : bool :=
  ((9 <=? c) && (c <=? 13) || (c =? 32) || (c =? 160) || (c =? 5760)
   || (8192 <=? c) && (c <=? 8202) || (c =? 8232) || (c =? 8233)
   || (c =? 8239) || (c =? 8287) || (c =? 12288) || (c =? 65279))%N.

Fixpoint trimStart (s : jsstring) : jsstring :=
  match s with
  | c :: s' => if isWhiteSpace c then trimStart s' else s
  | [] => []
  end.

Definition trim (s : jsstring) : jsstring :=
  rev (trimStart (rev (trimStart s))).

(** The class [\d]. *)
Definition isDigit (c : code_unit) : bool := ((48 <=? c) && (c <=? 57))%N.

(** The class [\w]. *)
Definition isWordChar (c : code_unit) : bool :=
  (isDigit c || (65 <=? c) && (c <=? 90) || (97 <=? c) && (c <=? 122)
   || (c =? 95))%N.

Fixpoint dropWhile (f : code_unit -> bool) (s : jsstring) : jsstring :=
  match s with
  | c :: s' => if f c then dropWhile f s' else s
  | [] => []
  end.

(** The rest of [s] after the prefix [p], when [s] starts with it. *)
Fixpoint stripPrefix (p s : jsstring) {struct p} : option jsstring :=
  match p, s with
  | [], _ => Some s
  | _ :: _, [] => None
  | c :: p', d :: s' => if (c =? d)%N then stripPrefix p' s' else None
  end.

(** Whether [f] holds of [s] or of one of its non-empty suffixes. *)
Fixpoint existsSuffix (f : jsstring -> bool) (s : jsstring) : bool :=
  f s || match s with
         | [] => false
         | _ :: s' => existsSuffix f s'
         end.

(** [s.includes(p)]. *)
Definition includes (s p : jsstring) : bool :=
  existsSuffix (fun t => startsWith t p) s.

(** [Array.prototype.join(sep)] on strings. *)
Fixpoint join (sep : jsstring) (components : list jsstring) : jsstring :=
  match components with
  | [] => []
  | [c] => c
  | c :: more => c ++ sep ++ join sep more
  end.

(** [x.toFixed(3)] for a number below 1e21: the integer [n] closest to
    [1000 x] (the larger one on a tie), printed with a point before its
    last three digits, after the sign. *)
Definition decimal (n : N) : jsstring :=
  js (NilZero.string_of_uint (N.to_uint n)).

Definition toFixed3 (x : Q) : jsstring :=
  let negative := negb (Qle_bool 0 x) in
  let ax := if negative then Qopp x else x in
  let n := Z.to_N (Qfloor (Qplus (Qmult ax (1000 # 1)) (1 # 2))) in
  let frac := (n mod 1000)%N in
  (if negative then js "-" else [])
  ++ decimal (n / 1000) ++ js "."
  ++ decimal (frac / 100) ++ decimal (frac / 10 mod 10) ++ decimal (frac mod 10).

(** The values a response payload can hold. *)
#[warnings="-register-all"]
Inductive JsVal :=
| VUndefined
| VNull
| VBool (b : bool)
| VNum (x : Q)
| VStr (s : jsstring)
| VArr (items : list JsVal)
| VObj (fields : list (jsstring * JsVal)).

(** [JSON.parse] ([None] when it throws) and [JSON.stringify]. *)
Class JsonBuiltins := {
  JSON_parse : jsstring -> option JsVal;
  JSON_stringify : JsVal -> jsstring
}.

(** A stand-in for the JSON built-ins in closed examples: nothing parses,
    everything prints as the empty string. *)
Definition noJson : JsonBuiltins := {|
  JSON_parse := fun _ => None;
  JSON_stringify := fun _ => []
|}.

(** [value[name]] for the property names the provider reads. *)
Fixpoint lookupField (fields : list (jsstring * JsVal)) (name : jsstring)
  : JsVal :=
  match fields with
  | [] => VUndefined
  | (k, v) :: more => if str_eqb k name then v else lookupField more name
  end.

Definition getProp (value : JsVal) (name : jsstring) : JsVal :=
  match value with
  | VObj fields => lookupField fields name
  | _ => VUndefined
  end.

(** [items.filter(entry => typeof entry === "string")]. *)
Fixpoint filterStrings (items : list JsVal) : list jsstring :=
  match items with
  | [] => []
  | VStr s :: more => s :: filterStrings more
  | _ :: more => filterStrings more
  end.

(* ================================================================== *)
(** * The LLM provider with the pending slot *)
(* ================================================================== *)

(** The variant of [LlmSuggestionProvider] that parks a request for
    another key while one is in flight and memoises prepared request
    bodies. *)
Module LlmSuggestionProvider.

Definition CACHE_SEPARATOR : jsstring := [9246%N].
#[warnings="-abstract-large-number"]
Definition CHAT_COMPLETION_CONTEXT_LIMIT : nat := 6000.
Definition DEFAULT_CHAT_MODEL : jsstring := js "gpt-3.5-turbo".
Definition CHAT_COMPLETION_PROMPT : jsstring :=
  js "You are an autocomplete assistant for the Obsidian note-taking app. Complete what word the user is typing. Return ONLY a JSON array of 5 WORDS with no commentary. If the last word a user has is a partial word, suggest what words the user is trying to type.".
(** The double written [0.7]. *)
Definition DEFAULT_CHAT_TEMPERATURE : Q :=
  3152519739159347 # 4503599627370496.
Definition DEFAULT_TRIGGER_SOURCE : SuggestionTriggerSource := unknown.

Record LLMProviderSettings := {
  enabled : bool;
  endpoint : jsstring;
  apiKey : option jsstring;
  model : option jsstring;
  temperature : option Q;
  timeout : option Q
}.

Definition nonEmpty (s : jsstring) : bool :=
  match s with [] => false | _ :: _ => true end.

(** [getLLMProviderSettings] of [settings.ts]. *)
Definition getLLMProviderSettings (settings : CompletrSettings)
  : LLMProviderSettings :=
  let endpoint := trim (llmApiUrl settings) in
  let model := trim (llmModel settings) in
  let timeout := llmRequestTimeout settings in
  let temperature := llmTemperature settings in
  {| enabled := llmProviderEnabled settings;
     endpoint := endpoint;
     apiKey := if nonEmpty (trim (llmApiKey settings))
               then Some (llmApiKey settings) else None;
     model := if nonEmpty model then Some model else None;
     temperature := temperature;
     timeout := match timeout with
                | Some t => if Qle_bool t 0 then None else Some t
                | None => None
                end |}.

Inductive PreparedRequestSource := generated | cache.

Record PreparedRequest := {
  body : jsstring;
  clippedContext : jsstring;
  request_model : option jsstring;
  request_temperature : Q;
  source : PreparedRequestSource
}.

Record CachedSuggestions := {
  suggestions : list Suggestion;
  cached_request : PreparedRequest
}.

Record PendingRequest := {
  args_settings : LLMProviderSettings;
  args_request : PreparedRequest;
  args_separator : option jsstring;
  args_query : jsstring;
  args_triggerSource : SuggestionTriggerSource
}.

(** The argument of one [requestUrl] call. *)
Record RequestUrlParam := {
  url : jsstring;
  request_body : jsstring;
  authorization : option jsstring;
  request_timeout : option Q
}.

(** A property of the response as the provider meets it: reading it may
    throw, and what is read is a value or a promise that settles. *)
Inductive Property :=
| GetterThrows
| Holds (v : JsVal)
| HoldsPromise (c : Completion JsVal).

Record RequestUrlResponse := {
  status : Z;
  json : Property;
  text : Property
}.

(** How the awaited [requestUrl] promise settles. *)
Definition RequestUrlOutcome := Completion RequestUrlResponse.

Definition isEnabled (settings : LLMProviderSettings) : bool :=
  enabled settings && nonEmpty (trim (endpoint settings)).

Definition orEmptyString (s : option jsstring) : jsstring :=
  match s with Some x => x | None => [] end.

Definition createCacheKey (clippedContext : jsstring)
    (separator model : option jsstring) (temperature : Q) : jsstring :=
  let components :=
    [clippedContext; orEmptyString separator; orEmptyString model;
     toFixed3 temperature] in
  join CACHE_SEPARATOR components.

(** The editor collaborator's part of [readLimitedContext]: the range
    from [limit] code units before the cursor up to the cursor. *)
Definition readLimitedContext (context : SuggestionContext) (limit : nat)
  : jsstring :=
  let endIndex := length (textBeforeCursor context) in
  let startIndex := (endIndex - limit)%nat in
  skipn startIndex (textBeforeCursor context).

Definition clipContext (priorText : jsstring) (limit : nat) : jsstring :=
  if (length priorText <=? limit)%nat then priorText
  else skipn (length priorText - limit) priorText.

(** [resolveTemperature] on the values that [getSuggestions] hands to
    it: the temperature of [getLLMProviderSettings], which is a finite
    number or [undefined] ([None]). *)
Definition resolveTemperature (value : option Q) : Q :=
  match value with
  | None => DEFAULT_CHAT_TEMPERATURE
  | Some v =>
      let lower := if Qle_bool 2 v then 2 # 1 else v in
      if Qle_bool lower 0 then 0 # 1 else lower
  end.

(** The method on every value of type [number | undefined]. *)
Module Numbers.

(** A JavaScript number: a finite one, an infinity or [NaN]. *)
Inductive JsNumber :=
| Finite (x : Q)
| PosInfinity
| NegInfinity
| NaN.

Definition Number_isNaN (v : JsNumber) : bool :=
  match v with NaN => true | _ => false end.

(** [Math.min(a, b)] and [Math.max(a, b)]. *)
Definition Math_min (a b : JsNumber) : JsNumber :=
  match a, b with
  | NaN, _ | _, NaN => NaN
  | NegInfinity, _ | _, NegInfinity => NegInfinity
  | PosInfinity, v | v, PosInfinity => v
  | Finite x, Finite y => if Qle_bool x y then Finite x else Finite y
  end.

Definition Math_max (a b : JsNumber) : JsNumber :=
  match a, b with
  | NaN, _ | _, NaN => NaN
  | PosInfinity, _ | _, PosInfinity => PosInfinity
  | NegInfinity, v | v, NegInfinity => v
  | Finite x, Finite y => if Qle_bool y x then Finite x else Finite y
  end.

(** [None] is [undefined], the one argument that is no number. *)
Definition resolveTemperature (value : option JsNumber) : JsNumber :=
  match value with
  | None => Finite DEFAULT_CHAT_TEMPERATURE
  | Some v =>
      if Number_isNaN v then Finite DEFAULT_CHAT_TEMPERATURE
      else
        let clamped := Math_max (Finite (0 # 1)) (Math_min (Finite (2 # 1)) v) in
        clamped
  end.

(** [Number.isFinite(temperature) ? temperature : undefined], the
    temperature that [getLLMProviderSettings] hands on. *)
Definition finiteOrUndefined (temperature : option JsNumber) : option Q :=
  match temperature with
  | Some (Finite x) => Some x
  | _ => None
  end.

End Numbers.

(** The regular expression [/\/v\d+\/chat\/completions\b/], tried
    at the beginning of [s]. *)
Definition versionedChatPathAt (s : jsstring) : bool :=
  match stripPrefix (js "/v") s with
  | Some (d :: r) =>
      isDigit d &&
      match stripPrefix (js "/chat/completions")
                        (dropWhile isDigit r) with
      | Some [] => true
      | Some (c :: _) => negb (isWordChar c)
      | None => false
      end
  | _ => false
  end.

Section WithBuiltins.
Context {B : StringBuiltins} {J : JsonBuiltins}.

Definition isOpenAIEndpoint (endpoint : jsstring) : bool :=
  if negb (nonEmpty endpoint) then false
  else
    let normalised := toLowerCase endpoint in
    if includes normalised (js "api.openai.com") then true
    else existsSuffix versionedChatPathAt normalised.

Definition resolveModel (settings : LLMProviderSettings)
  : option jsstring :=
  match option_map trim (model settings) with
  | Some (c :: m) => Some (c :: m)
  | _ => if isOpenAIEndpoint (endpoint settings)
         then Some DEFAULT_CHAT_MODEL else None
  end.

Definition prepareChatCompletionRequest (clippedContext : jsstring)
    (model : option jsstring) (temperature : Q) : PreparedRequest :=
  let payload :=
    [(js "temperature", VNum temperature);
     (js "messages",
      VArr [VObj [(js "role", VStr (js "system"));
                  (js "content", VStr CHAT_COMPLETION_PROMPT)];
            VObj [(js "role", VStr (js "user"));
                  (js "content", VStr clippedContext)]])]
    ++ match model with
       | Some (c :: m) => [(js "model", VStr (c :: m))]
       | _ => []
       end in
  {| body := JSON_stringify (VObj payload);
     clippedContext := clippedContext;
     request_model := model;
     request_temperature := temperature;
     source := generated |}.

Definition clonePreparedRequest (request : PreparedRequest)
    (source : PreparedRequestSource) : PreparedRequest :=
  {| body := body request;
     clippedContext := LlmSuggestionProvider.clippedContext request;
     request_model := request_model request;
     request_temperature := request_temperature request;
     source := source |}.

Definition safeParseJson (text : jsstring) : JsVal :=
  match text with
  | [] => VNull
  | _ => match JSON_parse text with
         | Some v => v
         | None => VNull
         end
  end.

Definition tryParseJson (text : jsstring) : JsVal :=
  match JSON_parse text with
  | Some v => v
  | None => VNull
  end.

Definition extractWords (payload : JsVal) : list jsstring :=
  match payload with
  | VArr items => filterStrings items
  | VObj _ =>
      match getProp payload (js "suggestions") with
      | VArr items => filterStrings items
      | _ =>
      match getProp payload (js "words") with
      | VArr items => filterStrings items
      | _ =>
      match getProp payload (js "completions") with
      | VArr items => filterStrings items
      | _ =>
      match getProp payload (js "data") with
      | VArr items => filterStrings items
      | _ => []
      end end end end
  | _ => []
  end.

(** The capture of [/```(?:json)?\s*([\s\S]*?)```/i]. *)
Definition fence : jsstring := js "```".

Definition skipJsonWord (s : jsstring) : jsstring :=
  match s with
  | a :: b :: c :: d :: r =>
      if str_eqb (map asciiLowerUnit [a; b; c; d]) (js "json")
      then r else s
  | _ => s
  end.

Fixpoint untilFence (s : jsstring) : option jsstring :=
  if startsWith s fence then Some []
  else match s with
       | [] => None
       | c :: s' => option_map (cons c) (untilFence s')
       end.

Definition codeBlockAt (s : jsstring) : option jsstring :=
  match stripPrefix fence s with
  | Some r => untilFence (trimStart (skipJsonWord r))
  | None => None
  end.

Fixpoint codeBlockMatch (s : jsstring) : option jsstring :=
  match codeBlockAt s with
  | Some capture => Some capture
  | None => match s with
            | [] => None
            | _ :: s' => codeBlockMatch s'
            end
  end.

(** [content.split(/\r?\n+/)]; [inSeparator] tells that the code
    unit before [s] belongs to a separator, [current] is the piece
    read so far. *)
Fixpoint splitLines (inSeparator : bool) (current s : jsstring)
  : list jsstring :=
  match s with
  | [] => [current]
  | c :: s' =>
      if (c =? 10)%N then
        if inSeparator then splitLines true [] s'
        else current :: splitLines true [] s'
      else if (c =? 13)%N && startsWith s' [10%N] then
        current :: splitLines true [] s'
      else splitLines false (current ++ [c]) s'
  end.

(** [line.replace(/^[\-\d\.]*(?:\)|\.|:)?\s*/, "")]. *)
Definition stripListPrefix (line : jsstring) : jsstring :=
  let r := dropWhile (fun c => (c =? 45)%N || isDigit c || (c =? 46)%N)
                     line in
  let r' := match r with
            | c :: r'' =>
                if ((c =? 41) || (c =? 46) || (c =? 58))%N then r'' else r
            | [] => []
            end in
  trimStart r'.

Definition parseOpenAIContent (raw : jsstring) : list jsstring :=
  let trimmed := trim raw in
  match trimmed with
  | [] => []
  | _ =>
      let content := match codeBlockMatch trimmed with
                     | Some capture => trim capture
                     | None => trimmed
                     end in
      match tryParseJson content with
      | VArr parsed => filterStrings parsed
      | _ =>
          filter nonEmpty
            (map (fun line => trim (stripListPrefix line))
                 (splitLines false [] content))
      end
  end.

Definition isObject (v : JsVal) : bool :=
  match v with
  | VArr _ | VObj _ => true
  | _ => false
  end.

Definition choiceWords (choice : JsVal) : list jsstring :=
  if negb (isObject choice) then []
  else
    let message := getProp choice (js "message") in
    match (if isObject message then getProp message (js "content")
           else VUndefined) with
    | VStr content => parseOpenAIContent content
    | _ =>
        match getProp choice (js "text") with
        | VStr text => parseOpenAIContent text
        | _ => []
        end
    end.

Definition extractOpenAIWords (payload : JsVal) : list jsstring :=
  if negb (isObject payload) then []
  else match getProp payload (js "choices") with
       | VArr choices => flat_map choiceWords choices
       | _ => []
       end.

(** [resolvePossiblePromise] on a property that could be read. *)
Definition resolvePossiblePromise (value : Property) : JsVal :=
  match value with
  | HoldsPromise (Normal v) => v
  | HoldsPromise Abrupt => VUndefined
  | Holds v => v
  | GetterThrows => VUndefined
  end.

Definition resolveText (response : RequestUrlResponse)
  : Completion JsVal :=
  match text response with
  | GetterThrows => Abrupt
  | value =>
      match resolvePossiblePromise value with
      | VStr resolvedText => Normal (safeParseJson resolvedText)
      | _ => Normal VNull
      end
  end.

Definition resolvePayload (response : RequestUrlResponse)
  : Completion JsVal :=
  match json response with
  | GetterThrows => Abrupt
  | value =>
      match resolvePossiblePromise value with
      | VUndefined | VNull => resolveText response
      | VStr resolvedJson =>
          match safeParseJson resolvedJson with
          | VNull => resolveText response
          | parsed => Normal parsed
          end
      | resolvedJson => Normal resolvedJson
      end
  end.

(** The argument [fetchSuggestions] passes to [requestUrl]. *)
Definition requestUrlParam (settings : LLMProviderSettings)
    (request : PreparedRequest) : RequestUrlParam :=
  {| url := endpoint settings;
     request_body := body request;
     authorization :=
       match apiKey settings with
       | Some (c :: k) => Some (js "Bearer " ++ c :: k)
       | _ => None
       end;
     request_timeout := timeout settings |}.

(** The [try] block of [fetchSuggestions] from the point where the
    awaited [requestUrl] settles. *)
Definition fetchSuggestions_try (outcome : RequestUrlOutcome)
  : Completion (list Suggestion) :=
  match outcome with
  | Abrupt => Abrupt
  | Normal response =>
      match resolvePayload response with
      | Abrupt => Abrupt
      | Normal payload =>
          if (status response <? 200)%Z || (300 <=? status response)%Z
          then Normal []
          else
            let words := extractWords payload in
            let words := match words with
                         | [] => extractOpenAIWords payload
                         | _ => words
                         end in
            Normal (map Suggestion_fromString words)
      end
  end.

(** How the promise returned by [fetchSuggestions] settles: the
    [catch] clause turns every exception into the empty array. *)
Definition fetchSuggestions (outcome : RequestUrlOutcome)
  : Completion (list Suggestion) :=
  match fetchSuggestions_try outcome with
  | Normal words => Normal words
  | Abrupt => Normal []
  end.

(** ** The provider's fields and the calls in progress *)

(** A promise returned by [fetchSuggestions], named by the position
    of its [requestUrl] call among the calls made. *)
Definition PromiseId := nat.

Record t := {
  cacheKey : option jsstring;
  cacheValue : option CachedSuggestions;
  inflightKey : option jsstring;
  inflightPromise : option PromiseId;
  pendingKey : option jsstring;
  pendingArgs : option PendingRequest;
  requestCache : list (jsstring * PreparedRequest)
}.

(** One [requestUrl] call, with the arguments of the [executeRequest]
    activation that made it and now awaits its promise. *)
Record NetworkCall := {
  call_key : jsstring;
  call_args : PendingRequest;
  call_param : RequestUrlParam
}.

Record World := {
  this : t;
  requests : list NetworkCall;
  settled : list (PromiseId * Completion (list Suggestion))
}.

Definition initial : World :=
  {| this := {| cacheKey := None; cacheValue := None;
                inflightKey := None; inflightPromise := None;
                pendingKey := None; pendingArgs := None;
                requestCache := [] |};
     requests := [];
     settled := [] |}.

(** [this.key === key] for a field that may be [null]. *)
Definition keyIs (field : option jsstring) (key : jsstring) : bool :=
  match field with
  | Some k => str_eqb k key
  | None => false
  end.

(** [requestCache.get(key)] and [requestCache.set(key, request)] on a
    [Map] kept in insertion order. *)
Fixpoint mapGet (m : list (jsstring * PreparedRequest)) (key : jsstring)
  : option PreparedRequest :=
  match m with
  | [] => None
  | (k, v) :: m' => if str_eqb k key then Some v else mapGet m' key
  end.

Fixpoint mapSet (m : list (jsstring * PreparedRequest)) (key : jsstring)
    (request : PreparedRequest) : list (jsstring * PreparedRequest) :=
  match m with
  | [] => [(key, request)]
  | (k, v) :: m' =>
      if str_eqb k key then (k, request) :: m'
      else (k, v) :: mapSet m' key request
  end.

(** [storePreparedRequest]: the loop deletes the oldest keys until at
    most twenty entries are left. *)
Definition storePreparedRequest (m : list (jsstring * PreparedRequest))
    (key : jsstring) (request : PreparedRequest)
  : list (jsstring * PreparedRequest) :=
  let m' := mapSet m key (clonePreparedRequest request generated) in
  skipn (length m' - 20) m'.

(** [executeRequest] up to its [await]: the call of [fetchSuggestions]
    reaches [requestUrl], then the in-flight fields are set. *)
Definition executeRequest (key : jsstring) (args : PendingRequest)
    (w : World) : PromiseId * World :=
  let requestPromise := length (requests w) in
  (requestPromise,
   {| this := {| cacheKey := cacheKey (this w);
                 cacheValue := cacheValue (this w);
                 inflightKey := Some key;
                 inflightPromise := Some requestPromise;
                 pendingKey := pendingKey (this w);
                 pendingArgs := pendingArgs (this w);
                 requestCache := requestCache (this w) |};
      requests :=
        requests w ++
        [{| call_key := key; call_args := args;
            call_param := requestUrlParam (args_settings args)
                                          (args_request args) |}];
      settled := settled w |}).

Definition processPending (w : World) : World :=
  match inflightPromise (this w), pendingKey (this w),
        pendingArgs (this w) with
  | None, Some (c :: k), Some nextArgs =>
      let nextKey := c :: k in
      snd (executeRequest nextKey nextArgs
             {| this := {| cacheKey := cacheKey (this w);
                           cacheValue := cacheValue (this w);
                           inflightKey := inflightKey (this w);
                           inflightPromise := inflightPromise (this w);
                           pendingKey := None;
                           pendingArgs := None;
                           requestCache := requestCache (this w) |};
                requests := requests w;
                settled := settled w |})
  | _, _, _ => w
  end.

(** [executeRequest] from its [await] on, for the activation with
    [key] and [args], once [requestPromise] has settled. *)
Definition executeRequest_resume (key : jsstring) (args : PendingRequest)
    (result : Completion (list Suggestion)) (w : World) : World :=
  let w1 :=
    match result with
    | Normal suggestions =>
        if keyIs (inflightKey (this w)) key
        then
          let cachedRequest :=
            clonePreparedRequest (args_request args)
                                 (source (args_request args)) in
          {| this := {| cacheKey := Some key;
                        cacheValue :=
                          Some {| suggestions := suggestions;
                                  cached_request := cachedRequest |};
                        inflightKey := inflightKey (this w);
                        inflightPromise := inflightPromise (this w);
                        pendingKey := pendingKey (this w);
                        pendingArgs := pendingArgs (this w);
                        requestCache :=
                          storePreparedRequest (requestCache (this w))
                                               key cachedRequest |};
             requests := requests w;
             settled := settled w |}
        else w
    | Abrupt => w
    end in
  if keyIs (inflightKey (this w1)) key
  then processPending
         {| this := {| cacheKey := cacheKey (this w1);
                       cacheValue := cacheValue (this w1);
                       inflightKey := None;
                       inflightPromise := None;
                       pendingKey := pendingKey (this w1);
                       pendingArgs := pendingArgs (this w1);
                       requestCache := requestCache (this w1) |};
            requests := requests w1;
            settled := settled w1 |}
  else w1.

Fixpoint settlement (table : list (PromiseId * Completion (list Suggestion)))
    (p : PromiseId) : option (Completion (list Suggestion)) :=
  match table with
  | [] => None
  | (p', c) :: table' =>
      if (p' =? p)%nat then Some c else settlement table' p
  end.

(** The [requestUrl] call behind promise [p] settles with [outcome]:
    [fetchSuggestions] finishes, then the awaiting [executeRequest]
    continues.  A promise settles once.  A call of [getSuggestions]
    between the arrival of the response and the continuation would find
    the request still in flight, as a call before the arrival does, so
    the two steps are taken as one. *)
Definition settle (p : PromiseId) (outcome : RequestUrlOutcome)
    (w : World) : World :=
  match settlement (settled w) p, nth_error (requests w) p with
  | None, Some call =>
      let result := fetchSuggestions outcome in
      executeRequest_resume (call_key call) (call_args call) result
        {| this := this w;
           requests := requests w;
           settled := (p, result) :: settled w |}
  | _, _ => w
  end.

(** What the body of [getSuggestions] returns; the promise of the
    [async] function settles as the returned value or promise does. *)
Inductive Returned :=
| ReturnsArray (suggestions : list Suggestion)
| ReturnsInflightPromise (p : PromiseId)
| ReturnsExecuteRequest (requestPromise : PromiseId).

(** The request key computed by [getSuggestions]. *)
Definition requestKey (context : SuggestionContext)
    (settings : CompletrSettings) : jsstring :=
  let providerSettings := getLLMProviderSettings settings in
  let limitedContext :=
    readLimitedContext context CHAT_COMPLETION_CONTEXT_LIMIT in
  let clippedContext :=
    clipContext limitedContext CHAT_COMPLETION_CONTEXT_LIMIT in
  let temperature := resolveTemperature (temperature providerSettings) in
  let model := resolveModel providerSettings in
  createCacheKey clippedContext (separatorChar context) model temperature.

Definition getSuggestions (context : SuggestionContext)
    (settings : CompletrSettings) (w : World) : Returned * World :=
  let providerSettings := getLLMProviderSettings settings in
  if negb (isEnabled providerSettings) then (ReturnsArray [], w)
  else
    let limitedContext :=
      readLimitedContext context CHAT_COMPLETION_CONTEXT_LIMIT in
    let clippedContext :=
      clipContext limitedContext CHAT_COMPLETION_CONTEXT_LIMIT in
    let temperature :=
      resolveTemperature (temperature providerSettings) in
    let model := resolveModel providerSettings in
    let triggerSource :=
      match triggerSource context with
      | Some source => source
      | None => DEFAULT_TRIGGER_SOURCE
      end in
    let key :=
      createCacheKey clippedContext (separatorChar context)
                     model temperature in
    let cachedSuggestions :=
      if keyIs (cacheKey (this w)) key
      then cacheValue (this w) else None in
    match cachedSuggestions with
    | Some cached => (ReturnsArray (suggestions cached), w)
    | None =>
        let request :=
          match mapGet (requestCache (this w)) key with
          | Some cachedRequest => clonePreparedRequest cachedRequest cache
          | None =>
              prepareChatCompletionRequest clippedContext model temperature
          end in
        let args :=
          {| args_settings := providerSettings;
             args_request := request;
             args_separator := separatorChar context;
             args_query := query context;
             args_triggerSource := triggerSource |} in
        match inflightPromise (this w) with
        | Some promise =>
            if keyIs (inflightKey (this w)) key
            then (ReturnsInflightPromise promise, w)
            else
              (ReturnsArray [],
               {| this := {| cacheKey := cacheKey (this w);
                             cacheValue := cacheValue (this w);
                             inflightKey := inflightKey (this w);
                             inflightPromise := inflightPromise (this w);
                             pendingKey := Some key;
                             pendingArgs := Some args;
                             requestCache := requestCache (this w) |};
                  requests := requests w;
                  settled := settled w |})
        | None =>
            let '(requestPromise, w') := executeRequest key args w in
            (ReturnsExecuteRequest requestPromise, w')
        end
    end.

(** How the promise a caller of [getSuggestions] holds has settled,
    if it has. *)
Definition received (w : World) (r : Returned)
  : option (Completion (list Suggestion)) :=
  match r with
  | ReturnsArray suggestions => Some (Normal suggestions)
  | ReturnsInflightPromise p => settlement (settled w) p
  | ReturnsExecuteRequest requestPromise =>
      settlement (settled w) requestPromise
  end.

(** The events the provider reacts to, and a run over a sequence of
    them. *)
Inductive Event :=
| Call (context : SuggestionContext) (settings : CompletrSettings)
| Settle (p : PromiseId) (outcome : RequestUrlOutcome).

Definition step (w : World) (e : Event) : World :=
  match e with
  | Call context settings => snd (getSuggestions context settings w)
  | Settle p outcome => settle p outcome w
  end.

Definition run (events : list Event) (w : World) : World :=
  fold_left step events w.

Definition reachable (w : World) : Prop :=
  exists events, w = run events initial.

(** ** Notions used to state the provider's properties *)

(** What every run keeps true: a settled promise belongs to a call made
    and was fulfilled, a request is parked only while another one is in
    flight, and a parked request has a non-empty key and its arguments. *)
Definition consistent (w : World) : Prop :=
  (forall p c,
      settlement (settled w) p = Some c ->
      p < length (requests w) /\ exists l, c = Normal l) /\
  (inflightPromise (this w) = None -> pendingKey (this w) = None) /\
  (forall k,
      pendingKey (this w) = Some k ->
      k <> [] /\ pendingArgs (this w) <> None).

(** The local [cachedSuggestions] of a call that computed [key]. *)
Definition cachedSuggestionsFor (w : World) (key : jsstring)
  : option CachedSuggestions :=
  if keyIs (cacheKey (this w)) key then cacheValue (this w) else None.

(** The request a call that computed [key] prepares. *)
Definition preparedFor (context : SuggestionContext)
    (settings : CompletrSettings) (w : World) : PendingRequest :=
  let providerSettings := getLLMProviderSettings settings in
  let clippedContext :=
    clipContext (readLimitedContext context CHAT_COMPLETION_CONTEXT_LIMIT)
                CHAT_COMPLETION_CONTEXT_LIMIT in
  let temperature := resolveTemperature (temperature providerSettings) in
  let model := resolveModel providerSettings in
  {| args_settings := providerSettings;
     args_request :=
       match mapGet (requestCache (this w))
                    (requestKey context settings) with
       | Some cachedRequest => clonePreparedRequest cachedRequest cache
       | None => prepareChatCompletionRequest clippedContext model temperature
       end;
     args_separator := separatorChar context;
     args_query := query context;
     args_triggerSource :=
       match triggerSource context with
       | Some source => source
       | None => DEFAULT_TRIGGER_SOURCE
       end |}.

(** The world after a request was parked in the pending slot. *)
Definition parked (w : World) (key : jsstring) (args : PendingRequest)
  : World :=
  {| this := {| cacheKey := cacheKey (this w);
                cacheValue := cacheValue (this w);
                inflightKey := inflightKey (this w);
                inflightPromise := inflightPromise (this w);
                pendingKey := Some key;
                pendingArgs := Some args;
                requestCache := requestCache (this w) |};
     requests := requests w;
     settled := settled w |}.

(** The world after the call in flight for [key] was fulfilled with
    [suggestions] and before the pending slot is looked at. *)
Definition fulfilled (w : World) (p : PromiseId) (key : jsstring)
    (args : PendingRequest) (suggestions : list Suggestion) : World :=
  {| this := {| cacheKey := Some key;
                cacheValue :=
                  Some {| suggestions := suggestions;
                          cached_request :=
                            clonePreparedRequest (args_request args)
                              (source (args_request args)) |};
                inflightKey := None;
                inflightPromise := None;
                pendingKey := pendingKey (this w);
                pendingArgs := pendingArgs (this w);
                requestCache :=
                  storePreparedRequest (requestCache (this w)) key
                    (clonePreparedRequest (args_request args)
                       (source (args_request args))) |};
     requests := requests w;
     settled := (p, Normal suggestions) :: settled w |}.

(** A response whose [json] cannot be used and whose [text] does not
    parse. *)
Definition jsonUnusable (p : Property) : Prop :=
  p = GetterThrows \/
  resolvePossiblePromise p = VUndefined \/
  resolvePossiblePromise p = VNull \/
  exists s, resolvePossiblePromise p = VStr s /\ JSON_parse s = None.

Definition textUnparsable (p : Property) : Prop :=
  p = GetterThrows \/
  (exists s, resolvePossiblePromise p = VStr s /\ JSON_parse s = None) \/
  (forall s, resolvePossiblePromise p <> VStr s).

Definition unparsable (response : RequestUrlResponse) : Prop :=
  jsonUnusable (json response) /\ textUnparsable (text response).

(** [w] occurs in [s] as a run of consecutive code units. *)
Definition occursIn (w s : jsstring) : Prop :=
  exists before after, s = before ++ w ++ after.

(** The text that [parseOpenAIContent] reads the words from: the capture
    of the first fenced block of the trimmed message, trimmed, or the
    trimmed message. *)
Definition contentOf (raw : jsstring) : jsstring :=
  match codeBlockMatch (trim raw) with
  | Some capture => trim capture
  | None => trim raw
  end.

(** The code units that the prefix pattern of [stripListPrefix] can
    consume before the white space: hyphen, digit, point, closing
    parenthesis, colon. *)
Definition isMarkerUnit (c : code_unit) : bool :=
  ((c =? 45) || isDigit c || (c =? 46) || (c =? 41) || (c =? 58))%N.

(** A list marker: a text that the prefix pattern matches as a whole,
    without leading white space and without line break. *)
Definition listMarker (m : jsstring) : Prop :=
  stripListPrefix m = [] /\ trimStart m = m /\
  ~ In 10%N m /\ ~ In 13%N m.

(** A plain word: not empty, without white space at either end, without
    line break, and starting with no code unit of a list marker. *)
Definition plainWord (w : jsstring) : Prop :=
  (exists c k, w = c :: k /\ isMarkerUnit c = false) /\
  trimStart w = w /\ trimStart (rev w) = rev w /\
  ~ In 10%N w /\ ~ In 13%N w.

End WithBuiltins.

End LlmSuggestionProvider.

(* ================================================================== *)
(** * The LLM provider of [src/provider/llm_provider.ts] *)
(* ================================================================== *)

(** The variant of the provider without the pending slot and the request
    cache: a call whose key is neither cached nor in flight starts its
    request at once.  Its helpers for settings, clipping and reading
    the response are those of the variant above.  The two earlier
    variants among the sources have the same bookkeeping in
    [getSuggestions] and the same [createCacheKey]; they differ in how
    the request body is built and test the status before they read the
    payload. *)
Module LlmProviderTs.

Import LlmSuggestionProvider.

Definition CHAT_COMPLETION_PROMPT : jsstring :=
  js "You are an autocomplete assistant for the Obsidian note-taking app. Complete what word the user is typing. Return ONLY a JSON array of 5 suggestion words with no commentary.".

Record t := {
  cacheKey : option jsstring;
  cacheValue : list Suggestion;
  inflightKey : option jsstring;
  inflightPromise : option PromiseId
}.

(** One [requestUrl] call, with the key of the [getSuggestions]
    activation that made it and now awaits its promise. *)
Record NetworkCall := {
  call_key : jsstring;
  call_param : RequestUrlParam
}.

Record World := {
  this : t;
  requests : list NetworkCall;
  settled : list (PromiseId * Completion (list Suggestion))
}.

Definition initial : World :=
  {| this := {| cacheKey := None; cacheValue := [];
                inflightKey := None; inflightPromise := None |};
     requests := [];
     settled := [] |}.

Definition createCacheKey (priorText : jsstring) (separator : option jsstring)
  : jsstring :=
  priorText ++ CACHE_SEPARATOR ++ orEmptyString separator.

Section WithBuiltins.
Context {B : StringBuiltins} {J : JsonBuiltins}.

Definition buildChatCompletionBody (settings : LLMProviderSettings)
    (priorText : jsstring) : jsstring :=
  let clippedContext := clipContext priorText CHAT_COMPLETION_CONTEXT_LIMIT in
  let model :=
    match option_map trim (model settings) with
    | Some (c :: m) => Some (c :: m)
    | _ => if isOpenAIEndpoint (endpoint settings)
           then Some DEFAULT_CHAT_MODEL else None
    end in
  let temperature := resolveTemperature (temperature settings) in
  let payload :=
    [(js "temperature", VNum temperature);
     (js "messages",
      VArr [VObj [(js "role", VStr (js "system"));
                  (js "content", VStr CHAT_COMPLETION_PROMPT)];
            VObj [(js "role", VStr (js "user"));
                  (js "content", VStr clippedContext)]])]
    ++ match model with
       | Some (c :: m) => [(js "model", VStr (c :: m))]
       | _ => []
       end in
  JSON_stringify (VObj payload).

(** The argument [fetchSuggestions] passes to [requestUrl]. *)
Definition requestUrlParam (settings : LLMProviderSettings)
    (priorText : jsstring) : RequestUrlParam :=
  {| url := endpoint settings;
     request_body := buildChatCompletionBody settings priorText;
     authorization :=
       match apiKey settings with
       | Some (c :: k) => Some (js "Bearer " ++ c :: k)
       | _ => None
       end;
     request_timeout := timeout settings |}.

(** The [try] block of [fetchSuggestions] from the point where the
    awaited [requestUrl] settles. *)
Definition fetchSuggestions_try (outcome : RequestUrlOutcome)
  : Completion (list Suggestion) :=
  match outcome with
  | Abrupt => Abrupt
  | Normal response =>
      match resolvePayload response with
      | Abrupt => Abrupt
      | Normal payload =>
          if (status response <? 200)%Z || (300 <=? status response)%Z
          then Normal []
          else
            let words := extractWords payload in
            let words := match words with
                         | [] => extractOpenAIWords payload
                         | _ => words
                         end in
            Normal (map Suggestion_fromString words)
      end
  end.

(** How the promise returned by [fetchSuggestions] settles. *)
Definition fetchSuggestions (outcome : RequestUrlOutcome)
  : Completion (list Suggestion) :=
  match fetchSuggestions_try outcome with
  | Normal words => Normal words
  | Abrupt => Normal []
  end.

(** What a call of [getSuggestions] has done when it returns or reaches
    its [await]. *)
Inductive Returned :=
| ReturnsArray (suggestions : list Suggestion)
| ReturnsInflightPromise (p : PromiseId)
| AwaitsRequest (requestPromise : PromiseId).

Definition requestKey (context : SuggestionContext) : jsstring :=
  createCacheKey (textBeforeCursor context) (separatorChar context).

Definition getSuggestions (context : SuggestionContext)
    (settings : CompletrSettings) (w : World) : Returned * World :=
  let providerSettings := getLLMProviderSettings settings in
  if negb (isEnabled providerSettings) then (ReturnsArray [], w)
  else
    let priorText := textBeforeCursor context in
    let key := createCacheKey priorText (separatorChar context) in
    if keyIs (cacheKey (this w)) key
    then (ReturnsArray (cacheValue (this w)), w)
    else
      match inflightPromise (this w), keyIs (inflightKey (this w)) key with
      | Some promise, true => (ReturnsInflightPromise promise, w)
      | _, _ =>
          let requestPromise := length (requests w) in
          (AwaitsRequest requestPromise,
           {| this := {| cacheKey := cacheKey (this w);
                         cacheValue := cacheValue (this w);
                         inflightKey := Some key;
                         inflightPromise := Some requestPromise |};
              requests :=
                requests w ++
                [{| call_key := key;
                    call_param :=
                      requestUrlParam providerSettings priorText |}];
              settled := settled w |})
      end.

(** [getSuggestions] from its [await] on, for the activation that
    computed [key]. *)
Definition getSuggestions_resume (key : jsstring)
    (result : Completion (list Suggestion)) (w : World) : World :=
  let w1 :=
    match result with
    | Normal suggestions =>
        if keyIs (inflightKey (this w)) key
        then {| this := {| cacheKey := Some key;
                           cacheValue := suggestions;
                           inflightKey := inflightKey (this w);
                           inflightPromise := inflightPromise (this w) |};
                requests := requests w;
                settled := settled w |}
        else w
    | Abrupt => w
    end in
  if keyIs (inflightKey (this w1)) key
  then {| this := {| cacheKey := cacheKey (this w1);
                     cacheValue := cacheValue (this w1);
                     inflightKey := None;
                     inflightPromise := None |};
          requests := requests w1;
          settled := settled w1 |}
  else w1.

Definition settle (p : PromiseId) (outcome : RequestUrlOutcome) (w : World)
  : World :=
  match settlement (settled w) p, nth_error (requests w) p with
  | None, Some call =>
      let result := fetchSuggestions outcome in
      getSuggestions_resume (call_key call) result
        {| this := this w;
           requests := requests w;
           settled := (p, result) :: settled w |}
  | _, _ => w
  end.

Definition received (w : World) (r : Returned)
  : option (Completion (list Suggestion)) :=
  match r with
  | ReturnsArray suggestions => Some (Normal suggestions)
  | ReturnsInflightPromise p => settlement (settled w) p
  | AwaitsRequest requestPromise => settlement (settled w) requestPromise
  end.

Inductive Event :=
| Call (context : SuggestionContext) (settings : CompletrSettings)
| Settle (p : PromiseId) (outcome : RequestUrlOutcome).

Definition step (w : World) (e : Event) : World :=
  match e with
  | Call context settings => snd (getSuggestions context settings w)
  | Settle p outcome => settle p outcome w
  end.

Definition run (events : list Event) (w : World) : World :=
  fold_left step events w.

Definition reachable (w : World) : Prop :=
  exists events, w = run events initial.

(** What every run keeps true: a settled promise belongs to a call made
    and was fulfilled. *)
Definition consistent (w : World) : Prop :=
  forall p c,
    settlement (settled w) p = Some c ->
    p < length (requests w) /\ exists l, c = Normal l.

End WithBuiltins.

End LlmProviderTs.

(* ================================================================== *)
(** * The suggestion popup: trigger, selection and navigation *)
(* ================================================================== *)

(** The fields of [CompletrSettings] the popup's own methods read. *)
Module PopupSettings.

Record t := {
  characterRegex : jsstring;
  maxLookBackDistance : Z;
  autoFocus : bool;
  autoTrigger : bool;
  insertSpaceAfterComplete : bool
}.

End PopupSettings.

(** The methods of [SuggestionPopup] around [getSuggestions].  The host
    class [EditorSuggest], the editor and the snippet manager are outside
    the repository: a method returns the popup's fields after the call
    together with the calls it made on them, in order. *)
Module PopupMethods.

(** The private fields.  A field without initialiser starts as
    [undefined]; a compiled [RegExp] is held by its pattern. *)
Record Fields := {
  justClosed : bool;
  separatorChar : option jsstring;
  triggerSource : SuggestionTriggerSource;
  characterRegex : option jsstring;
  compiledCharacterRegex : option jsstring;
  focused : bool
}.

Definition initial : Fields :=
  {| justClosed := false;
     separatorChar := None;
     triggerSource := unknown;
     characterRegex := None;
     compiledCharacterRegex := None;
     focused := false |}.

Inductive SelectionDirection := NEXT | PREVIOUS | NONE.

Definition SelectionDirection_value (dir : SelectionDirection) : Z :=
  match dir with
  | NEXT => 1
  | PREVIOUS => -1
  | NONE => 0
  end.

Record EditorSuggestTriggerInfo := {
  start : EditorPosition;
  end_ : EditorPosition;
  query : jsstring
}.

(** The calls the methods make on their collaborators. *)
Inductive HostCall :=
| super_open
| super_close
| removeClass_is_selected
| replaceRange (replacement : jsstring) (from : EditorPosition)
    (to : option EditorPosition)
| setCursor (pos : EditorPosition)
| handleSnippet (replacement : jsstring) (start : EditorPosition)
| console_log
| setSelectedItem (index : Z).

(** [open()]; [children] is the number of elements of the suggestion
    container. *)
Definition open (settings : PopupSettings.t) (children : nat) (f : Fields)
  : Fields * list HostCall :=
  let focused := PopupSettings.autoFocus settings in
  ({| justClosed := justClosed f;
      separatorChar := separatorChar f;
      triggerSource := triggerSource f;
      characterRegex := characterRegex f;
      compiledCharacterRegex := compiledCharacterRegex f;
      focused := focused |},
   super_open
   :: (if negb focused then repeat removeClass_is_selected children
       else [])).

(** [close()]. *)
Definition close (f : Fields) : Fields * list HostCall :=
  ({| justClosed := justClosed f;
      separatorChar := separatorChar f;
      triggerSource := unknown;
      characterRegex := characterRegex f;
      compiledCharacterRegex := compiledCharacterRegex f;
      focused := false |},
   [super_close]).

(** [this.characterRegex !== this.settings.characterRegex]. *)
Definition differs (field : option jsstring) (setting : jsstring) : bool :=
  match field with
  | Some s => negb (str_eqb s setting)
  | None => true
  end.

(** [getCharacterRegex()]: the regular expression returned and the
    fields after the call. *)
Definition getCharacterRegex (settings : PopupSettings.t) (f : Fields)
  : option jsstring * Fields :=
  if differs (characterRegex f) (PopupSettings.characterRegex settings)
  then
    let compiled :=
      Some (js "[" ++ PopupSettings.characterRegex settings ++ js "]") in
    (compiled,
     {| justClosed := justClosed f;
        separatorChar := separatorChar f;
        triggerSource := triggerSource f;
        characterRegex := characterRegex f;
        compiledCharacterRegex := compiled;
        focused := focused f |})
  else (compiledCharacterRegex f, f).

(** [preventNextTrigger()]. *)
Definition preventNextTrigger (f : Fields) : Fields :=
  {| justClosed := true;
     separatorChar := separatorChar f;
     triggerSource := triggerSource f;
     characterRegex := characterRegex f;
     compiledCharacterRegex := compiledCharacterRegex f;
     focused := focused f |}.

(** [selectNextItem(dir)]; [selectedItem] is the index the suggestion
    list holds. *)
Definition selectNextItem (dir : SelectionDirection) (selectedItem : Z)
    (f : Fields) : Fields * list HostCall :=
  let '(f', dir') :=
    if negb (focused f)
    then ({| justClosed := justClosed f;
             separatorChar := separatorChar f;
             triggerSource := triggerSource f;
             characterRegex := characterRegex f;
             compiledCharacterRegex := compiledCharacterRegex f;
             focused := true |},
          match dir with
          | PREVIOUS => dir
          | _ => NONE
          end)
    else (f, dir) in
  (f', [setSelectedItem (selectedItem + SelectionDirection_value dir')]).

Section WithEditor.
(** The editor, and what the methods ask of it:
    [editor.getLine(line).length], [editor.getCursor()], and
    [matchWordBackwards] of [editor_helpers.ts], which is not among the
    sources.  The predicate handed to [matchWordBackwards] calls
    [getCharacterRegex] on the popup, so the collaborator is given the
    fields and the settings and hands back, with the query and the
    separator, the compiled expression the fields hold afterwards. *)
Variable Editor : Type.
Variable getLine_length : Editor -> Z -> Z.
Variable getCursor : Editor -> EditorPosition.
Variable matchWordBackwards :
  Editor -> EditorPosition -> Fields -> PopupSettings.t ->
  jsstring * option jsstring * option jsstring.

(** [internalOnTrigger(editor, cursor, manualTrigger)]. *)
Definition internalOnTrigger (settings : PopupSettings.t) (editor : Editor)
    (cursor : EditorPosition) (manualTrigger : bool) (f : Fields)
  : option EditorSuggestTriggerInfo * Fields * list HostCall :=
  if justClosed f
  then (None,
        {| justClosed := false;
           separatorChar := separatorChar f;
           triggerSource := triggerSource f;
           characterRegex := characterRegex f;
           compiledCharacterRegex := compiledCharacterRegex f;
           focused := focused f |},
        [])
  else if negb (PopupSettings.autoTrigger settings) && negb manualTrigger
  then let '(f', calls) := close f in (None, f', calls)
  else
    let '(query, separatorChar, compiled) :=
      matchWordBackwards editor cursor f settings in
    (Some {| start := {| line := line cursor;
                         ch := ch cursor - Z.of_nat (length query) |};
             end_ := cursor;
             query := query |},
     {| justClosed := justClosed f;
        separatorChar := separatorChar;
        triggerSource := if manualTrigger then manual else auto;
        characterRegex := characterRegex f;
        compiledCharacterRegex := compiled;
        focused := focused f |},
     []).

(** [onTrigger(cursor, editor, file)]; [file] is [None] for a trigger
    without file. *)
Definition onTrigger (File : Type) (settings : PopupSettings.t)
    (cursor : EditorPosition) (editor : Editor) (file : option File)
    (f : Fields)
  : option EditorSuggestTriggerInfo * Fields * list HostCall :=
  internalOnTrigger settings editor cursor
    (match file with Some _ => false | None => true end) f.

(** [selectSuggestion(value, evt)] on the popup whose [context] holds
    [context_start], [context_end] and [editor]. *)
Definition selectSuggestion (disableSnippets : bool) (value : Suggestion)
    (context_start context_end : EditorPosition) (editor : Editor)
    (f : Fields) : Fields * list HostCall :=
  let replacement := replacement value in
  let start :=
    match overrideStart value with
    | Some o => o
    | None => context_start
    end in
  let endPos :=
    match overrideEnd value with
    | Some o => o
    | None => context_end
    end in
  let replaced :=
    replaceRange replacement start
      (Some {| line := line endPos;
               ch := Z.min (ch endPos)
                           (getLine_length editor (line endPos)) |}) in
  let placed :=
    if includes replacement (js "#") || includes replacement (js "~")
    then if negb disableSnippets
         then handleSnippet replacement start
         else console_log
    else setCursor {| line := line start;
                      ch := ch start + Z.of_nat (length replacement) |} in
  let '(f', closed) := close f in
  ({| justClosed := true;
      separatorChar := separatorChar f';
      triggerSource := triggerSource f';
      characterRegex := characterRegex f';
      compiledCharacterRegex := compiledCharacterRegex f';
      focused := focused f' |},
   [replaced; placed] ++ closed).

(** [postApplySelectedItem(editor)]. *)
Definition postApplySelectedItem (settings : PopupSettings.t)
    (editor : Editor) : list HostCall :=
  if negb (PopupSettings.insertSpaceAfterComplete settings) then []
  else
    let cursor := getCursor editor in
    [replaceRange (js " ") cursor None;
     setCursor {| line := line cursor; ch := ch cursor + 1 |}].

(** The calls of the popup's methods, and the fields a fresh popup
    holds after a sequence of them, each made under the settings of its
    time. *)
Inductive Method :=
| call_open (children : nat)
| call_close
| call_internalOnTrigger (editor : Editor) (cursor : EditorPosition)
    (manualTrigger : bool)
| call_selectSuggestion (disableSnippets : bool) (value : Suggestion)
    (context_start context_end : EditorPosition) (editor : Editor)
| call_selectNextItem (dir : SelectionDirection) (selectedItem : Z)
| call_preventNextTrigger
| call_getCharacterRegex.

Definition step (settings : PopupSettings.t) (f : Fields) (m : Method)
  : Fields :=
  match m with
  | call_open children => fst (open settings children f)
  | call_close => fst (close f)
  | call_internalOnTrigger editor cursor manualTrigger =>
      snd (fst (internalOnTrigger settings editor cursor manualTrigger f))
  | call_selectSuggestion disableSnippets value context_start context_end
                          editor =>
      fst (selectSuggestion disableSnippets value context_start context_end
                            editor f)
  | call_selectNextItem dir selectedItem =>
      fst (selectNextItem dir selectedItem f)
  | call_preventNextTrigger => preventNextTrigger f
  | call_getCharacterRegex => snd (getCharacterRegex settings f)
  end.

Definition run (calls : list (PopupSettings.t * Method)) : Fields :=
  fold_left (fun f call => step (fst call) f (snd call)) calls initial.

End WithEditor.

End PopupMethods.

(* ================================================================== *)
(** * Concrete inputs *)
(* ================================================================== *)

Module Examples.

(** The default settings but for the minimum trigger length and the
    temperature. *)
Definition settingsWith (minimum : Z) (temperature : Q) : CompletrSettings :=
  {| minWordTriggerLength := minimum;
     wordInsertionMode := IGNORE_CASE_REPLACE;
     ignoreDiacriticsWhenFiltering := false;
     llmProviderEnabled := true;
     llmApiUrl := js "http://127.0.0.1:5000/v1/chat/completions";
     llmApiKey := [];
     llmModel := [];
     llmTemperature := Some temperature;
     llmRequestTimeout := Some (10000 # 1) |}.

Definition settings : CompletrSettings := settingsWith 3 (7 # 10).

Definition settingsNoMinimum : CompletrSettings := settingsWith 0 (7 # 10).

Definition withTemperature (x : Q) : CompletrSettings := settingsWith 3 x.

(** The default settings in append mode, and with a blank URL. *)
Definition appendSettings : CompletrSettings :=
  {| minWordTriggerLength := 3;
     wordInsertionMode := IGNORE_CASE_APPEND;
     ignoreDiacriticsWhenFiltering := false;
     llmProviderEnabled := true;
     llmApiUrl := js "http://127.0.0.1:5000/v1/chat/completions";
     llmApiKey := [];
     llmModel := [];
     llmTemperature := Some (7 # 10);
     llmRequestTimeout := Some (10000 # 1) |}.

Definition blankUrlSettings : CompletrSettings :=
  {| minWordTriggerLength := 3;
     wordInsertionMode := IGNORE_CASE_REPLACE;
     ignoreDiacriticsWhenFiltering := false;
     llmProviderEnabled := true;
     llmApiUrl := js "  ";
     llmApiKey := [];
     llmModel := [];
     llmTemperature := Some (7 # 10);
     llmRequestTimeout := Some (10000 # 1) |}.

Local Open Scope string_scope.

Definition typed (text word : string) : SuggestionContext :=
  {| textBeforeCursor := js text;
     query := js word;
     separatorChar := Some (js " ");
     triggerSource := Some auto |}.

Definition words : DictionaryProvider.WordMap :=
  [(js "w", [js "word"; js "world"; js "work"])].

Definition enabledWords : DictionaryProvider.t :=
  {| DictionaryProvider.wordMap := words;
     DictionaryProvider.isEnabled := fun _ => true;
     DictionaryProvider.suggestionCache := None |}.

Definition disabledWords : DictionaryProvider.t :=
  {| DictionaryProvider.wordMap := words;
     DictionaryProvider.isEnabled := fun _ => false;
     DictionaryProvider.suggestionCache := None |}.

(** The enabled provider after the query [wor]. *)
Definition wordsAfterWor : DictionaryProvider.t :=
  snd (DictionaryProvider.getSuggestions (B := asciiBuiltins)
         enabledWords (typed "a wor" "wor") settings).

(** Providers that return, resolve, throw or reject whatever the
    context is. *)
Definition suggestionsOf (names : list string) : list Suggestion :=
  map (fun name => Suggestion_fromString (js name)) names.

Definition returning (names : list string) (blocks : bool)
  : SuggestionPopup.SuggestionProvider :=
  {| SuggestionPopup.getSuggestions_of :=
       fun _ _ => SuggestionPopup.Returns (Some (suggestionsOf names));
     SuggestionPopup.blocksAllOtherProviders := blocks |}.

Definition resolving (names : list string) (blocks : bool)
  : SuggestionPopup.SuggestionProvider :=
  {| SuggestionPopup.getSuggestions_of :=
       fun _ _ => SuggestionPopup.PromiseResolves (Some (suggestionsOf names));
     SuggestionPopup.blocksAllOtherProviders := blocks |}.

Definition throwing : SuggestionPopup.SuggestionProvider :=
  {| SuggestionPopup.getSuggestions_of := fun _ _ => SuggestionPopup.Throws;
     SuggestionPopup.blocksAllOtherProviders := false |}.

Definition rejecting : SuggestionPopup.SuggestionProvider :=
  {| SuggestionPopup.getSuggestions_of :=
       fun _ _ => SuggestionPopup.PromiseRejects;
     SuggestionPopup.blocksAllOtherProviders := false |}.

(** Two asynchronous blocking providers at indices 1 and 2 between
    two synchronous ones. *)
Definition twoBlockers : list SuggestionPopup.SuggestionProvider :=
  [returning ["alpha"] false; resolving ["beta"] true;
   resolving ["gamma"] true; returning ["delta"] false].

Definition nothingBlacklisted (s : Suggestion) : bool := false.

(** A suggestion shown as [word] that inserts another text, and a
    synchronous provider that returns the given suggestions. *)
Definition wordInserting (inserted : string) : Suggestion :=
  {| displayName := js "word"; replacement := js inserted;
     overrideStart := None; overrideEnd := None;
     icon := None; color := None |}.

Definition offering (l : list Suggestion) (blocks : bool)
  : SuggestionPopup.SuggestionProvider :=
  {| SuggestionPopup.getSuggestions_of :=
       fun _ _ => SuggestionPopup.Returns (Some l);
     SuggestionPopup.blocksAllOtherProviders := blocks |}.

(** A blacklist that holds the suggestions shown as [beta]. *)
Definition betaBlacklisted (s : Suggestion) : bool :=
  str_eqb (displayName s) (js "beta").

(** The callbacks run in the reverse of the launch order. *)
Definition lastFirst (tasks : list SuggestionPopup.Task)
  : list SuggestionPopup.Task := rev tasks.

Definition origin : EditorPosition := {| line := 0; ch := 0 |}.

(** A response with status 500 whose body is not JSON. *)
Definition response500 : LlmSuggestionProvider.RequestUrlResponse :=
  {| LlmSuggestionProvider.status := 500;
     LlmSuggestionProvider.json := LlmSuggestionProvider.GetterThrows;
     LlmSuggestionProvider.text :=
       LlmSuggestionProvider.Holds (VStr (js "Internal Server Error")) |}.

(** A response with status 200 whose body is an array of words. *)
Definition response200 (names : list string)
  : LlmSuggestionProvider.RequestUrlResponse :=
  {| LlmSuggestionProvider.status := 200;
     LlmSuggestionProvider.json :=
       LlmSuggestionProvider.Holds (VArr (map (fun n => VStr (js n)) names));
     LlmSuggestionProvider.text := LlmSuggestionProvider.Holds (VStr []) |}.

(** The JSON text of the array of [alpha] and [beta], and a stand-in for
    the JSON built-ins that parses this text only. *)
Definition alphaBetaText : jsstring :=
  ([91%N; 34%N] ++ js "alpha" ++ [34%N; 44%N; 34%N] ++ js "beta"
   ++ [34%N; 93%N])%list.

Definition alphaBetaJson : JsonBuiltins := {|
  JSON_parse := fun text =>
    if str_eqb text alphaBetaText
    then Some (VArr [VStr (js "alpha"); VStr (js "beta")])
    else None;
  JSON_stringify := fun _ => []
|}.

(** A document of 6001 code units before the cursor, beginning with
    [c]. *)
#[warnings="-abstract-large-number"]
Definition longDocument (c : code_unit) : SuggestionContext :=
  {| textBeforeCursor := c :: repeat 97%N 6000;
     query := js "a";
     separatorChar := Some (js " ");
     triggerSource := Some auto |}.

End Examples.

(* ================================================================== *)
(** * Facts about strings and sorting *)
(* ================================================================== *)

Unset Implicit Arguments.

Lemma str_eqb_refl (a : jsstring) : str_eqb a a = true.
Proof. unfold str_eqb. destruct (jsstring_eq_dec a a); congruence. Qed.

Lemma str_eqb_eq (a b : jsstring) : str_eqb a b = true <-> a = b.
Proof.
  unfold str_eqb. destruct (jsstring_eq_dec a b); split; congruence.
Qed.

Lemma str_eqb_neq (a b : jsstring) : str_eqb a b = false <-> a <> b.
Proof.
  unfold str_eqb. destruct (jsstring_eq_dec a b); split; congruence.
Qed.

Lemma startsWith_refl (s : jsstring) : startsWith s s = true.
Proof.
  induction s as [|c s IH]; simpl; [reflexivity|].
  now rewrite N.eqb_refl, IH.
Qed.

Lemma startsWith_app (s q : jsstring) :
  startsWith s q = true <-> exists r, s = q ++ r.
Proof.
  revert s. induction q as [|c q IH]; intros s; simpl.
  - split; [intros _; now exists s | reflexivity].
  - destruct s as [|d s].
    + split; [discriminate | intros [r Hr]; discriminate].
    + rewrite andb_true_iff, N.eqb_eq, IH. split.
      * intros [-> [r ->]]. now exists r.
      * intros [r Hr]. injection Hr as -> ->. split; [reflexivity|now exists r].
Qed.

(** A string that starts with an extension of [q0] starts with [q0]. *)
Lemma startsWith_trans (s q1 q0 : jsstring) :
  startsWith q1 q0 = true -> startsWith s q1 = true -> startsWith s q0 = true.
Proof.
  rewrite !startsWith_app. intros [r ->] [r' ->].
  exists (r ++ r'). now rewrite app_assoc.
Qed.

Section ArraySortFacts.
Variable A : Type.
Variable key : A -> Z.

Let cmp (a b : A) : Z := (key a - key b)%Z.
Let le (a b : A) : Prop := (key a <= key b)%Z.

Lemma sortInsert_perm (x : A) (l : list A) :
  Permutation (sortInsert cmp x l) (x :: l).
Proof.
  induction l as [|y l IH]; simpl; [reflexivity|].
  destruct (cmp x y <=? 0)%Z; [reflexivity|].
  rewrite IH. apply perm_swap.
Qed.

Lemma Array_sort_perm (l : list A) : Permutation (Array_sort cmp l) l.
Proof.
  induction l as [|x l IH]; simpl; [reflexivity|].
  unfold Array_sort in *. simpl. rewrite sortInsert_perm. now constructor.
Qed.

Lemma sortInsert_sorted (x : A) (l : list A) :
  StronglySorted le l -> StronglySorted le (sortInsert cmp x l).
Proof.
  induction l as [|y l IH]; simpl; intros Hs.
  - repeat constructor.
  - destruct (cmp x y <=? 0)%Z eqn:E.
    + apply Z.leb_le in E. unfold cmp in E.
      constructor; [assumption|].
      inversion Hs as [|? ? _ Hall]; subst. constructor.
      * unfold le. lia.
      * eapply Forall_impl; [|exact Hall]. unfold le. intros; lia.
    + apply Z.leb_gt in E. unfold cmp in E.
      inversion Hs as [|? ? Hs' Hall]; subst.
      constructor; [now apply IH|].
      eapply Permutation_Forall; [symmetry; apply sortInsert_perm|].
      constructor; [unfold le; lia | assumption].
Qed.

Lemma Array_sort_sorted (l : list A) : StronglySorted le (Array_sort cmp l).
Proof.
  induction l as [|x l IH]; [constructor|].
  unfold Array_sort in *. simpl. now apply sortInsert_sorted.
Qed.

(** Stability: the elements of any one key keep their order. *)
Lemma sortInsert_stable (k : Z) (x : A) (l : list A) :
  StronglySorted le l ->
  filter (fun a => (key a =? k)%Z) (sortInsert cmp x l)
  = filter (fun a => (key a =? k)%Z) (x :: l).
Proof.
  induction l as [|y l IH]; intros Hs; [reflexivity|].
  simpl. destruct (cmp x y <=? 0)%Z eqn:E; [reflexivity|].
  apply Z.leb_gt in E. unfold cmp in E.
  inversion Hs as [|? ? Hs' Hall]; subst.
  simpl. rewrite (IH Hs'). simpl.
  destruct (key x =? k)%Z eqn:Ex, (key y =? k)%Z eqn:Ey; try reflexivity.
  apply Z.eqb_eq in Ex, Ey. lia.
Qed.

Lemma Array_sort_stable (k : Z) (l : list A) :
  filter (fun a => (key a =? k)%Z) (Array_sort cmp l)
  = filter (fun a => (key a =? k)%Z) l.
Proof.
  induction l as [|x l IH]; [reflexivity|].
  unfold Array_sort in *. simpl fold_right.
  rewrite sortInsert_stable by apply Array_sort_sorted.
  simpl. now rewrite IH.
Qed.
End ArraySortFacts.

(* ================================================================== *)
(** * The dictionary provider: cache, early exit and ordering *)
(* ================================================================== *)

Section DictionaryFacts.
Context {B : StringBuiltins}.
Import DictionaryProvider.

Lemma candidateLists_nonempty (m : WordMap) (ic id : bool) (fc : jsstring) :
  (length (candidateLists m ic id fc) <? 1)%nat = false.
Proof.
  unfold candidateLists. apply Nat.ltb_ge.
  rewrite length_app. destruct ic; simpl; lia.
Qed.

(** [getSuggestions] past its guard. *)
Lemma getSuggestions_past_guard (p : t) (context : SuggestionContext)
    (settings : CompletrSettings) :
  exitsEarly p context settings = false ->
  getSuggestions p context settings =
  let q := normalizedQuery context settings in
  let matches :=
    match reuseCondition p context settings, suggestionCache p with
    | true, Some c =>
        filterIterable (cache_matches c) q (ignoreCaseOf settings)
                       (ignoreDiacriticsWhenFiltering settings)
    | _, _ => rescan (wordMap p) context settings
    end in
  (Array_sort byDisplayLength
     (map (mapSuggestion (wordInsertionMode settings) (query context) q)
          matches),
   {| wordMap := wordMap p; isEnabled := isEnabled p;
      suggestionCache :=
        Some {| cache_query := q;
                cache_ignoreCase := ignoreCaseOf settings;
                cache_ignoreDiacritics :=
                  ignoreDiacriticsWhenFiltering settings;
                cache_firstChar := charAt0 q;
                cache_matches := matches |} |}).
Proof.
  intros Hguard. unfold getSuggestions.
  unfold exitsEarly in Hguard. rewrite Hguard.
  rewrite candidateLists_nonempty.
  unfold reuseCondition, rescan, normalizedQuery, normalize, ignoreCaseOf.
  cbv zeta.
  destruct (canReuseCache _ _ _ _ _); reflexivity.
Qed.

Lemma getSuggestions_early (p : t) (context : SuggestionContext)
    (settings : CompletrSettings) :
  exitsEarly p context settings = true ->
  getSuggestions p context settings = ([], p).
Proof.
  intros Hguard. unfold getSuggestions.
  unfold exitsEarly in Hguard. now rewrite Hguard.
Qed.

Lemma filterIterable_scanLists (lists : list (list jsstring))
    (q0 q1 : jsstring) (ic id : bool) :
  startsWith q1 q0 = true ->
  filterIterable (scanLists lists q0 ic id) q1 ic id
  = scanLists lists q1 ic id.
Proof.
  intros Hext. unfold scanLists, filterIterable.
  induction lists as [|el lists IH]; [reflexivity|].
  simpl. rewrite filter_app, IH. f_equal.
  clear IH. induction el as [|val el IH]; [reflexivity|].
  simpl. destruct (startsWith (normalize val ic id) q1) eqn:E1.
  - rewrite (startsWith_trans _ _ _ Hext E1). simpl. now rewrite E1, IH.
  - destruct (startsWith (normalize val ic id) q0); simpl;
      [rewrite E1|]; exact IH.
Qed.

(** What is filtered out of a cached list is what a scan finds. *)
Lemma reuse_is_rescan (p : t) (c : SuggestionCache)
    (context : SuggestionContext) (settings : CompletrSettings) :
  cacheSound p ->
  suggestionCache p = Some c ->
  reuseCondition p context settings = true ->
  filterIterable (cache_matches c) (normalizedQuery context settings)
    (ignoreCaseOf settings) (ignoreDiacriticsWhenFiltering settings)
  = rescan (wordMap p) context settings.
Proof.
  unfold cacheSound, reuseCondition. intros Hsound Hc. rewrite Hc in *.
  simpl. rewrite !andb_true_iff.
  intros [[[Hic Hid] Hfc] Hext].
  apply Bool.eqb_prop in Hic, Hid. apply str_eqb_eq in Hfc.
  rewrite Hsound, Hic, Hid, Hfc.
  now apply filterIterable_scanLists.
Qed.

Lemma getSuggestions_sound (p : t) (context : SuggestionContext)
    (settings : CompletrSettings) :
  cacheSound p -> cacheSound (snd (getSuggestions p context settings)).
Proof.
  intros Hsound.
  destruct (exitsEarly p context settings) eqn:Hguard.
  - now rewrite getSuggestions_early.
  - rewrite getSuggestions_past_guard by assumption.
    unfold cacheSound. cbn [snd suggestionCache wordMap cache_matches
      cache_query cache_ignoreCase cache_ignoreDiacritics cache_firstChar].
    destruct (reuseCondition p context settings) eqn:Hre;
      destruct (suggestionCache p) as [c|] eqn:Hc; try reflexivity.
    now apply reuse_is_rescan.
Qed.

Lemma getSuggestions_wordMap (p : t) (context : SuggestionContext)
    (settings : CompletrSettings) :
  wordMap (snd (getSuggestions p context settings)) = wordMap p.
Proof.
  destruct (exitsEarly p context settings) eqn:Hguard.
  - now rewrite getSuggestions_early.
  - now rewrite getSuggestions_past_guard.
Qed.

Lemma reachable_sound (m : WordMap) (en : CompletrSettings -> bool) (p : t) :
  reachable m en p -> cacheSound p /\ wordMap p = m.
Proof.
  induction 1 as [|p context settings _ [IHs IHm]].
  - split; [exact I | reflexivity].
  - split; [now apply getSuggestions_sound|].
    now rewrite getSuggestions_wordMap.
Qed.

End DictionaryFacts.

Section DictionaryClaims.
Context {B : StringBuiltins}.
Import DictionaryProvider.

(** C1. When the cache holds the matches of an earlier query [Q0] of
    the same word map, computed under the same [ignoreCase] and
    [ignoreDiacritics] flags and the same first character, and the new
    normalised query extends [Q0], then [getSuggestions] takes the
    cache-reuse path, and the matches it finds by filtering the cached
    list, the suggestions it returns and the cache it leaves are those
    of a call that rescans the candidate buckets from an empty cache. *)
Theorem C1_cache_reuse_equals_rescan
    (m : WordMap) (en : CompletrSettings -> bool) (p : t)
    (c : SuggestionCache) (context : SuggestionContext)
    (settings : CompletrSettings) (extension : jsstring) :
  reachable m en p ->
  suggestionCache p = Some c ->
  exitsEarly p context settings = false ->
  cache_ignoreCase c = ignoreCaseOf settings ->
  cache_ignoreDiacritics c = ignoreDiacriticsWhenFiltering settings ->
  cache_firstChar c = charAt0 (normalizedQuery context settings) ->
  normalizedQuery context settings = cache_query c ++ extension ->
  reuseCondition p context settings = true /\
  filterIterable (cache_matches c) (normalizedQuery context settings)
    (ignoreCaseOf settings) (ignoreDiacriticsWhenFiltering settings)
  = rescan m context settings /\
  option_map cache_matches
    (suggestionCache (snd (getSuggestions p context settings)))
  = Some (rescan m context settings) /\
  getSuggestions p context settings
  = getSuggestions (set_suggestionCache p None) context settings.
Proof.
  intros Hreach Hc Hguard Hic Hid Hfc Hext.
  destruct (reachable_sound m en p Hreach) as [Hsound Hm].
  assert (Hre : reuseCondition p context settings = true).
  { unfold reuseCondition. rewrite Hc. simpl.
    rewrite Hic, Hid, Hfc, !eqb_reflx, str_eqb_refl. simpl.
    apply startsWith_app. now exists extension. }
  assert (Hfilter := reuse_is_rescan p c context settings Hsound Hc Hre).
  rewrite Hm in Hfilter.
  split; [exact Hre|]. split; [exact Hfilter|].
  rewrite (getSuggestions_past_guard p context settings Hguard).
  rewrite (getSuggestions_past_guard (set_suggestionCache p None)
             context settings Hguard).
  rewrite Hre, Hc. cbv zeta.
  assert (Hnone : reuseCondition (set_suggestionCache p None)
                    context settings = false) by reflexivity.
  rewrite Hnone. cbn [snd suggestionCache option_map cache_matches
                      wordMap isEnabled set_suggestionCache].
  rewrite Hfilter, Hm. split; reflexivity.
Qed.

(** C9. When the provider is disabled, or the query is empty or
    shorter than the configured minimum trigger length,
    [getSuggestions] returns the empty list and leaves the provider,
    its cache included, as it was. *)
Theorem C9_early_exit_keeps_cache
    (p : t) (context : SuggestionContext) (settings : CompletrSettings) :
  isEnabled p settings = false \/
  query context = [] \/
  (Z.of_nat (length (query context)) < minWordTriggerLength settings)%Z ->
  getSuggestions p context settings = ([], p) /\
  suggestionCache (snd (getSuggestions p context settings))
  = suggestionCache p.
Proof.
  intros H.
  assert (Hguard : exitsEarly p context settings = true).
  { unfold exitsEarly. destruct H as [H | [H | H]].
    - now rewrite H.
    - rewrite H. simpl. now rewrite orb_true_r.
    - apply Z.ltb_lt in H. rewrite H. apply orb_true_r. }
  rewrite (getSuggestions_early p context settings Hguard). now split.
Qed.

Lemma filterIterable_idem (l : list jsstring) (q : jsstring) (ic id : bool) :
  filterIterable (filterIterable l q ic id) q ic id = filterIterable l q ic id.
Proof.
  unfold filterIterable. induction l as [|val l IH]; [reflexivity|].
  simpl. destruct (startsWith (normalize val ic id) q) eqn:E; [|exact IH].
  simpl. now rewrite E, IH.
Qed.

Lemma filterIterable_rescan (m : WordMap) (context : SuggestionContext)
    (settings : CompletrSettings) :
  filterIterable (rescan m context settings)
    (normalizedQuery context settings) (ignoreCaseOf settings)
    (ignoreDiacriticsWhenFiltering settings)
  = rescan m context settings.
Proof.
  unfold rescan. apply filterIterable_scanLists. apply startsWith_refl.
Qed.

(** C10, amended.  With the provider enabled and the query non-empty
    and at least the minimum trigger length, two calls in succession
    with the same context and settings return equal lists; the second
    call meets the cache-reuse condition, its matches are the cached
    list filtered, and it leaves the provider as the first call did. *)
Theorem C10_repeated_query_idempotent
    (p : t) (context : SuggestionContext) (settings : CompletrSettings) :
  isEnabled p settings = true ->
  query context <> [] ->
  (minWordTriggerLength settings <= Z.of_nat (length (query context)))%Z ->
  let first := getSuggestions p context settings in
  let second := getSuggestions (snd first) context settings in
  fst second = fst first /\
  reuseCondition (snd first) context settings = true /\
  snd second = snd first /\
  exists c,
    suggestionCache (snd first) = Some c /\
    cache_query c = normalizedQuery context settings /\
    option_map cache_matches (suggestionCache (snd second))
    = Some (filterIterable (cache_matches c)
              (normalizedQuery context settings) (ignoreCaseOf settings)
              (ignoreDiacriticsWhenFiltering settings)).
Proof.
  intros Hen Hq Hmin first second.
  assert (Hguard : exitsEarly p context settings = false).
  { unfold exitsEarly. rewrite Hen. simpl.
    destruct (query context) as [|u q]; [contradiction|]. simpl.
    apply Z.ltb_ge. exact Hmin. }
  subst second first.
  rewrite (getSuggestions_past_guard p context settings Hguard).
  cbv zeta.
  set (matches := match reuseCondition p context settings,
                        suggestionCache p with
                  | true, Some c => _
                  | _, _ => _
                  end).
  assert (Hidem : filterIterable matches
                    (normalizedQuery context settings)
                    (ignoreCaseOf settings)
                    (ignoreDiacriticsWhenFiltering settings) = matches).
  { subst matches.
    destruct (reuseCondition p context settings);
      destruct (suggestionCache p);
      auto using filterIterable_idem, filterIterable_rescan. }
  cbn [fst snd].
  set (p1 := {| wordMap := wordMap p |}).
  assert (Hguard1 : exitsEarly p1 context settings = false) by exact Hguard.
  assert (Hre : reuseCondition p1 context settings = true).
  { unfold reuseCondition, p1. simpl.
    now rewrite !eqb_reflx, str_eqb_refl, startsWith_refl. }
  rewrite (getSuggestions_past_guard p1 context settings Hguard1).
  rewrite Hre. cbn [fst snd suggestionCache p1 cache_matches wordMap
                    isEnabled option_map cache_query].
  rewrite Hidem. repeat split.
  eexists. split; [reflexivity|]. cbn [cache_matches cache_query].
  now rewrite Hidem.
Qed.

(** C8. Past the guard, [getSuggestions] returns the mapped matches
    sorted by display-text length, shortest first, and suggestions of
    equal length stay in the order of the match list.  For the query
    [wor] on a fresh provider whose dictionary holds [word], [world]
    and [work], in either case-insensitive mode, the result is [word],
    [work], [world], each as a verbatim suggestion. *)
Theorem C8_sorted_by_display_length :
  (forall (p : t) (context : SuggestionContext)
          (settings : CompletrSettings),
      let result := fst (getSuggestions p context settings) in
      StronglySorted
        (fun a b => (length (displayName a) <= length (displayName b))%nat)
        result /\
      forall c,
        exitsEarly p context settings = false ->
        suggestionCache (snd (getSuggestions p context settings)) = Some c ->
        let unsorted :=
          map (mapSuggestion (wordInsertionMode settings) (query context)
                             (normalizedQuery context settings))
              (cache_matches c) in
        Permutation result unsorted /\
        forall n,
          filter (fun a => (length (displayName a) =? n)%nat) result
          = filter (fun a => (length (displayName a) =? n)%nat) unsorted)
  /\
  (forall (en : CompletrSettings -> bool) (context : SuggestionContext)
          (settings : CompletrSettings),
      toLowerCase (js "wor") = js "wor" ->
      toLowerCase (js "word") = js "word" ->
      toLowerCase (js "world") = js "world" ->
      toLowerCase (js "work") = js "work" ->
      toUpperCase (js "w") = js "W" ->
      en settings = true ->
      wordInsertionMode settings <> MATCH_CASE_REPLACE ->
      ignoreDiacriticsWhenFiltering settings = false ->
      (minWordTriggerLength settings <= 3)%Z ->
      query context = js "wor" ->
      fst (getSuggestions
             {| wordMap := [(js "w", [js "word"; js "world"; js "work"])];
                isEnabled := en;
                suggestionCache := None |}
             context settings)
      = [Suggestion_fromString (js "word");
         Suggestion_fromString (js "work");
         Suggestion_fromString (js "world")]).
Proof.
  split.
  - intros p context settings result.
    assert (Hkey : forall (P : Suggestion -> Suggestion -> Prop) l,
               StronglySorted
                 (fun a b => (Z.of_nat (length (displayName a))
                              <= Z.of_nat (length (displayName b)))%Z) l ->
               StronglySorted
                 (fun a b => (length (displayName a)
                              <= length (displayName b))%nat) l).
    { intros _ l Hs. induction Hs as [|a l Hs IH Hall]; constructor; auto.
      eapply Forall_impl; [|exact Hall]. simpl. intros; lia. }
    split.
    + subst result. destruct (exitsEarly p context settings) eqn:Hguard.
      * rewrite getSuggestions_early by assumption. constructor.
      * rewrite getSuggestions_past_guard by assumption. cbv zeta.
        cbn [fst]. apply (Hkey (fun _ _ => True)).
        apply (Array_sort_sorted _
                 (fun a => Z.of_nat (length (displayName a)))).
    + intros c Hguard. subst result.
      rewrite getSuggestions_past_guard by assumption. cbv zeta.
      cbn [fst snd suggestionCache]. intros Hc. injection Hc as <-.
      cbn [cache_matches]. split.
      * apply (Array_sort_perm _
                 (fun a => Z.of_nat (length (displayName a)))).
      * intros n.
        assert (Hf : forall l : list Suggestion,
                   filter (fun a => (length (displayName a) =? n)%nat) l
                   = filter (fun a => (Z.of_nat (length (displayName a))
                                       =? Z.of_nat n)%Z) l).
        { intros l. apply filter_ext. intros a.
          destruct (Nat.eqb_spec (length (displayName a)) n) as [E|E];
            symmetry; [apply Z.eqb_eq | apply Z.eqb_neq]; lia. }
        rewrite !Hf.
        apply (Array_sort_stable _
                 (fun a => Z.of_nat (length (displayName a)))).
  - intros en context settings Hwor Hword Hworld Hwork Hup Hen Hmode Hdia
           Hmin Hq.
    rewrite getSuggestions_past_guard.
    2:{ unfold exitsEarly. cbn [isEnabled]. rewrite Hen, Hq. simpl.
        apply Z.ltb_ge. exact Hmin. }
    cbv zeta. unfold reuseCondition, rescan, normalizedQuery, ignoreCaseOf.
    cbn [suggestionCache canReuseCache wordMap fst].
    rewrite Hq, Hdia.
    assert (Hic : negb (WordInsertionMode_eqb (wordInsertionMode settings)
                                              MATCH_CASE_REPLACE) = true)
      by (destruct (wordInsertionMode settings); [congruence | | ];
          reflexivity).
    rewrite Hic.
    unfold candidateLists, scanLists, filterIterable, normalize,
      maybeLowerCase.
    rewrite Hwor.
    replace (charAt0 (js "wor")) with (js "w") by reflexivity.
    rewrite Hup. simpl flat_map. simpl filter.
    rewrite Hword, Hworld, Hwork.
    destruct (wordInsertionMode settings); [congruence | | ]; reflexivity.
Qed.

End DictionaryClaims.

(* ================================================================== *)
(** * The dictionary provider on concrete inputs *)
(* ================================================================== *)

Lemma C1_cache_reuse_equals_rescan_witness :
  DictionaryProvider.getSuggestions (B := asciiBuiltins)
    Examples.wordsAfterWor (Examples.typed "a word" "word") Examples.settings
  = DictionaryProvider.getSuggestions (B := asciiBuiltins)
      (DictionaryProvider.set_suggestionCache Examples.wordsAfterWor None)
      (Examples.typed "a word" "word") Examples.settings.
Proof.
  eapply (@C1_cache_reuse_equals_rescan asciiBuiltins
            Examples.words (fun _ => true) Examples.wordsAfterWor
            _ (Examples.typed "a word" "word") Examples.settings (js "d")).
  - apply DictionaryProvider.reachable_call.
    apply DictionaryProvider.reachable_fresh.
  - reflexivity.
  - reflexivity.
  - reflexivity.
  - reflexivity.
  - reflexivity.
  - reflexivity.
Defined.

Lemma C9_early_exit_keeps_cache_witness :
  DictionaryProvider.getSuggestions (B := asciiBuiltins)
    Examples.wordsAfterWor (Examples.typed "a wo" "wo") Examples.settings
  = ([], Examples.wordsAfterWor).
Proof.
  apply (@C9_early_exit_keeps_cache asciiBuiltins).
  right. right. simpl. lia.
Defined.

(** C10 as stated fails where the guard of [getSuggestions] returns
    early: with the provider disabled, or with an empty query and a
    minimum trigger length of zero, the query is at least the minimum
    length, yet the first call leaves the cache empty and the second call
    does not meet the cache-reuse condition. *)
Lemma C10_counterexample :
  let context := Examples.typed "a wor" "wor" in
  let first :=
    DictionaryProvider.getSuggestions (B := asciiBuiltins)
      Examples.disabledWords context Examples.settings in
  let empty := Examples.typed "a " "" in
  let first' :=
    DictionaryProvider.getSuggestions (B := asciiBuiltins)
      Examples.enabledWords empty Examples.settingsNoMinimum in
  ((minWordTriggerLength Examples.settings
    <= Z.of_nat (length (query context)))%Z /\
   DictionaryProvider.suggestionCache (snd first) = None /\
   DictionaryProvider.reuseCondition (B := asciiBuiltins)
     (snd first) context Examples.settings = false) /\
  ((minWordTriggerLength Examples.settingsNoMinimum
    <= Z.of_nat (length (query empty)))%Z /\
   DictionaryProvider.suggestionCache (snd first') = None /\
   DictionaryProvider.reuseCondition (B := asciiBuiltins)
     (snd first') empty Examples.settingsNoMinimum = false).
Proof.
  cbv zeta. repeat split; simpl; lia.
Qed.

Lemma C10_repeated_query_idempotent_witness :
  let first :=
    DictionaryProvider.getSuggestions (B := asciiBuiltins)
      Examples.enabledWords (Examples.typed "a wor" "wor") Examples.settings in
  DictionaryProvider.reuseCondition (B := asciiBuiltins)
    (snd first) (Examples.typed "a wor" "wor") Examples.settings = true.
Proof.
  apply (@C10_repeated_query_idempotent asciiBuiltins
           Examples.enabledWords (Examples.typed "a wor" "wor")
           Examples.settings).
  - reflexivity.
  - discriminate.
  - simpl. lia.
Defined.

Lemma C8_sorted_by_display_length_witness :
  fst (DictionaryProvider.getSuggestions (B := asciiBuiltins)
         Examples.enabledWords (Examples.typed "a wor" "wor")
         Examples.settings)
  = [Suggestion_fromString (js "word");
     Suggestion_fromString (js "work");
     Suggestion_fromString (js "world")].
Proof.
  apply (proj2 (@C8_sorted_by_display_length asciiBuiltins)
           (fun _ => true) (Examples.typed "a wor" "wor") Examples.settings).
  - reflexivity.
  - reflexivity.
  - reflexivity.
  - reflexivity.
  - reflexivity.
  - reflexivity.
  - discriminate.
  - reflexivity.
  - simpl. lia.
  - reflexivity.
Defined.

(* ================================================================== *)
(** * The dictionary provider: what a query returns *)
(* ================================================================== *)

Section DictionaryResults.
Context {B : StringBuiltins}.
Import DictionaryProvider.

Lemma getSuggestions_isEnabled (p : t) (context : SuggestionContext)
    (settings : CompletrSettings) :
  isEnabled (snd (getSuggestions p context settings)) = isEnabled p.
Proof.
  destruct (exitsEarly p context settings) eqn:Hguard.
  - now rewrite getSuggestions_early.
  - now rewrite getSuggestions_past_guard.
Qed.

Lemma reachable_isEnabled (m : WordMap) (en : CompletrSettings -> bool)
    (p : t) :
  reachable m en p -> isEnabled p = en.
Proof.
  induction 1 as [|p context settings _ IH]; [reflexivity|].
  now rewrite getSuggestions_isEnabled.
Qed.

(** The matches of a call on a reachable provider are those of a scan. *)
Lemma reachable_matches (m : WordMap) (en : CompletrSettings -> bool)
    (p : t) (context : SuggestionContext) (settings : CompletrSettings) :
  reachable m en p ->
  exitsEarly p context settings = false ->
  fst (getSuggestions p context settings)
  = Array_sort byDisplayLength
      (map (mapSuggestion (wordInsertionMode settings) (query context)
                          (normalizedQuery context settings))
           (rescan m context settings)).
Proof.
  intros Hreach Hguard.
  destruct (reachable_sound m en p Hreach) as [Hsound Hm].
  rewrite getSuggestions_past_guard by assumption. cbv zeta. cbn [fst].
  destruct (reuseCondition p context settings) eqn:Hre;
    destruct (suggestionCache p) as [c|] eqn:Hc; rewrite ?Hm;
    try reflexivity.
  now rewrite (reuse_is_rescan p c context settings Hsound Hc Hre), Hm.
Qed.

Lemma In_Array_sort (l : list Suggestion) (s : Suggestion) :
  In s (Array_sort byDisplayLength l) <-> In s l.
Proof.
  pose proof (Array_sort_perm _
                (fun a => Z.of_nat (length (displayName a))) l) as Hperm.
  split; intros H.
  - eapply Permutation_in; [exact Hperm | exact H].
  - eapply Permutation_in; [apply Permutation_sym, Hperm | exact H].
Qed.

Lemma In_scanLists lists q ic id word :
  In word (scanLists lists q ic id) <->
  exists bucket,
    In bucket lists /\ In word bucket /\
    startsWith (normalize word ic id) q = true.
Proof.
  unfold scanLists. rewrite in_flat_map. split.
  - intros [bucket [Hb Hw]]. unfold filterIterable in Hw.
    apply filter_In in Hw. now exists bucket.
  - intros [bucket (Hb & Hw & Hs)]. exists bucket. split; [exact Hb|].
    unfold filterIterable. now apply filter_In.
Qed.

Lemma In_getOrEmpty (m : WordMap) key word :
  In word (getOrEmpty m key) ->
  exists bucket, In (key, bucket) m /\ In word bucket.
Proof.
  induction m as [|[k v] m IH]; simpl; [intros []|].
  destruct (str_eqb k key) eqn:E.
  - apply str_eqb_eq in E. subst k. intros H. exists v. auto.
  - intros H. destruct (IH H) as [bucket [Hb Hw]]. exists bucket. auto.
Qed.

Lemma In_candidateLists m ic id fc bucket :
  In bucket (candidateLists m ic id fc) <->
  bucket = getOrEmpty m fc \/
  (ic = true /\ bucket = getOrEmpty m (toUpperCase fc)) \/
  (id = true /\
   exists key,
     In (key, bucket) m /\
     removeDiacritics (maybeLowerCase (charAt0 key) ic) = fc).
Proof.
  unfold candidateLists, diacriticBuckets. rewrite in_app_iff. split.
  - intros [H | H].
    + destruct ic; simpl in H; intuition.
    + destruct id; [|destruct H]. right. right. split; [reflexivity|].
      apply in_map_iff in H. destruct H as [[key v] [<- Hin]].
      apply filter_In in Hin. destruct Hin as [Hin Hk].
      exists key. split; [exact Hin|]. now apply str_eqb_eq in Hk.
  - intros [-> | [[-> ->] | [-> [key [Hin Hk]]]]].
    + left. destruct ic; simpl; auto.
    + left. simpl. auto.
    + right. apply in_map_iff. exists (key, bucket). split; [reflexivity|].
      apply filter_In. split; [exact Hin|]. now apply str_eqb_eq.
Qed.

(** X1.  The cache never changes an answer: on every provider reached from a
    fresh one by calls of [getSuggestions], whatever the queries and
    settings of those calls were, a call returns the list a fresh
    provider over the same word map returns. *)
Theorem cache_never_changes_answers
    (m : WordMap) (en : CompletrSettings -> bool) (p : t)
    (context : SuggestionContext) (settings : CompletrSettings) :
  reachable m en p ->
  fst (getSuggestions p context settings)
  = fst (getSuggestions
           {| wordMap := m; isEnabled := en; suggestionCache := None |}
           context settings).
Proof.
  intros Hreach.
  set (fresh := {| wordMap := m; isEnabled := en; suggestionCache := None |}).
  assert (Hfresh : reachable m en fresh) by constructor.
  assert (Hguard : exitsEarly p context settings
                   = exitsEarly fresh context settings).
  { unfold exitsEarly. now rewrite (reachable_isEnabled m en p Hreach). }
  destruct (exitsEarly fresh context settings) eqn:E.
  - now rewrite !getSuggestions_early.
  - now rewrite (reachable_matches m en p context settings Hreach Hguard),
      (reachable_matches m en fresh context settings Hfresh E).
Qed.

(** X2.  In the two replace modes, past the guard, the suggestions returned
    are exactly the verbatim suggestions of the words that start with
    the query, both normalised, taken from the bucket of the query's
    first character, from the bucket of its upper-case form when case is
    ignored, and from the buckets whose key starts with that character
    under a diacritic when diacritics are ignored. *)
Theorem result_is_the_matching_words
    (m : WordMap) (en : CompletrSettings -> bool) (p : t)
    (context : SuggestionContext) (settings : CompletrSettings)
    (s : Suggestion) :
  reachable m en p ->
  exitsEarly p context settings = false ->
  wordInsertionMode settings <> IGNORE_CASE_APPEND ->
  let ignoreCase := ignoreCaseOf settings in
  let ignoreDiacritics := ignoreDiacriticsWhenFiltering settings in
  let q := normalizedQuery context settings in
  (In s (fst (getSuggestions p context settings)) <->
   exists word bucket,
     s = Suggestion_fromString word /\
     In word bucket /\
     startsWith (normalize word ignoreCase ignoreDiacritics) q = true /\
     (bucket = getOrEmpty m (charAt0 q) \/
      (ignoreCase = true /\
       bucket = getOrEmpty m (toUpperCase (charAt0 q))) \/
      (ignoreDiacritics = true /\
       exists key,
         In (key, bucket) m /\
         removeDiacritics (maybeLowerCase (charAt0 key) ignoreCase)
         = charAt0 q))).
Proof.
  intros Hreach Hguard Hmode. cbv zeta.
  rewrite (reachable_matches m en p context settings Hreach Hguard).
  rewrite In_Array_sort, in_map_iff.
  assert (Hmap : forall word,
             mapSuggestion (wordInsertionMode settings) (query context)
                           (normalizedQuery context settings) word
             = Suggestion_fromString word).
  { intros word. unfold mapSuggestion.
    destruct (wordInsertionMode settings); try reflexivity. congruence. }
  unfold rescan. split.
  - intros [word [<- Hin]]. apply In_scanLists in Hin.
    destruct Hin as [bucket (Hb & Hw & Hs)]. apply In_candidateLists in Hb.
    exists word, bucket. rewrite Hmap. now repeat split.
  - intros [word [bucket (-> & Hw & Hs & Hb)]]. exists word.
    split; [apply Hmap|]. apply In_scanLists. exists bucket.
    split; [now apply In_candidateLists|]. now split.
Qed.

(** X3.  In append mode every suggestion is the query as the user typed it
    followed by what a matching word holds behind the length of the
    normalised query: the typed text is kept, and the inserted text is
    the displayed one. *)
Theorem append_mode_keeps_typed_query
    (m : WordMap) (en : CompletrSettings -> bool) (p : t)
    (context : SuggestionContext) (settings : CompletrSettings)
    (s : Suggestion) :
  reachable m en p ->
  wordInsertionMode settings = IGNORE_CASE_APPEND ->
  In s (fst (getSuggestions p context settings)) ->
  let q := normalizedQuery context settings in
  startsWith (displayName s) (query context) = true /\
  replacement s = displayName s /\
  exists word bucket,
    In bucket
       (candidateLists m true (ignoreDiacriticsWhenFiltering settings)
                       (charAt0 q)) /\
    In word bucket /\
    startsWith
      (normalize word true (ignoreDiacriticsWhenFiltering settings)) q
    = true /\
    displayName s = query context ++ substringFrom (length q) word.
Proof.
  intros Hreach Hmode Hin. cbv zeta.
  destruct (exitsEarly p context settings) eqn:Hguard.
  { rewrite getSuggestions_early in Hin by assumption. destruct Hin. }
  rewrite (reachable_matches m en p context settings Hreach Hguard) in Hin.
  rewrite In_Array_sort in Hin.
  apply in_map_iff in Hin. destruct Hin as [word [<- Hin]].
  unfold mapSuggestion. rewrite Hmode. cbn [WordInsertionMode_eqb].
  cbn [Suggestion_fromString displayName replacement].
  split; [apply startsWith_app; eexists; reflexivity|].
  split; [reflexivity|].
  unfold rescan in Hin. apply In_scanLists in Hin.
  destruct Hin as [bucket (Hb & Hw & Hs)].
  assert (Hic : ignoreCaseOf settings = true)
    by (unfold ignoreCaseOf; now rewrite Hmode).
  rewrite Hic in Hb, Hs. exists word, bucket. now repeat split.
Qed.

(** X4.  A dictionary without a bucket for the first character of the
    normalised query, nor for its upper-case form when case is ignored,
    gives no suggestion when diacritics are not ignored. *)
Theorem no_bucket_no_suggestions
    (m : WordMap) (en : CompletrSettings -> bool) (p : t)
    (context : SuggestionContext) (settings : CompletrSettings) :
  reachable m en p ->
  ignoreDiacriticsWhenFiltering settings = false ->
  let firstChar := charAt0 (normalizedQuery context settings) in
  getOrEmpty m firstChar = [] ->
  (ignoreCaseOf settings = true ->
   getOrEmpty m (toUpperCase firstChar) = []) ->
  fst (getSuggestions p context settings) = [].
Proof.
  intros Hreach Hdia firstChar Hlower Hupper.
  destruct (exitsEarly p context settings) eqn:Hguard.
  { now rewrite getSuggestions_early. }
  rewrite (reachable_matches m en p context settings Hreach Hguard).
  unfold rescan, candidateLists. fold firstChar. rewrite Hdia, Hlower.
  destruct (ignoreCaseOf settings); [rewrite (Hupper eq_refl)|]; reflexivity.
Qed.

(** X5.  Typing on never adds a suggestion: in the replace modes, when the
    normalised query of a call extends the non-empty normalised query of
    a call that got past the guard, under the same settings, every
    suggestion of the longer query is one of the shorter query. *)
Theorem longer_query_narrows
    (m : WordMap) (en : CompletrSettings -> bool) (p0 p1 : t)
    (context0 context1 : SuggestionContext) (settings : CompletrSettings)
    (s : Suggestion) :
  reachable m en p0 ->
  reachable m en p1 ->
  exitsEarly p0 context0 settings = false ->
  wordInsertionMode settings <> IGNORE_CASE_APPEND ->
  normalizedQuery context0 settings <> [] ->
  startsWith (normalizedQuery context1 settings)
             (normalizedQuery context0 settings) = true ->
  In s (fst (getSuggestions p1 context1 settings)) ->
  In s (fst (getSuggestions p0 context0 settings)).
Proof.
  intros Hreach0 Hreach1 Hguard0 Hmode Hne Hext Hin.
  destruct (exitsEarly p1 context1 settings) eqn:Hguard1.
  { rewrite getSuggestions_early in Hin by assumption. destruct Hin. }
  rewrite (reachable_matches m en p1 context1 settings Hreach1 Hguard1)
    in Hin.
  rewrite (reachable_matches m en p0 context0 settings Hreach0 Hguard0).
  rewrite In_Array_sort in *.
  apply in_map_iff in Hin. destruct Hin as [word [<- Hin]].
  assert (Hmap : forall q q' typed typed',
             mapSuggestion (wordInsertionMode settings) typed q word
             = mapSuggestion (wordInsertionMode settings) typed' q' word).
  { intros q q' typed typed'. unfold mapSuggestion.
    destruct (wordInsertionMode settings); try reflexivity. congruence. }
  rewrite (Hmap _ (normalizedQuery context0 settings) _ (query context0)).
  apply in_map. unfold rescan in *.
  assert (Hfc : charAt0 (normalizedQuery context1 settings)
                = charAt0 (normalizedQuery context0 settings)).
  { apply startsWith_app in Hext. destruct Hext as [r ->].
    destruct (normalizedQuery context0 settings); [congruence | reflexivity]. }
  rewrite Hfc in Hin. apply In_scanLists in Hin. apply In_scanLists.
  destruct Hin as [bucket (Hb & Hw & Hs)]. exists bucket.
  split; [exact Hb|]. split; [exact Hw|].
  exact (startsWith_trans _ _ _ Hext Hs).
Qed.

End DictionaryResults.

Lemma cache_never_changes_answers_witness :
  fst (DictionaryProvider.getSuggestions (B := asciiBuiltins)
         Examples.wordsAfterWor (Examples.typed "a wo" "wor")
         Examples.settings)
  = fst (DictionaryProvider.getSuggestions (B := asciiBuiltins)
           Examples.enabledWords (Examples.typed "a wo" "wor")
           Examples.settings).
Proof.
  apply (@cache_never_changes_answers asciiBuiltins Examples.words
           (fun _ => true) Examples.wordsAfterWor
           (Examples.typed "a wo" "wor") Examples.settings).
  apply DictionaryProvider.reachable_call.
  apply DictionaryProvider.reachable_fresh.
Defined.

Lemma result_is_the_matching_words_witness :
  In (Suggestion_fromString (js "work"))
     (fst (DictionaryProvider.getSuggestions (B := asciiBuiltins)
             Examples.wordsAfterWor (Examples.typed "a wor" "wor")
             Examples.settings)).
Proof.
  apply (@result_is_the_matching_words asciiBuiltins Examples.words
           (fun _ => true) Examples.wordsAfterWor
           (Examples.typed "a wor" "wor") Examples.settings
           (Suggestion_fromString (js "work"))).
  - apply DictionaryProvider.reachable_call.
    apply DictionaryProvider.reachable_fresh.
  - reflexivity.
  - discriminate.
  - exists (js "work"), [js "word"; js "world"; js "work"].
    split; [reflexivity|]. split; [simpl; tauto|].
    split; [reflexivity|]. left. reflexivity.
Defined.

Lemma append_mode_keeps_typed_query_witness :
  startsWith (js "Work") (js "Wor") = true /\
  js "Work" = js "Work" /\
  exists word bucket,
    In bucket
       (DictionaryProvider.candidateLists (B := asciiBuiltins)
          Examples.words true false (js "w")) /\
    In word bucket /\
    startsWith
      (DictionaryProvider.normalize (B := asciiBuiltins) word true false)
      (js "wor") = true /\
    js "Work" = js "Wor" ++ substringFrom 3 word.
Proof.
  apply (@append_mode_keeps_typed_query asciiBuiltins Examples.words
           (fun _ => true) Examples.enabledWords
           (Examples.typed "a Wor" "Wor") Examples.appendSettings
           (Suggestion_fromString (js "Work"))).
  - apply DictionaryProvider.reachable_fresh.
  - reflexivity.
  - simpl. tauto.
Defined.

Lemma no_bucket_no_suggestions_witness :
  fst (DictionaryProvider.getSuggestions (B := asciiBuiltins)
         Examples.wordsAfterWor (Examples.typed "a xyz" "xyz")
         Examples.settings)
  = [].
Proof.
  apply (@no_bucket_no_suggestions asciiBuiltins Examples.words
           (fun _ => true) Examples.wordsAfterWor
           (Examples.typed "a xyz" "xyz") Examples.settings).
  - apply DictionaryProvider.reachable_call.
    apply DictionaryProvider.reachable_fresh.
  - reflexivity.
  - reflexivity.
  - reflexivity.
Defined.

Lemma longer_query_narrows_witness :
  In (Suggestion_fromString (js "word"))
     (fst (DictionaryProvider.getSuggestions (B := asciiBuiltins)
             Examples.enabledWords (Examples.typed "a wor" "wor")
             Examples.settings)).
Proof.
  apply (@longer_query_narrows asciiBuiltins Examples.words
           (fun _ => true) Examples.enabledWords Examples.wordsAfterWor
           (Examples.typed "a wor" "wor") (Examples.typed "a word" "word")
           Examples.settings (Suggestion_fromString (js "word"))).
  - apply DictionaryProvider.reachable_fresh.
  - apply DictionaryProvider.reachable_call.
    apply DictionaryProvider.reachable_fresh.
  - reflexivity.
  - discriminate.
  - discriminate.
  - reflexivity.
  - simpl. tauto.
Defined.

(* ================================================================== *)
(** * The suggestion popup: blocking cutoff and provider failures *)
(* ================================================================== *)

Section PopupFacts.
Import SuggestionPopup.

Variable PROVIDERS : list SuggestionProvider.
Variable blacklist_has : Suggestion -> bool.
Variable settings : CompletrSettings.
Variable schedule : list Task -> list Task.
Variable providerContext : SuggestionContext.

(** Every launched task settles, in some order. *)
Hypothesis schedule_perm : forall l, Permutation (schedule l) l.

Let returned (provider : SuggestionProvider) : ProviderReturn :=
  getSuggestions_of provider providerContext settings.
Let taskFaithful := taskFaithful PROVIDERS settings providerContext.
Let slotsFaithful := slotsFaithful PROVIDERS settings providerContext.
Let blocksNonEmpty := blocksNonEmpty.

Lemma nth_error_setIndex_same slots i results :
  nth_error (setIndex slots i results) i = Some (Some results).
Proof.
  revert slots. induction i as [|i IH]; intros [|x slots]; simpl; auto.
Qed.

Lemma nth_error_setIndex_other slots i results j l :
  j <> i ->
  nth_error (setIndex slots i results) j = Some (Some l) ->
  nth_error slots j = Some (Some l).
Proof.
  revert slots j. induction i as [|i IH]; intros [|x slots] [|j] Hne;
    simpl; try congruence; intros H.
  - now destruct j.
  - apply IH in H; [|congruence]. now destruct j.
  - apply IH in H; [assumption|congruence].
Qed.

Lemma setIndex_faithful slots i provider :
  slotsFaithful slots ->
  nth_error PROVIDERS i = Some provider ->
  slotsFaithful (setIndex slots i (contributes (returned provider))).
Proof.
  intros Hs Hi j l Hj. destruct (Nat.eq_dec j i) as [->|Hne].
  - rewrite nth_error_setIndex_same in Hj. injection Hj as <-.
    now exists provider.
  - apply Hs. now apply nth_error_setIndex_other in Hj.
Qed.

Lemma skipn_cons_nth (A : Type) (l : list A) i x rest :
  skipn i l = x :: rest ->
  nth_error l i = Some x /\ skipn (S i) l = rest.
Proof.
  revert l. induction i as [|i IH]; intros [|y l]; simpl; try discriminate.
  - intros H. injection H as -> ->. now split.
  - intros H. now apply IH.
Qed.

(** The first loop keeps slots and tasks faithful. *)
Lemma fanOut_faithful rest i v v' :
  skipn i PROVIDERS = rest ->
  slotsFaithful (providerResults v) ->
  Forall taskFaithful (pendingAsync v) ->
  fanOut settings providerContext rest i v = Normal v' ->
  slotsFaithful (providerResults v') /\ Forall taskFaithful (pendingAsync v').
Proof.
  revert i v. induction rest as [|provider rest IH]; intros i v Hskip Hs Ht.
  - simpl. intros H. injection H as <-. now split.
  - apply skipn_cons_nth in Hskip. destruct Hskip as [Hi Hskip].
    simpl. destruct (match blockingIndex v with
                     | Some b => (b <? i)%nat
                     | None => false
                     end).
    { intros H. injection H as <-. now split. }
    destruct (getSuggestions_of provider providerContext settings)
      as [r| |r|] eqn:Hret.
    + assert (Hstored :
                slotsFaithful (setIndex (providerResults v) i (orEmpty r))).
      { replace (orEmpty r) with (contributes (returned provider))
          by (unfold returned; now rewrite Hret).
        now apply setIndex_faithful. }
      destruct (negb (isEmpty (orEmpty r))
                && blocksAllOtherProviders provider).
      * intros H. injection H as <-. now split.
      * apply IH; assumption.
    + discriminate.
    + apply IH; try assumption. simpl.
      apply Forall_app. split; [assumption|]. constructor; [|constructor].
      split; simpl; [assumption|]. unfold returned. now rewrite Hret.
    + apply IH; try assumption. simpl.
      apply Forall_app. split; [assumption|]. constructor; [|constructor].
      split; simpl; [assumption|]. unfold returned. now rewrite Hret.
Qed.

(** The callbacks keep the slots faithful. *)
Lemma callbacks_faithful tasks v :
  Forall taskFaithful tasks ->
  slotsFaithful (providerResults v) ->
  slotsFaithful (providerResults (fold_left taskCallback tasks v)).
Proof.
  revert v. induction tasks as [|t tasks IH]; intros v Ht Hs; [assumption|].
  inversion Ht as [|? ? [Hi Hr] Ht']; subst. simpl. apply IH; [assumption|].
  unfold taskCallback. rewrite Hr.
  destruct (negb (isEmpty _) && _); simpl; now apply setIndex_faithful.
Qed.

Lemma awaitAllSettled_fold v :
  awaitAllSettled schedule v
  = fold_left taskCallback (schedule (pendingAsync v)) v.
Proof.
  unfold awaitAllSettled. destruct (pendingAsync v) eqn:E; [|reflexivity].
  now rewrite (Permutation_nil (Permutation_sym (schedule_perm []))).
Qed.

Lemma taskCallback_blockingIndex v t :
  blockingIndex (taskCallback v t)
  = if blocksNonEmpty t
    then match blockingIndex v with
         | None => Some (task_i t)
         | Some b => Some (Nat.min b (task_i t))
         end
    else blockingIndex v.
Proof.
  unfold taskCallback, blocksNonEmpty, SuggestionPopup.blocksNonEmpty.
  destruct (negb (isEmpty _) && _); reflexivity.
Qed.

(** The callbacks leave the lowest blocking index as the cutoff. *)
Lemma callbacks_blockingIndex i tasks v :
  (forall t, In t tasks -> blocksNonEmpty t = true -> i <= task_i t) ->
  (blockingIndex v = None \/ exists k, blockingIndex v = Some k /\ i <= k) ->
  (blockingIndex v = Some i \/
   exists t, In t tasks /\ task_i t = i /\ blocksNonEmpty t = true) ->
  blockingIndex (fold_left taskCallback tasks v) = Some i.
Proof.
  revert v. induction tasks as [|t tasks IH]; intros v Hlow Hcur Hhit.
  - destruct Hhit as [H | [t [[] _]]]. exact H.
  - simpl. apply IH.
    + intros t' Hin. apply Hlow. now right.
    + rewrite taskCallback_blockingIndex.
      destruct (blocksNonEmpty t) eqn:Eb; [|exact Hcur].
      right. specialize (Hlow t (or_introl eq_refl) Eb).
      destruct Hcur as [-> | [k [-> Hk]]]; eexists; split; try reflexivity;
        lia.
    + rewrite taskCallback_blockingIndex.
      destruct Hhit as [Hi | [t' [[<- | Hin] [Hti Hb]]]].
      * destruct (blocksNonEmpty t) eqn:Eb; [|left; exact Hi].
        left. rewrite Hi. f_equal.
        specialize (Hlow t (or_introl eq_refl) Eb). lia.
      * rewrite Hb. left.
        destruct Hcur as [-> | [k [-> Hk]]]; f_equal; lia.
      * right. now exists t'.
Qed.

(** Past the index [i] the first loop can only set a blocking index
    of at least [i], and it keeps the tasks launched so far. *)
Lemma fanOut_after rest i v v' :
  fanOut settings providerContext rest i v = Normal v' ->
  blockingIndex v = None ->
  (blockingIndex v' = None \/ exists k, blockingIndex v' = Some k /\ i <= k)
  /\ incl (pendingAsync v) (pendingAsync v').
Proof.
  revert i v. induction rest as [|provider rest IH]; intros i v H Hb;
    simpl in H.
  - injection H as <-. split; [now left | apply incl_refl].
  - rewrite Hb in H.
    destruct (getSuggestions_of provider providerContext settings)
      as [r| |r|].
    + destruct (negb (isEmpty (orEmpty r))
                && blocksAllOtherProviders provider).
      * injection H as <-. simpl.
        split; [right; now exists i | apply incl_refl].
      * apply IH in H; [|reflexivity].
        destruct H as [[H | [k [H Hk]]] Hincl]; (split; [|exact Hincl]).
        -- now left.
        -- right. exists k. split; [assumption | lia].
    + discriminate.
    + apply IH in H; [|reflexivity].
      destruct H as [Hk Hincl]. simpl in Hincl. split.
      * destruct Hk as [Hk | [k [Hk Hle]]]; [now left|].
        right. exists k. split; [assumption | lia].
      * eapply incl_tran; [apply incl_appl, incl_refl | exact Hincl].
    + apply IH in H; [|reflexivity].
      destruct H as [Hk Hincl]. simpl in Hincl. split.
      * destruct Hk as [Hk | [k [Hk Hle]]]; [now left|].
        right. exists k. split; [assumption | lia].
      * eapply incl_tran; [apply incl_appl, incl_refl | exact Hincl].
Qed.

(** The first loop reaches a blocking provider that returns something
    when no blocking provider before it does: it stops there when the
    provider is synchronous and launches its task otherwise. *)
Lemma fanOut_reaches i target rest j v v' :
  nth_error PROVIDERS i = Some target ->
  blocksAllOtherProviders target = true ->
  contributes (returned target) <> [] ->
  (forall k provider,
      k < i -> nth_error PROVIDERS k = Some provider ->
      blocksAllOtherProviders provider = true ->
      contributes (returned provider) = []) ->
  j <= i ->
  skipn j PROVIDERS = rest ->
  blockingIndex v = None ->
  fanOut settings providerContext rest j v = Normal v' ->
  blockingIndex v' = Some i \/
  ((blockingIndex v' = None \/ exists k, blockingIndex v' = Some k /\ i <= k)
   /\ exists t, In t (pendingAsync v') /\ task_i t = i
                /\ blocksNonEmpty t = true).
Proof.
  intros Hi Hblocks Hsome Hbelow. revert j v.
  induction rest as [|provider rest IH]; intros j v Hj Hskip Hb.
  - exfalso. assert (Hlen : i < length PROVIDERS).
    { apply nth_error_Some. congruence. }
    assert (Hl : length (skipn j PROVIDERS) = 0) by now rewrite Hskip.
    rewrite length_skipn in Hl. lia.
  - apply skipn_cons_nth in Hskip. destruct Hskip as [Hnth Hskip].
    simpl. rewrite Hb.
    destruct (Nat.eq_dec j i) as [-> | Hne].
    + assert (provider = target) by congruence. subst provider.
      unfold returned in Hsome.
      destruct (getSuggestions_of target providerContext settings)
        as [r| |r|] eqn:Hret; simpl in Hsome; try congruence.
      * rewrite Hblocks.
        destruct (orEmpty r) eqn:Er; [congruence|]. simpl.
        intros H. injection H as <-. now left.
      * intros H. apply fanOut_after in H; [|reflexivity].
        destruct H as [Hk Hincl]. right. split.
        -- destruct Hk as [Hk | [k [Hk Hle]]]; [now left|].
           right. exists k. split; [assumption | lia].
        -- eexists. split; [apply Hincl; simpl; apply in_app_iff; right;
                            left; reflexivity|].
           split; [reflexivity|]. unfold blocksNonEmpty,
             SuggestionPopup.blocksNonEmpty. simpl.
           rewrite Hblocks. destruct (orEmpty r); [congruence|reflexivity].
    + assert (Hlt : j < i) by lia.
      destruct (getSuggestions_of provider providerContext settings)
        as [r| |r|] eqn:Hret.
      * destruct (negb (isEmpty (orEmpty r))
                  && blocksAllOtherProviders provider) eqn:Eb.
        -- exfalso. apply andb_true_iff in Eb. destruct Eb as [Ene Ebl].
           specialize (Hbelow j provider Hlt Hnth Ebl).
           unfold returned in Hbelow. rewrite Hret in Hbelow.
           simpl in Hbelow. now rewrite Hbelow in Ene.
        -- apply IH; [lia | exact Hskip | reflexivity].
      * discriminate.
      * apply IH; [lia | exact Hskip | reflexivity].
      * apply IH; [lia | exact Hskip | reflexivity].
Qed.

Lemma mergeOne_In providerSuggestions acc s :
  In s (snd (mergeOne blacklist_has providerSuggestions acc)) ->
  In s (snd acc) \/ In s providerSuggestions.
Proof.
  revert acc. induction providerSuggestions as [|x l IH]; intros acc; simpl.
  - now left.
  - destruct acc as [seen suggestions].
    destruct (existsb _ seen).
    { intros H. apply IH in H. tauto. }
    destruct (blacklist_has x).
    { intros H. apply IH in H. tauto. }
    intros H. apply IH in H. simpl in H.
    rewrite in_app_iff in H. simpl in H. simpl. intuition.
Qed.

Lemma mergeSlots_In slots acc s :
  In s (snd (mergeSlots blacklist_has slots acc)) ->
  In s (snd acc) \/
  exists j l, nth_error slots j = Some (Some l) /\ In s l.
Proof.
  revert acc. induction slots as [|[l|] slots IH]; intros acc; simpl.
  - now left.
  - intros H. apply IH in H. destruct H as [H | [j [l' [Hj Hin]]]].
    + apply mergeOne_In in H. destruct H as [H | H]; [now left|].
      right. now exists 0, l.
    + right. now exists (S j), l'.
  - intros H. apply IH in H. destruct H as [H | [j [l' [Hj Hin]]]].
    + now left.
    + right. now exists (S j), l'.
Qed.

Lemma nth_error_firstn_Some (A : Type) n (l : list A) j x :
  nth_error (firstn n l) j = Some x -> j < n /\ nth_error l j = Some x.
Proof.
  revert l j. induction n as [|n IH]; intros [|y l] [|j]; simpl;
    try discriminate.
  - intros H. split; [lia | assumption].
  - intros H. apply IH in H. split; [lia | tauto].
Qed.

Lemma orEmpty_merge v :
  orEmpty (merge PROVIDERS blacklist_has v)
  = snd (mergeSlots blacklist_has
           (firstn (Z.to_nat
                      (match blockingIndex v with
                       | Some b => Z.of_nat b
                       | None => Z.of_nat (length PROVIDERS) - 1
                       end + 1))
                   (providerResults v))
           ([], [])).
Proof.
  unfold merge. destruct (snd (mergeSlots _ _ _)); reflexivity.
Qed.

Lemma slotsFaithful_initial n : slotsFaithful (repeat None n).
Proof.
  intros j l H. exfalso. apply nth_error_In, repeat_spec in H. discriminate.
Qed.

(** C4. When the provider at index [i] is flagged
    [blocksAllOtherProviders] and returns (or resolves with) at least
    one suggestion, and no blocking provider before it does, then
    whatever the order in which the launched promises settle, the
    blocking index the merge uses is [i], the lowest among the blocking
    providers that delivered, and every suggestion of the final result
    is among those contributed by a provider at an index up to [i]. *)
Theorem C4_blocking_cutoff
    (start : EditorPosition) (i : nat) (target : SuggestionProvider)
    (out : option (list Suggestion)) :
  nth_error PROVIDERS i = Some target ->
  blocksAllOtherProviders target = true ->
  contributes (getSuggestions_of target providerContext settings) <> [] ->
  (forall k provider,
      k < i -> nth_error PROVIDERS k = Some provider ->
      blocksAllOtherProviders provider = true ->
      contributes (getSuggestions_of provider providerContext settings)
      = []) ->
  getSuggestions PROVIDERS blacklist_has settings schedule
                 providerContext start = Normal out ->
  (exists v,
      fanOut settings providerContext PROVIDERS 0
        {| providerResults := repeat None (length PROVIDERS);
           pendingAsync := [];
           blockingIndex := None;
           context_start := start |} = Normal v /\
      blockingIndex (awaitAllSettled schedule v) = Some i /\
      out = merge PROVIDERS blacklist_has (awaitAllSettled schedule v)) /\
  forall s,
    In s (orEmpty out) ->
    exists j provider,
      j <= i /\ nth_error PROVIDERS j = Some provider /\
      In s (contributes (getSuggestions_of provider providerContext settings)).
Proof.
  intros Hi Hblocks Hsome Hbelow. unfold getSuggestions.
  set (v0 := {| providerResults := repeat None (length PROVIDERS);
                pendingAsync := [];
                blockingIndex := None;
                context_start := start |}).
  destruct (fanOut settings providerContext PROVIDERS 0 v0)
    as [v|] eqn:Hfan; [|discriminate].
  intros H. injection H as <-.
  destruct (fanOut_faithful PROVIDERS 0 v0 v eq_refl
              (slotsFaithful_initial _) (Forall_nil _) Hfan)
    as [Hslots Htasks].
  pose proof (fanOut_reaches i target PROVIDERS 0 v0 v Hi Hblocks Hsome
                Hbelow (Nat.le_0_l i) eq_refl eq_refl Hfan) as Hreach.
  assert (Hsched : Forall taskFaithful (schedule (pendingAsync v))).
  { eapply Permutation_Forall; [|exact Htasks].
    apply Permutation_sym, schedule_perm. }
  assert (Hcut : blockingIndex (awaitAllSettled schedule v) = Some i).
  { rewrite awaitAllSettled_fold. apply callbacks_blockingIndex.
    - intros t Hin Hb. rewrite Forall_forall in Hsched.
      destruct (Hsched t Hin) as [Hnth Hres].
      destruct (le_lt_dec i (task_i t)) as [|Hlt]; [assumption|exfalso].
      unfold blocksNonEmpty, SuggestionPopup.blocksNonEmpty in Hb.
      apply andb_true_iff in Hb. destruct Hb as [Hne Hbl].
      rewrite Hres, (Hbelow _ _ Hlt Hnth Hbl) in Hne. discriminate.
    - destruct Hreach as [-> | [Hk _]]; [|exact Hk].
      right. now exists i.
    - destruct Hreach as [-> | [_ [t [Hin Ht]]]]; [now left|].
      right. exists t. split; [|exact Ht].
      eapply Permutation_in; [apply Permutation_sym, schedule_perm|].
      exact Hin. }
  split; [exists v; now repeat split|].
  intros s Hs. rewrite orEmpty_merge, Hcut in Hs.
  apply mergeSlots_In in Hs. destruct Hs as [[] | [j [l [Hj Hin]]]].
  apply nth_error_firstn_Some in Hj. destruct Hj as [Hlt Hj].
  assert (Hfinal : slotsFaithful
                     (providerResults (awaitAllSettled schedule v))).
  { rewrite awaitAllSettled_fold. now apply callbacks_faithful. }
  destruct (Hfinal j l Hj) as [provider [Hp ->]].
  exists j, provider. repeat split; [lia | assumption | assumption].
Qed.

(** A provider that throws inside the first loop, reached before any
    synchronous blocking provider has delivered, ends the whole query
    with that exception. *)
Lemma fanOut_throws i target rest j v :
  nth_error PROVIDERS i = Some target ->
  getSuggestions_of target providerContext settings = Throws ->
  (forall k provider,
      k < i -> nth_error PROVIDERS k = Some provider ->
      blocksAllOtherProviders provider = true ->
      contributes (returned provider) = []) ->
  j <= i ->
  skipn j PROVIDERS = rest ->
  blockingIndex v = None ->
  fanOut settings providerContext rest j v = Abrupt.
Proof.
  intros Hi Hthrows Hbelow. revert j v.
  induction rest as [|provider rest IH]; intros j v Hj Hskip Hb.
  - exfalso. assert (Hlen : i < length PROVIDERS).
    { apply nth_error_Some. congruence. }
    assert (Hl : length (skipn j PROVIDERS) = 0) by now rewrite Hskip.
    rewrite length_skipn in Hl. lia.
  - apply skipn_cons_nth in Hskip. destruct Hskip as [Hnth Hskip].
    simpl. rewrite Hb.
    destruct (Nat.eq_dec j i) as [-> | Hne].
    + assert (provider = target) by congruence. subst provider.
      now rewrite Hthrows.
    + assert (Hlt : j < i) by lia.
      destruct (getSuggestions_of provider providerContext settings)
        as [r| |r|] eqn:Hret; try reflexivity.
      * destruct (negb (isEmpty (orEmpty r))
                  && blocksAllOtherProviders provider) eqn:Eb.
        -- exfalso. apply andb_true_iff in Eb. destruct Eb as [Ene Ebl].
           specialize (Hbelow j provider Hlt Hnth Ebl).
           unfold returned in Hbelow. rewrite Hret in Hbelow.
           simpl in Hbelow. now rewrite Hbelow in Ene.
        -- apply IH; [lia | exact Hskip | reflexivity].
      * apply IH; [lia | exact Hskip | reflexivity].
      * apply IH; [lia | exact Hskip | reflexivity].
Qed.

(** Without a synchronous exception the query completes. *)
Lemma fanOut_completes rest i v :
  Forall (fun provider =>
            getSuggestions_of provider providerContext settings <> Throws)
         rest ->
  exists v', fanOut settings providerContext rest i v = Normal v'.
Proof.
  intros Hall. revert i v.
  induction Hall as [|provider rest Hp _ IH]; intros i v; simpl.
  - now exists v.
  - destruct (match blockingIndex v with
              | Some b => b <? i
              | None => false
              end); [now exists v|].
    destruct (getSuggestions_of provider providerContext settings)
      as [r| |r|]; try apply IH; [|congruence].
    destruct (negb (isEmpty (orEmpty r))
              && blocksAllOtherProviders provider); [eexists; reflexivity|].
    apply IH.
Qed.

(** C5 holds of the code for promises that reject and fails for
    synchronous exceptions.  The first loop calls
    [provider.getSuggestions] outside any [try]: a provider that throws
    there, reached before a blocking provider has delivered, makes the
    whole query end with the exception, whatever the other providers
    return.  When no provider throws synchronously the query completes,
    and its result holds only what the providers contribute, a provider
    whose promise rejects contributing nothing. *)
Theorem C5_provider_failures (start : EditorPosition) :
  (forall i target,
      nth_error PROVIDERS i = Some target ->
      getSuggestions_of target providerContext settings = Throws ->
      (forall k provider,
          k < i -> nth_error PROVIDERS k = Some provider ->
          blocksAllOtherProviders provider = true ->
          contributes (getSuggestions_of provider providerContext settings)
          = []) ->
      getSuggestions PROVIDERS blacklist_has settings schedule
                     providerContext start = Abrupt) /\
  (Forall (fun provider =>
             getSuggestions_of provider providerContext settings <> Throws)
          PROVIDERS ->
   exists out,
     getSuggestions PROVIDERS blacklist_has settings schedule
                    providerContext start = Normal out /\
     forall s,
       In s (orEmpty out) ->
       exists j provider,
         nth_error PROVIDERS j = Some provider /\
         getSuggestions_of provider providerContext settings
         <> PromiseRejects /\
         In s (contributes
                 (getSuggestions_of provider providerContext settings))).
Proof.
  split.
  - intros i target Hi Hthrows Hbelow. unfold getSuggestions.
    set (v0 := {| providerResults := repeat None (length PROVIDERS);
                  pendingAsync := [];
                  blockingIndex := None;
                  context_start := start |}).
    now rewrite (fanOut_throws i target PROVIDERS 0 v0 Hi Hthrows Hbelow
                   (Nat.le_0_l i) eq_refl eq_refl).
  - intros Hall. unfold getSuggestions.
    set (v0 := {| providerResults := repeat None (length PROVIDERS);
                  pendingAsync := [];
                  blockingIndex := None;
                  context_start := start |}).
    destruct (fanOut_completes PROVIDERS 0 v0 Hall) as [v Hfan].
    rewrite Hfan. eexists. split; [reflexivity|].
    destruct (fanOut_faithful PROVIDERS 0 v0 v eq_refl
                (slotsFaithful_initial _) (Forall_nil _) Hfan)
      as [Hslots Htasks].
    assert (Hfinal : slotsFaithful
                       (providerResults (awaitAllSettled schedule v))).
    { rewrite awaitAllSettled_fold. apply callbacks_faithful; [|assumption].
      eapply Permutation_Forall; [|exact Htasks].
      apply Permutation_sym, schedule_perm. }
    intros s Hs. rewrite orEmpty_merge in Hs.
    apply mergeSlots_In in Hs. destruct Hs as [[] | [j [l [Hj Hin]]]].
    apply nth_error_firstn_Some in Hj. destruct Hj as [_ Hj].
    destruct (Hfinal j l Hj) as [provider [Hp ->]].
    exists j, provider. split; [assumption|]. split; [|assumption].
    intros Hrej. unfold returned in Hin. now rewrite Hrej in Hin.
Qed.

End PopupFacts.

Lemma C5_provider_failures_witness :
  SuggestionPopup.getSuggestions
    [Examples.throwing; Examples.returning ["word"%string] false]
    Examples.nothingBlacklisted Examples.settings (fun tasks => tasks)
    (Examples.typed "a wor" "wor") Examples.origin
  = Abrupt.
Proof.
  apply (proj1 (C5_provider_failures
                  [Examples.throwing; Examples.returning ["word"%string] false]
                  Examples.nothingBlacklisted Examples.settings
                  (fun tasks => tasks) (Examples.typed "a wor" "wor")
                  (fun l => Permutation_refl l) Examples.origin)
           0 Examples.throwing).
  - reflexivity.
  - reflexivity.
  - intros k provider Hk. lia.
Defined.

(** The same provider returning a promise that rejects is contained:
    the query completes with the other provider's [word]. *)
Example rejection_contained :
  SuggestionPopup.getSuggestions
    [Examples.rejecting; Examples.returning ["word"%string] false]
    Examples.nothingBlacklisted Examples.settings (fun tasks => tasks)
    (Examples.typed "a wor" "wor") Examples.origin
  = Normal (Some [Suggestion_fromString (js "word")]).
Proof. reflexivity. Qed.

Lemma C4_blocking_cutoff_witness :
  (exists v,
      SuggestionPopup.fanOut Examples.settings (Examples.typed "a wor" "wor")
        Examples.twoBlockers 0
        {| SuggestionPopup.providerResults := repeat None 4;
           SuggestionPopup.pendingAsync := [];
           SuggestionPopup.blockingIndex := None;
           SuggestionPopup.context_start := Examples.origin |} = Normal v /\
      SuggestionPopup.blockingIndex
        (SuggestionPopup.awaitAllSettled Examples.lastFirst v) = Some 1 /\
      Some (Examples.suggestionsOf ["alpha"%string; "beta"%string])
      = SuggestionPopup.merge Examples.twoBlockers Examples.nothingBlacklisted
          (SuggestionPopup.awaitAllSettled Examples.lastFirst v)) /\
  forall s,
    In s (Examples.suggestionsOf ["alpha"%string; "beta"%string]) ->
    exists j provider,
      j <= 1 /\ nth_error Examples.twoBlockers j = Some provider /\
      In s (SuggestionPopup.contributes
              (SuggestionPopup.getSuggestions_of provider
                 (Examples.typed "a wor" "wor") Examples.settings)).
Proof.
  apply (C4_blocking_cutoff Examples.twoBlockers Examples.nothingBlacklisted
           Examples.settings Examples.lastFirst
           (Examples.typed "a wor" "wor")
           (fun l => Permutation_sym (Permutation_rev l))
           Examples.origin 1 (Examples.resolving ["beta"%string] true)
           (Some (Examples.suggestionsOf ["alpha"%string; "beta"%string]))).
  - reflexivity.
  - reflexivity.
  - discriminate.
  - intros k provider Hk. assert (k = 0) as -> by lia.
    simpl. intros H. injection H as <-. discriminate.
  - reflexivity.
Defined.

(* ================================================================== *)
(** * The suggestion popup: what the merge returns *)
(* ================================================================== *)

Section MergeFacts.
Import SuggestionPopup.

Variable blacklist_has : Suggestion -> bool.

Let kept (s : Suggestion) : bool := negb (blacklist_has s).

Lemma firstByName_app seen l1 l2 :
  firstByName seen (l1 ++ l2)
  = firstByName seen l1
    ++ firstByName (rev (map displayName (firstByName seen l1)) ++ seen) l2.
Proof.
  revert seen. induction l1 as [|s l1 IH]; intros seen; [reflexivity|].
  simpl. destruct (existsb _ seen); [apply IH|].
  simpl. rewrite IH. now rewrite <- app_assoc.
Qed.

(** The inner loop adds the first non-blacklisted suggestion of each
    display name not seen before. *)
Lemma mergeOne_firstByName l seen acc :
  mergeOne blacklist_has l (seen, acc)
  = (rev (map displayName (firstByName seen (filter kept l))) ++ seen,
     acc ++ firstByName seen (filter kept l)).
Proof.
  revert seen acc. induction l as [|s l IH]; intros seen acc.
  - simpl. now rewrite app_nil_r.
  - assert (Hk : kept s = negb (blacklist_has s)) by reflexivity.
    cbn [mergeOne filter]. rewrite Hk.
    destruct (blacklist_has s) eqn:Eb; cbn [negb].
    + destruct (existsb _ seen); apply IH.
    + cbn [firstByName]. destruct (existsb _ seen) eqn:Es; [apply IH|].
      rewrite IH. cbn [map rev]. now rewrite <- !app_assoc.
Qed.

Lemma mergeSlots_firstByName slots seen acc :
  mergeSlots blacklist_has slots (seen, acc)
  = (rev (map displayName
            (firstByName seen (filter kept (concat (map orEmpty slots)))))
     ++ seen,
     acc ++ firstByName seen (filter kept (concat (map orEmpty slots)))).
Proof.
  revert seen acc. induction slots as [|[l|] slots IH]; intros seen acc.
  - simpl. now rewrite app_nil_r.
  - simpl. rewrite mergeOne_firstByName, IH, filter_app, firstByName_app.
    now rewrite map_app, rev_app_distr, <- !app_assoc.
  - simpl. apply IH.
Qed.

Lemma firstByName_fresh seen l s :
  In s (firstByName seen l) -> ~ In (displayName s) seen.
Proof.
  revert seen. induction l as [|x l IH]; intros seen; [intros []|].
  simpl. destruct (existsb _ seen) eqn:Es; [apply IH|].
  intros [<- | Hin].
  - intros Hseen. apply Bool.not_true_iff_false in Es. apply Es.
    apply existsb_exists. exists (displayName x).
    split; [assumption | apply str_eqb_refl].
  - intros Hseen. apply (IH _ Hin). now right.
Qed.

Lemma firstByName_NoDup seen l :
  NoDup (map displayName (firstByName seen l)).
Proof.
  revert seen. induction l as [|x l IH]; intros seen; [constructor|].
  simpl. destruct (existsb _ seen); [apply IH|].
  simpl. constructor; [|apply IH].
  intros Hin. apply in_map_iff in Hin. destruct Hin as [s [Hs Hin]].
  apply firstByName_fresh in Hin. apply Hin. left. now symmetry.
Qed.

Lemma firstByName_incl seen l s : In s (firstByName seen l) -> In s l.
Proof.
  revert seen. induction l as [|x l IH]; intros seen; [intros []|].
  simpl. destruct (existsb _ seen).
  - intros H. right. now apply (IH seen).
  - intros [<- | H]; [now left | right; now apply (IH _ H)].
Qed.

(** The first suggestion of a display name that is not seen is kept. *)
Lemma firstByName_first seen before s after :
  ~ In (displayName s) seen ->
  (forall x, In x before -> displayName x <> displayName s) ->
  In s (firstByName seen (before ++ s :: after)).
Proof.
  revert seen. induction before as [|x before IH]; intros seen Hseen Hbefore.
  - simpl. destruct (existsb _ seen) eqn:Es; [|now left].
    exfalso. apply existsb_exists in Es. destruct Es as [n [Hn E]].
    apply str_eqb_eq in E. now subst n.
  - simpl. destruct (existsb _ seen).
    + apply IH; [assumption|]. intros y Hy. apply Hbefore. now right.
    + right. apply IH.
      * intros [E | Hin]; [|contradiction].
        apply (Hbefore x); [now left | assumption].
      * intros y Hy. apply Hbefore. now right.
Qed.

End MergeFacts.

Section PopupResult.
Import SuggestionPopup.

Variable PROVIDERS : list SuggestionProvider.
Variable blacklist_has : Suggestion -> bool.
Variable settings : CompletrSettings.
Variable providerContext : SuggestionContext.

(** What a provider contributes to the query. *)
Let offered (provider : SuggestionProvider) : list Suggestion :=
  contributes (getSuggestions_of provider providerContext settings).

(** Up to [n], every slot is filled or belongs to a launched task. *)
Let filledUpTo (n : nat) (v : Locals) : Prop :=
  forall j, j < n ->
    (exists l, nth_error (providerResults v) j = Some (Some l)) \/
    (exists t, In t (pendingAsync v) /\ task_i t = j).

Let initialLocals (start : EditorPosition) : Locals :=
  {| providerResults := repeat None (length PROVIDERS);
     pendingAsync := [];
     blockingIndex := None;
     context_start := start |}.

Lemma merge_merged v :
  merge PROVIDERS blacklist_has v
  = merged blacklist_has
      (map orEmpty
         (firstn (Z.to_nat
                    (match blockingIndex v with
                     | Some b => Z.of_nat b
                     | None => Z.of_nat (length PROVIDERS) - 1
                     end + 1))
                 (providerResults v))).
Proof.
  unfold merge, merged. cbv zeta. rewrite mergeSlots_firstByName.
  cbn [snd app]. now destruct (firstByName _ _).
Qed.

Lemma nth_error_setIndex_keep slots i results j x :
  j <> i ->
  nth_error slots j = Some x ->
  nth_error (setIndex slots i results) j = Some x.
Proof.
  revert slots j. induction i as [|i IH]; intros [|y slots] [|j] Hne;
    simpl; try congruence; try (now destruct j); apply IH; congruence.
Qed.

Lemma setIndex_filled slots i results j :
  (exists l, nth_error slots j = Some (Some l)) ->
  exists l, nth_error (setIndex slots i results) j = Some (Some l).
Proof.
  intros [l Hl]. destruct (Nat.eq_dec j i) as [->|Hne].
  - exists results. apply nth_error_setIndex_same.
  - exists l. now apply nth_error_setIndex_keep.
Qed.

Lemma taskCallback_providerResults v t :
  providerResults (taskCallback v t)
  = setIndex (providerResults v) (task_i t)
             (settledResults (task_settles t)).
Proof.
  unfold taskCallback. destruct (negb (isEmpty _) && _); reflexivity.
Qed.

(** Where the first loop ends, every slot it passed is filled or awaits
    its task. *)
Lemma fanOut_fills rest j v v' :
  skipn j PROVIDERS = rest ->
  blockingIndex v = None ->
  filledUpTo j v ->
  fanOut settings providerContext rest j v = Normal v' ->
  (blockingIndex v' = None /\ filledUpTo (length PROVIDERS) v') \/
  (exists k, blockingIndex v' = Some k /\ filledUpTo (S k) v').
Proof.
  revert j v. induction rest as [|provider rest IH]; intros j v Hskip Hb Hf.
  - simpl. intros H. injection H as <-. left. split; [exact Hb|].
    intros k Hk. apply Hf.
    assert (Hl : length (skipn j PROVIDERS) = 0) by now rewrite Hskip.
    rewrite length_skipn in Hl. lia.
  - apply skipn_cons_nth in Hskip. destruct Hskip as [Hnth Hskip].
    simpl. rewrite Hb.
    assert (Hstored :
              forall results tasks b start,
                incl (pendingAsync v) tasks ->
                ((exists l, nth_error results j = Some (Some l)) \/
                 (exists t, In t tasks /\ task_i t = j)) ->
                (forall k, (exists l, nth_error (providerResults v) k
                                      = Some (Some l)) ->
                           exists l, nth_error results k = Some (Some l)) ->
                filledUpTo (S j)
                  {| providerResults := results; pendingAsync := tasks;
                     blockingIndex := b; context_start := start |}).
    { intros results tasks b start Hincl Hj Hkeep k Hk. simpl.
      destruct (Nat.eq_dec k j) as [->|Hne]; [exact Hj|].
      destruct (Hf k ltac:(lia)) as [Hl | [t [Hin Ht]]].
      - left. now apply Hkeep.
      - right. exists t. split; [now apply Hincl | exact Ht]. }
    destruct (getSuggestions_of provider providerContext settings)
      as [r| |r|].
    + assert (Hfilled :
                forall b start,
                  filledUpTo (S j)
                    {| providerResults :=
                         setIndex (providerResults v) j (orEmpty r);
                       pendingAsync := pendingAsync v;
                       blockingIndex := b; context_start := start |}).
      { intros b start. apply Hstored.
        - apply incl_refl.
        - left. eexists. apply nth_error_setIndex_same.
        - intros k. apply setIndex_filled. }
      destruct (negb (isEmpty (orEmpty r))
                && blocksAllOtherProviders provider).
      * intros H. injection H as <-. right. exists j.
        split; [reflexivity | apply Hfilled].
      * apply IH; [exact Hskip | reflexivity | apply Hfilled].
    + discriminate.
    + apply IH; [exact Hskip | reflexivity |]. apply Hstored.
      * apply incl_appl, incl_refl.
      * right. eexists. split; [apply in_app_iff; right; left; reflexivity|].
        reflexivity.
      * auto.
    + apply IH; [exact Hskip | reflexivity |]. apply Hstored.
      * apply incl_appl, incl_refl.
      * right. eexists. split; [apply in_app_iff; right; left; reflexivity|].
        reflexivity.
      * auto.
Qed.

(** Once the callbacks have run, the slot of every task is filled. *)
Lemma callbacks_fill tasks v j :
  (exists l, nth_error (providerResults v) j = Some (Some l)) \/
  (exists t, In t tasks /\ task_i t = j) ->
  exists l,
    nth_error (providerResults (fold_left taskCallback tasks v)) j
    = Some (Some l).
Proof.
  revert v. induction tasks as [|t tasks IH]; intros v H.
  - destruct H as [H | [t [[] _]]]. exact H.
  - simpl. apply IH. rewrite taskCallback_providerResults.
    destruct H as [H | [t' [[<- | Hin] Ht]]].
    + left. now apply setIndex_filled.
    + left. subst j. eexists. apply nth_error_setIndex_same.
    + right. now exists t'.
Qed.

(** No blocking provider delivers: the first loop sets no cutoff. *)
Lemma fanOut_no_cutoff rest j v v' :
  (forall provider,
      In provider rest ->
      blocksAllOtherProviders provider = true -> offered provider = []) ->
  blockingIndex v = None ->
  fanOut settings providerContext rest j v = Normal v' ->
  blockingIndex v' = None.
Proof.
  revert j v. induction rest as [|provider rest IH]; intros j v Hnone Hb.
  - simpl. intros H. now injection H as <-.
  - simpl. rewrite Hb.
    assert (Hrest : forall p, In p rest ->
                      blocksAllOtherProviders p = true -> offered p = [])
      by (intros p Hp; apply Hnone; now right).
    pose proof (Hnone provider (or_introl eq_refl)) as Hp.
    unfold offered in Hp.
    destruct (getSuggestions_of provider providerContext settings)
      as [r| |r|]; try discriminate; try (now apply IH).
    destruct (negb (isEmpty (orEmpty r)) && blocksAllOtherProviders provider)
      eqn:Eb; [|now apply IH].
    apply andb_true_iff in Eb. destruct Eb as [Ene Ebl].
    simpl in Hp. rewrite (Hp Ebl) in Ene. discriminate.
Qed.

Lemma callbacks_no_cutoff tasks v :
  (forall t, In t tasks -> blocksNonEmpty t = false) ->
  blockingIndex (fold_left taskCallback tasks v) = blockingIndex v.
Proof.
  revert v. induction tasks as [|t tasks IH]; intros v Hnone; [reflexivity|].
  simpl. rewrite IH by (intros t' Ht'; apply Hnone; now right).
  rewrite taskCallback_blockingIndex.
  now rewrite (Hnone t (or_introl eq_refl)).
Qed.

(** Slots that are filled and faithful up to [n] are the contributions
    of the first [n] providers. *)
Lemma firstn_slots n slots :
  n <= length PROVIDERS ->
  (forall j, j < n -> exists l, nth_error slots j = Some (Some l)) ->
  slotsFaithful PROVIDERS settings providerContext slots ->
  map orEmpty (firstn n slots) = map offered (firstn n PROVIDERS).
Proof.
  intros Hn Hfilled Hfaithful. apply nth_error_ext. intros k.
  rewrite !nth_error_map, !nth_error_firstn.
  destruct (Nat.ltb_spec k n) as [Hk|Hk]; [|reflexivity].
  destruct (Hfilled k Hk) as [l Hl]. rewrite Hl.
  destruct (Hfaithful k l Hl) as [provider [Hp ->]]. now rewrite Hp.
Qed.

Section Scheduled.
Variable schedule : list Task -> list Task.
Hypothesis schedule_perm : forall l, Permutation (schedule l) l.

(** After the await, the slots up to the end of the first loop hold the
    contributions of their providers. *)
Lemma settled_slots start v n :
  fanOut settings providerContext PROVIDERS 0 (initialLocals start)
  = Normal v ->
  n <= length PROVIDERS ->
  (blockingIndex v = None \/ exists k, blockingIndex v = Some k /\ n <= S k) ->
  map orEmpty (firstn n (providerResults (awaitAllSettled schedule v)))
  = map offered (firstn n PROVIDERS).
Proof.
  intros Hfan Hn Hreach.
  destruct (fanOut_faithful PROVIDERS settings providerContext
              PROVIDERS 0 (initialLocals start) v eq_refl
              (slotsFaithful_initial PROVIDERS settings providerContext _)
              (Forall_nil _) Hfan)
    as [Hslots Htasks].
  assert (Hsched : Forall (taskFaithful PROVIDERS settings providerContext)
                          (schedule (pendingAsync v))).
  { eapply Permutation_Forall; [|exact Htasks].
    apply Permutation_sym, schedule_perm. }
  rewrite (awaitAllSettled_fold schedule schedule_perm).
  apply firstn_slots; [exact Hn | | now apply callbacks_faithful].
  intros j Hj. apply callbacks_fill.
  assert (Hfilled : filledUpTo n v).
  { destruct (fanOut_fills PROVIDERS 0 (initialLocals start) v eq_refl
                eq_refl) as [[Hb Hf] | [k [Hb Hf]]];
      [intros k Hk; lia | exact Hfan | |].
    - intros k Hk. apply Hf. lia.
    - intros k' Hk'. apply Hf.
      destruct Hreach as [Hnone | [k0 [Hk0 Hle]]]; [congruence|].
      assert (k0 = k) by congruence. subst k0. lia. }
  destruct (Hfilled j Hj) as [Hl | [t [Hin Ht]]]; [now left|].
  right. exists t. split; [|exact Ht].
  eapply Permutation_in; [apply Permutation_sym, schedule_perm | exact Hin].
Qed.

(** The cutoff after the await is the index of the first blocking
    provider that delivers. *)
Lemma cutoff_first_blocker start v i target :
  nth_error PROVIDERS i = Some target ->
  blocksAllOtherProviders target = true ->
  offered target <> [] ->
  (forall k provider,
      k < i -> nth_error PROVIDERS k = Some provider ->
      blocksAllOtherProviders provider = true -> offered provider = []) ->
  fanOut settings providerContext PROVIDERS 0 (initialLocals start)
  = Normal v ->
  blockingIndex (awaitAllSettled schedule v) = Some i /\
  (blockingIndex v = None \/ exists k, blockingIndex v = Some k /\ i <= k).
Proof.
  intros Hi Hblocks Hsome Hbelow Hfan.
  destruct (fanOut_faithful PROVIDERS settings providerContext
              PROVIDERS 0 (initialLocals start) v eq_refl
              (slotsFaithful_initial PROVIDERS settings providerContext _)
              (Forall_nil _) Hfan)
    as [Hslots Htasks].
  pose proof (fanOut_reaches PROVIDERS settings providerContext i target
                PROVIDERS 0 (initialLocals start) v Hi Hblocks Hsome
                Hbelow (Nat.le_0_l i) eq_refl eq_refl Hfan) as Hreach.
  assert (Hsched : Forall (taskFaithful PROVIDERS settings providerContext)
                          (schedule (pendingAsync v))).
  { eapply Permutation_Forall; [|exact Htasks].
    apply Permutation_sym, schedule_perm. }
  split.
  - rewrite (awaitAllSettled_fold schedule schedule_perm).
    apply callbacks_blockingIndex.
    + intros t Hin Hb. rewrite Forall_forall in Hsched.
      destruct (Hsched t Hin) as [Hnth Hres].
      destruct (le_lt_dec i (task_i t)) as [|Hlt]; [assumption|exfalso].
      unfold blocksNonEmpty in Hb.
      apply andb_true_iff in Hb. destruct Hb as [Hne Hbl].
      pose proof (Hbelow _ _ Hlt Hnth Hbl) as Hempty. unfold offered in Hempty.
      rewrite Hres, Hempty in Hne. discriminate.
    + destruct Hreach as [-> | [Hk _]]; [|exact Hk].
      right. now exists i.
    + destruct Hreach as [-> | [_ [t [Hin Ht]]]]; [now left|].
      right. exists t. split; [|exact Ht].
      eapply Permutation_in; [apply Permutation_sym, schedule_perm|].
      exact Hin.
  - destruct Hreach as [-> | [Hk _]]; [|exact Hk].
    right. now exists i.
Qed.

Lemma merge_up_to_blocker start v i target :
  nth_error PROVIDERS i = Some target ->
  blocksAllOtherProviders target = true ->
  offered target <> [] ->
  (forall k provider,
      k < i -> nth_error PROVIDERS k = Some provider ->
      blocksAllOtherProviders provider = true -> offered provider = []) ->
  fanOut settings providerContext PROVIDERS 0 (initialLocals start)
  = Normal v ->
  merge PROVIDERS blacklist_has (awaitAllSettled schedule v)
  = merged blacklist_has (map offered (firstn (S i) PROVIDERS)).
Proof.
  intros Hi Hblocks Hsome Hbelow Hfan.
  destruct (cutoff_first_blocker start v i target Hi Hblocks Hsome Hbelow
              Hfan) as [Hcut Hreach].
  rewrite merge_merged, Hcut.
  replace (Z.to_nat (Z.of_nat i + 1)) with (S i) by lia.
  f_equal. apply (settled_slots start); [exact Hfan | |].
  - assert (i < length PROVIDERS) by (apply nth_error_Some; congruence). lia.
  - destruct Hreach as [H | [k [H Hk]]]; [now left|].
    right. exists k. split; [exact H | lia].
Qed.

Lemma merge_without_blocker start v :
  (forall provider,
      In provider PROVIDERS ->
      blocksAllOtherProviders provider = true -> offered provider = []) ->
  fanOut settings providerContext PROVIDERS 0 (initialLocals start)
  = Normal v ->
  merge PROVIDERS blacklist_has (awaitAllSettled schedule v)
  = merged blacklist_has (map offered PROVIDERS).
Proof.
  intros Hnone Hfan.
  assert (Hb : blockingIndex v = None)
    by (eapply fanOut_no_cutoff; [exact Hnone | | exact Hfan]; reflexivity).
  destruct (fanOut_faithful PROVIDERS settings providerContext
              PROVIDERS 0 (initialLocals start) v eq_refl
              (slotsFaithful_initial PROVIDERS settings providerContext _)
              (Forall_nil _) Hfan)
    as [Hslots Htasks].
  assert (Hcut : blockingIndex (awaitAllSettled schedule v) = None).
  { rewrite (awaitAllSettled_fold schedule schedule_perm).
    rewrite callbacks_no_cutoff; [exact Hb|].
    intros t Hin.
    assert (Ht : taskFaithful PROVIDERS settings providerContext t).
    { rewrite Forall_forall in Htasks. apply Htasks.
      eapply Permutation_in; [apply schedule_perm | exact Hin]. }
    destruct Ht as [Hnth Hres]. unfold blocksNonEmpty.
    destruct (blocksAllOtherProviders (task_provider t)) eqn:Ebl;
      [|apply andb_false_r].
    apply nth_error_In in Hnth.
    pose proof (Hnone _ Hnth Ebl) as Hempty. unfold offered in Hempty.
    now rewrite Hres, Hempty. }
  rewrite merge_merged, Hcut.
  replace (Z.to_nat (Z.of_nat (length PROVIDERS) - 1 + 1))
    with (length PROVIDERS) by lia.
  f_equal. rewrite (settled_slots start v (length PROVIDERS) Hfan);
    [now rewrite firstn_all | lia | now left].
Qed.

End Scheduled.

End PopupResult.

Section PopupProperties.
Import SuggestionPopup.

Variable PROVIDERS : list SuggestionProvider.
Variable blacklist_has : Suggestion -> bool.
Variable settings : CompletrSettings.
Variable providerContext : SuggestionContext.

Let offered (provider : SuggestionProvider) : list Suggestion :=
  contributes (getSuggestions_of provider providerContext settings).

Let initialLocals (start : EditorPosition) : Locals :=
  {| providerResults := repeat None (length PROVIDERS);
     pendingAsync := [];
     blockingIndex := None;
     context_start := start |}.

(** Either no blocking provider delivers, or there is a first one. *)
Lemma first_blocker (providers : list SuggestionProvider) :
  (forall provider,
      In provider providers ->
      blocksAllOtherProviders provider = true -> offered provider = []) \/
  exists i target,
    nth_error providers i = Some target /\
    blocksAllOtherProviders target = true /\
    offered target <> [] /\
    forall k provider,
      k < i -> nth_error providers k = Some provider ->
      blocksAllOtherProviders provider = true -> offered provider = [].
Proof.
  induction providers as [|p providers IH].
  - left. intros provider [].
  - destruct (blocksAllOtherProviders p) eqn:Eb.
    + destruct (offered p) as [|x l] eqn:Eo.
      * destruct IH as [IH | [i [target (Hi & Hb & Ho & Hbelow)]]].
        -- left. intros provider [<- | Hin] Hbl; [exact Eo | now apply IH].
        -- right. exists (S i), target. repeat split; try assumption.
           intros [|k] provider Hk; simpl.
           ++ intros H. injection H as <-. intros _. exact Eo.
           ++ apply Hbelow. lia.
      * right. exists 0, p. repeat split; try assumption.
        -- rewrite Eo. discriminate.
        -- intros k provider Hk. lia.
    + destruct IH as [IH | [i [target (Hi & Hb & Ho & Hbelow)]]].
      * left. intros provider [<- | Hin] Hbl; [congruence | now apply IH].
      * right. exists (S i), target. repeat split; try assumption.
        intros [|k] provider Hk; simpl.
        -- intros H. injection H as <-. congruence.
        -- apply Hbelow. lia.
Qed.

(** The first loop stops at a synchronous blocking provider that
    delivers, when the providers before it neither throw nor block. *)
Lemma fanOut_stops i target rest j v :
  nth_error PROVIDERS i = Some target ->
  blocksAllOtherProviders target = true ->
  (exists x l,
      getSuggestions_of target providerContext settings
      = Returns (Some (x :: l))) ->
  (forall k provider,
      k < i -> nth_error PROVIDERS k = Some provider ->
      getSuggestions_of provider providerContext settings <> Throws /\
      (blocksAllOtherProviders provider = true -> offered provider = [])) ->
  j <= i ->
  skipn j PROVIDERS = rest ->
  blockingIndex v = None ->
  exists v', fanOut settings providerContext rest j v = Normal v'.
Proof.
  intros Hi Hblocks [x [l Hret]] Hbelow. revert j v.
  induction rest as [|provider rest IH]; intros j v Hj Hskip Hb.
  - now exists v.
  - apply skipn_cons_nth in Hskip. destruct Hskip as [Hnth Hskip].
    simpl. rewrite Hb.
    destruct (Nat.eq_dec j i) as [-> | Hne].
    + assert (provider = target) by congruence. subst provider.
      rewrite Hret, Hblocks. simpl. eexists. reflexivity.
    + assert (Hlt : j < i) by lia.
      destruct (Hbelow j provider Hlt Hnth) as [Hthrow Hempty].
      unfold offered in Hempty.
      destruct (getSuggestions_of provider providerContext settings)
        as [r| |r|]; try congruence;
        try (apply IH; [lia | exact Hskip | reflexivity]).
      destruct (negb (isEmpty (orEmpty r))
                && blocksAllOtherProviders provider) eqn:Eb.
      * eexists. reflexivity.
      * apply IH; [lia | exact Hskip | reflexivity].
Qed.

Lemma NoDup_map_eq (A C : Type) (f : A -> C) (l : list A) (a b : A) :
  NoDup (map f l) -> In a l -> In b l -> f a = f b -> a = b.
Proof.
  induction l as [|x l IH]; [intros _ []|].
  simpl. intros Hnd. inversion Hnd as [|? ? Hnot Hnd']; subst.
  intros [<- | Ha] [<- | Hb] E; try reflexivity.
  - exfalso. apply Hnot. rewrite E. now apply in_map.
  - exfalso. apply Hnot. rewrite <- E. now apply in_map.
  - now apply IH.
Qed.

Lemma merged_distinct (contributions : list (list Suggestion)) :
  merged blacklist_has contributions <> Some [] /\
  NoDup (map displayName (orEmpty (merged blacklist_has contributions))) /\
  forall s,
    In s (orEmpty (merged blacklist_has contributions)) ->
    blacklist_has s = false /\
    exists l, In l contributions /\ In s l.
Proof.
  unfold merged.
  set (candidates := filter _ (concat contributions)).
  pose proof (firstByName_NoDup [] candidates) as Hnd.
  pose proof (fun s => firstByName_incl [] candidates s) as Hincl.
  destruct (firstByName [] candidates) as [|x l] eqn:E.
  - split; [discriminate|]. split; [constructor | intros s []].
  - split; [discriminate|]. split; [exact Hnd|].
    simpl orEmpty. intros s Hs. apply Hincl in Hs.
    apply filter_In in Hs. destruct Hs as [Hin Hk].
    split; [now apply negb_true_iff in Hk|].
    now apply in_concat in Hin.
Qed.

(** In the merge, the first non-blacklisted suggestion of a display name
    is kept, and it is the only one of that name. *)
Lemma merged_first_wins (contributions : list (list Suggestion)) j
    before s after :
  nth_error contributions j = Some (before ++ s :: after) ->
  blacklist_has s = false ->
  (forall x,
      In x before -> blacklist_has x = false ->
      displayName x <> displayName s) ->
  (forall k l x,
      k < j -> nth_error contributions k = Some l -> In x l ->
      blacklist_has x = false -> displayName x <> displayName s) ->
  exists out,
    merged blacklist_has contributions = Some out /\
    In s out /\
    forall s', In s' out -> displayName s' = displayName s -> s' = s.
Proof.
  intros Hj Hs Hbefore Hearlier.
  destruct (nth_error_split contributions j Hj) as [l1 [l2 [Hsplit Hlen]]].
  assert (Hin : In s (firstByName []
                        (filter (fun s => negb (blacklist_has s))
                                (concat contributions)))).
  { rewrite Hsplit, concat_app. simpl concat.
    rewrite <- !app_assoc. simpl app. rewrite app_assoc, filter_app.
    simpl filter. rewrite Hs. simpl negb. cbv iota.
    apply firstByName_first; [intros []|].
    intros x Hx. apply filter_In in Hx. destruct Hx as [Hx Hk].
    apply negb_true_iff in Hk. apply in_app_iff in Hx.
    destruct Hx as [Hx | Hx]; [|now apply Hbefore].
    apply in_concat in Hx. destruct Hx as [l [Hl Hxl]].
    apply In_nth_error in Hl. destruct Hl as [k Hk1].
    assert (Hlt : k < j).
    { rewrite <- Hlen. apply nth_error_Some. congruence. }
    apply (Hearlier k l x Hlt); try assumption.
    rewrite Hsplit, nth_error_app1 by lia. exact Hk1. }
  destruct (merged_distinct contributions) as (_ & Hnd & _).
  unfold merged in *.
  destruct (firstByName [] _) as [|y out] eqn:E; [destruct Hin|].
  exists (y :: out). split; [reflexivity|]. split; [exact Hin|].
  intros s' Hs' Hname. simpl orEmpty in Hnd.
  now apply (NoDup_map_eq _ _ displayName (y :: out)).
Qed.

(** X6.  With a blocking provider at index [i] that returns or resolves
    with at least one suggestion, and no blocking provider before it
    that does, a query that completes returns the merge of what the
    providers at the indices 0 to [i] contribute: their suggestions in
    priority order, without the blacklisted ones and with the first
    suggestion of each display name only.  Nothing a provider behind
    [i] returns is shown, whatever the order in which the promises
    settle. *)
Theorem popup_result_up_to_blocker
    (schedule : list Task -> list Task) (start : EditorPosition) (i : nat)
    (target : SuggestionProvider) (out : option (list Suggestion)) :
  (forall l, Permutation (schedule l) l) ->
  nth_error PROVIDERS i = Some target ->
  blocksAllOtherProviders target = true ->
  contributes (getSuggestions_of target providerContext settings) <> [] ->
  (forall k provider,
      k < i -> nth_error PROVIDERS k = Some provider ->
      blocksAllOtherProviders provider = true ->
      contributes (getSuggestions_of provider providerContext settings)
      = []) ->
  getSuggestions PROVIDERS blacklist_has settings schedule
                 providerContext start = Normal out ->
  out = merged blacklist_has
          (map (fun provider =>
                  contributes
                    (getSuggestions_of provider providerContext settings))
               (firstn (S i) PROVIDERS)).
Proof.
  intros Hperm Hi Hblocks Hsome Hbelow. unfold getSuggestions.
  destruct (fanOut settings providerContext PROVIDERS 0 _) as [v|] eqn:Hfan;
    [|discriminate].
  intros H. injection H as <-.
  now apply (merge_up_to_blocker PROVIDERS blacklist_has settings
               providerContext schedule Hperm start v i target).
Qed.

(** X7.  When no provider throws and no blocking provider returns or
    resolves with a suggestion, the query returns the merge of what all
    the providers contribute, in priority order; a provider whose
    promise rejects or that returns [null] contributes nothing. *)
Theorem popup_result_without_blocker
    (schedule : list Task -> list Task) (start : EditorPosition) :
  (forall l, Permutation (schedule l) l) ->
  Forall (fun provider =>
            getSuggestions_of provider providerContext settings <> Throws)
         PROVIDERS ->
  (forall provider,
      In provider PROVIDERS ->
      blocksAllOtherProviders provider = true ->
      contributes (getSuggestions_of provider providerContext settings)
      = []) ->
  getSuggestions PROVIDERS blacklist_has settings schedule
                 providerContext start
  = Normal (merged blacklist_has
              (map (fun provider =>
                      contributes
                        (getSuggestions_of provider providerContext settings))
                   PROVIDERS)).
Proof.
  intros Hperm Hall Hnone. unfold getSuggestions.
  destruct (fanOut_completes settings providerContext PROVIDERS 0
              (initialLocals start) Hall) as [v Hfan].
  unfold initialLocals in Hfan. rewrite Hfan. f_equal.
  now apply (merge_without_blocker PROVIDERS blacklist_has settings
               providerContext schedule Hperm start v).
Qed.

(** X8.  The result of a query does not depend on the order in which the
    promises of the asynchronous providers settle. *)
Theorem popup_result_schedule_independent
    (schedule1 schedule2 : list Task -> list Task) (start : EditorPosition) :
  (forall l, Permutation (schedule1 l) l) ->
  (forall l, Permutation (schedule2 l) l) ->
  getSuggestions PROVIDERS blacklist_has settings schedule1
                 providerContext start
  = getSuggestions PROVIDERS blacklist_has settings schedule2
                   providerContext start.
Proof.
  intros Hperm1 Hperm2. unfold getSuggestions.
  destruct (fanOut settings providerContext PROVIDERS 0 _) as [v|] eqn:Hfan;
    [|reflexivity].
  f_equal.
  destruct (first_blocker PROVIDERS)
    as [Hnone | [i [target (Hi & Hb & Ho & Hbelow)]]].
  - rewrite (merge_without_blocker PROVIDERS blacklist_has settings
               providerContext schedule1 Hperm1 start v Hnone Hfan).
    now rewrite (merge_without_blocker PROVIDERS blacklist_has settings
                   providerContext schedule2 Hperm2 start v Hnone Hfan).
  - rewrite (merge_up_to_blocker PROVIDERS blacklist_has settings
               providerContext schedule1 Hperm1 start v i target
               Hi Hb Ho Hbelow Hfan).
    now rewrite (merge_up_to_blocker PROVIDERS blacklist_has settings
                   providerContext schedule2 Hperm2 start v i target
                   Hi Hb Ho Hbelow Hfan).
Qed.

(** X9.  A query that completes returns [null] rather than an empty array,
    never two suggestions with the same display name and never a
    blacklisted suggestion. *)
Theorem popup_result_distinct_names
    (schedule : list Task -> list Task) (start : EditorPosition)
    (out : option (list Suggestion)) :
  getSuggestions PROVIDERS blacklist_has settings schedule
                 providerContext start = Normal out ->
  out <> Some [] /\
  NoDup (map displayName (orEmpty out)) /\
  forall s, In s (orEmpty out) -> blacklist_has s = false.
Proof.
  unfold getSuggestions.
  destruct (fanOut settings providerContext PROVIDERS 0 _) as [v|];
    [|discriminate].
  intros H. injection H as <-. rewrite merge_merged.
  destruct (merged_distinct
              (map orEmpty
                 (firstn (Z.to_nat
                            (match blockingIndex
                                     (awaitAllSettled schedule v) with
                             | Some b => Z.of_nat b
                             | None => Z.of_nat (length PROVIDERS) - 1
                             end + 1))
                         (providerResults (awaitAllSettled schedule v)))))
    as (Hne & Hnd & Hin).
  split; [exact Hne|]. split; [exact Hnd|].
  intros s Hs. now apply Hin.
Qed.

(** X10.  A synchronous blocking provider that returns at least one
    suggestion ends the first loop: when the providers before it
    neither throw nor block with a suggestion, the query completes with
    the merge of the contributions up to that provider, even if a
    provider behind it would throw. *)
Theorem popup_sync_blocker_short_circuits
    (schedule : list Task -> list Task) (start : EditorPosition) (i : nat)
    (target : SuggestionProvider) (x : Suggestion) (l : list Suggestion) :
  (forall tasks, Permutation (schedule tasks) tasks) ->
  nth_error PROVIDERS i = Some target ->
  blocksAllOtherProviders target = true ->
  getSuggestions_of target providerContext settings
  = Returns (Some (x :: l)) ->
  (forall k provider,
      k < i -> nth_error PROVIDERS k = Some provider ->
      getSuggestions_of provider providerContext settings <> Throws /\
      (blocksAllOtherProviders provider = true ->
       contributes (getSuggestions_of provider providerContext settings)
       = [])) ->
  getSuggestions PROVIDERS blacklist_has settings schedule
                 providerContext start
  = Normal (merged blacklist_has
              (map (fun provider =>
                      contributes
                        (getSuggestions_of provider providerContext settings))
                   (firstn (S i) PROVIDERS))).
Proof.
  intros Hperm Hi Hblocks Hret Hbelow. unfold getSuggestions.
  destruct (fanOut_stops i target PROVIDERS 0 (initialLocals start)
              Hi Hblocks (ex_intro _ x (ex_intro _ l Hret)) Hbelow
              (Nat.le_0_l i) eq_refl eq_refl) as [v Hfan].
  unfold initialLocals in Hfan. rewrite Hfan. f_equal.
  apply (merge_up_to_blocker PROVIDERS blacklist_has settings
           providerContext schedule Hperm start v i target);
    try assumption.
  - rewrite Hret. discriminate.
  - intros k provider Hk Hnth. exact (proj2 (Hbelow k provider Hk Hnth)).
Qed.

(** X11.  When two providers offer suggestions with the same display name, the
    one shown is that of the provider earlier in [PROVIDERS]: with no
    provider throwing and no blocking provider delivering, a
    non-blacklisted suggestion that is the first of its display name,
    among the non-blacklisted suggestions of the providers up to its own,
    is in the result, and no other suggestion of that name is. *)
Theorem popup_higher_priority_wins
    (schedule : list Task -> list Task) (start : EditorPosition) (j : nat)
    (provider : SuggestionProvider) (before after : list Suggestion)
    (s : Suggestion) :
  (forall tasks, Permutation (schedule tasks) tasks) ->
  Forall (fun provider =>
            getSuggestions_of provider providerContext settings <> Throws)
         PROVIDERS ->
  (forall provider,
      In provider PROVIDERS ->
      blocksAllOtherProviders provider = true ->
      contributes (getSuggestions_of provider providerContext settings)
      = []) ->
  nth_error PROVIDERS j = Some provider ->
  contributes (getSuggestions_of provider providerContext settings)
  = before ++ s :: after ->
  blacklist_has s = false ->
  (forall x,
      In x before -> blacklist_has x = false ->
      displayName x <> displayName s) ->
  (forall k earlier x,
      k < j -> nth_error PROVIDERS k = Some earlier ->
      In x (contributes
              (getSuggestions_of earlier providerContext settings)) ->
      blacklist_has x = false -> displayName x <> displayName s) ->
  exists out,
    getSuggestions PROVIDERS blacklist_has settings schedule
                   providerContext start = Normal (Some out) /\
    In s out /\
    forall s', In s' out -> displayName s' = displayName s -> s' = s.
Proof.
  intros Hperm Hall Hnone Hj Hoffer Hs Hbefore Hearlier.
  unfold getSuggestions.
  destruct (fanOut_completes settings providerContext PROVIDERS 0
              (initialLocals start) Hall) as [v Hfan].
  unfold initialLocals in Hfan. rewrite Hfan.
  rewrite (merge_without_blocker PROVIDERS blacklist_has settings
             providerContext schedule Hperm start v Hnone Hfan).
  destruct (merged_first_wins (map offered PROVIDERS) j before s after)
    as [out (Hout & Hin & Huniq)].
  - rewrite nth_error_map, Hj. simpl. unfold offered. now rewrite Hoffer.
  - exact Hs.
  - exact Hbefore.
  - intros k l x Hk Hl. rewrite nth_error_map in Hl.
    destruct (nth_error PROVIDERS k) as [earlier|] eqn:Ek; [|discriminate].
    injection Hl as <-. now apply (Hearlier k earlier).
  - exists out. unfold offered in Hout. rewrite Hout. now repeat split.
Qed.

End PopupProperties.

Lemma popup_result_up_to_blocker_witness :
  Some (Examples.suggestionsOf ["alpha"%string; "beta"%string])
  = SuggestionPopup.merged Examples.nothingBlacklisted
      (map (fun provider =>
              SuggestionPopup.contributes
                (SuggestionPopup.getSuggestions_of provider
                   (Examples.typed "a wor" "wor") Examples.settings))
           (firstn 2 Examples.twoBlockers)).
Proof.
  apply (popup_result_up_to_blocker Examples.twoBlockers
           Examples.nothingBlacklisted Examples.settings
           (Examples.typed "a wor" "wor") Examples.lastFirst
           Examples.origin 1 (Examples.resolving ["beta"%string] true)
           (Some (Examples.suggestionsOf ["alpha"%string; "beta"%string]))).
  - intros l. apply Permutation_sym, Permutation_rev.
  - reflexivity.
  - reflexivity.
  - discriminate.
  - intros k provider Hk. assert (k = 0) as -> by lia.
    simpl. intros H. injection H as <-. discriminate.
  - reflexivity.
Defined.

Lemma popup_result_without_blocker_witness :
  SuggestionPopup.getSuggestions
    [Examples.rejecting; Examples.resolving ["word"%string] false;
     Examples.returning ["work"%string; "word"%string] false]
    Examples.betaBlacklisted Examples.settings Examples.lastFirst
    (Examples.typed "a wor" "wor") Examples.origin
  = Normal (Some (Examples.suggestionsOf ["word"%string; "work"%string])).
Proof.
  apply (popup_result_without_blocker
           [Examples.rejecting; Examples.resolving ["word"%string] false;
            Examples.returning ["work"%string; "word"%string] false]
           Examples.betaBlacklisted Examples.settings
           (Examples.typed "a wor" "wor") Examples.lastFirst
           Examples.origin).
  - intros l. apply Permutation_sym, Permutation_rev.
  - repeat constructor; discriminate.
  - intros provider [<- | [<- | [<- | []]]]; discriminate.
Defined.

Lemma popup_result_schedule_independent_witness :
  SuggestionPopup.getSuggestions Examples.twoBlockers
    Examples.nothingBlacklisted Examples.settings (fun tasks => tasks)
    (Examples.typed "a wor" "wor") Examples.origin
  = SuggestionPopup.getSuggestions Examples.twoBlockers
      Examples.nothingBlacklisted Examples.settings Examples.lastFirst
      (Examples.typed "a wor" "wor") Examples.origin.
Proof.
  apply (popup_result_schedule_independent Examples.twoBlockers
           Examples.nothingBlacklisted Examples.settings
           (Examples.typed "a wor" "wor") (fun tasks => tasks)
           Examples.lastFirst Examples.origin).
  - intros l. apply Permutation_refl.
  - intros l. apply Permutation_sym, Permutation_rev.
Defined.

Lemma popup_result_distinct_names_witness :
  Some (Examples.suggestionsOf ["alpha"%string; "gamma"%string])
  <> Some [] /\
  NoDup (map displayName
           (Examples.suggestionsOf ["alpha"%string; "gamma"%string])) /\
  forall s,
    In s (Examples.suggestionsOf ["alpha"%string; "gamma"%string]) ->
    Examples.betaBlacklisted s = false.
Proof.
  apply (popup_result_distinct_names
           [Examples.returning ["alpha"%string; "beta"%string] false;
            Examples.resolving ["gamma"%string; "alpha"%string] false]
           Examples.betaBlacklisted Examples.settings
           (Examples.typed "a wor" "wor") Examples.lastFirst
           Examples.origin
           (Some (Examples.suggestionsOf ["alpha"%string; "gamma"%string]))).
  reflexivity.
Defined.

Lemma popup_sync_blocker_short_circuits_witness :
  SuggestionPopup.getSuggestions
    [Examples.returning ["alpha"%string] false;
     Examples.returning ["beta"%string] true; Examples.throwing]
    Examples.nothingBlacklisted Examples.settings (fun tasks => tasks)
    (Examples.typed "a wor" "wor") Examples.origin
  = Normal (Some (Examples.suggestionsOf ["alpha"%string; "beta"%string])).
Proof.
  apply (popup_sync_blocker_short_circuits
           [Examples.returning ["alpha"%string] false;
            Examples.returning ["beta"%string] true; Examples.throwing]
           Examples.nothingBlacklisted Examples.settings
           (Examples.typed "a wor" "wor") (fun tasks => tasks)
           Examples.origin 1 (Examples.returning ["beta"%string] true)
           (Suggestion_fromString (js "beta")) []).
  - intros l. apply Permutation_refl.
  - reflexivity.
  - reflexivity.
  - reflexivity.
  - intros k provider Hk. assert (k = 0) as -> by lia.
    simpl. intros H. injection H as <-. split; discriminate.
Defined.

Lemma popup_higher_priority_wins_witness :
  exists out,
    SuggestionPopup.getSuggestions
      [Examples.returning ["alpha"%string] false;
       Examples.offering [Examples.wordInserting "first"] false;
       Examples.offering [Examples.wordInserting "second"] false]
      Examples.nothingBlacklisted Examples.settings (fun tasks => tasks)
      (Examples.typed "a wor" "wor") Examples.origin
    = Normal (Some out) /\
    In (Examples.wordInserting "first") out /\
    forall s',
      In s' out ->
      displayName s' = displayName (Examples.wordInserting "first") ->
      s' = Examples.wordInserting "first".
Proof.
  apply (popup_higher_priority_wins
           [Examples.returning ["alpha"%string] false;
            Examples.offering [Examples.wordInserting "first"] false;
            Examples.offering [Examples.wordInserting "second"] false]
           Examples.nothingBlacklisted Examples.settings
           (Examples.typed "a wor" "wor") (fun tasks => tasks)
           Examples.origin 1
           (Examples.offering [Examples.wordInserting "first"] false)
           [] [] (Examples.wordInserting "first")).
  - intros l. apply Permutation_refl.
  - repeat constructor; discriminate.
  - intros provider [<- | [<- | [<- | []]]]; discriminate.
  - reflexivity.
  - reflexivity.
  - reflexivity.
  - intros x [].
  - intros k earlier x Hk. assert (k = 0) as -> by lia.
    simpl. intros H. injection H as <-. simpl.
    intros [<- | []] _. discriminate.
Defined.

(* ================================================================== *)
(** * The suggestion popup: trigger and selection *)
(* ================================================================== *)

Section PopupMethodsFacts.
Variable Editor : Type.
Variable getLine_length : Editor -> Z -> Z.
Variable matchWordBackwards :
  Editor -> EditorPosition -> PopupMethods.Fields -> PopupSettings.t ->
  jsstring * option jsstring * option jsstring.

Let internalOnTrigger := PopupMethods.internalOnTrigger matchWordBackwards.
Let selectSuggestion := PopupMethods.selectSuggestion getLine_length.
Let step := PopupMethods.step getLine_length matchWordBackwards.
Let run := PopupMethods.run getLine_length matchWordBackwards.

Lemma step_characterRegex settings f m :
  PopupMethods.characterRegex (step settings f m)
  = PopupMethods.characterRegex f.
Proof.
  destruct m; simpl; try reflexivity.
  - unfold PopupMethods.internalOnTrigger.
    destruct (PopupMethods.justClosed f); [reflexivity|].
    destruct (negb (PopupSettings.autoTrigger settings) && negb manualTrigger);
      [reflexivity|].
    now destruct (matchWordBackwards editor cursor f settings) as [[q sep] c].
  - unfold PopupMethods.selectNextItem.
    now destruct (negb (PopupMethods.focused f)).
  - unfold PopupMethods.getCharacterRegex.
    now destruct (PopupMethods.differs _ _).
Qed.

Lemma run_characterRegex calls :
  PopupMethods.characterRegex (run calls) = None.
Proof.
  unfold run, PopupMethods.run.
  assert (H : PopupMethods.characterRegex PopupMethods.initial = None)
    by reflexivity.
  revert H. generalize PopupMethods.initial.
  induction calls as [|[settings m] calls IH]; intros f Hf; [exact Hf|].
  simpl. apply IH. fold step. now rewrite step_characterRegex.
Qed.

(** X27.  After a suggestion was accepted, or after [preventNextTrigger], the
    next trigger is swallowed: it returns [null], calls nothing and only
    clears the flag.  The trigger after it is handled: with automatic
    triggering on, or for a manual trigger, it returns the span from the
    beginning of the query found before the cursor up to the cursor, on
    the cursor's line, and records the separator and whether the trigger
    was manual. *)
Theorem accepting_suppresses_one_trigger
    (settings : PopupSettings.t) (disableSnippets : bool)
    (value : Suggestion) (context_start context_end : EditorPosition)
    (editor : Editor) (f : PopupMethods.Fields) :
  let accepted :=
    fst (selectSuggestion disableSnippets value context_start context_end
                          editor f) in
  PopupMethods.justClosed accepted = true /\
  PopupMethods.justClosed (PopupMethods.preventNextTrigger f) = true /\
  forall f1 editor1 cursor1 manual1,
    PopupMethods.justClosed f1 = true ->
    let first := internalOnTrigger settings editor1 cursor1 manual1 f1 in
    let f2 := snd (fst first) in
    fst (fst first) = None /\
    snd first = [] /\
    PopupMethods.justClosed f2 = false /\
    PopupMethods.separatorChar f2 = PopupMethods.separatorChar f1 /\
    PopupMethods.triggerSource f2 = PopupMethods.triggerSource f1 /\
    PopupMethods.focused f2 = PopupMethods.focused f1 /\
    forall editor2 cursor2 manual2,
      PopupSettings.autoTrigger settings = true \/ manual2 = true ->
      let second := internalOnTrigger settings editor2 cursor2 manual2 f2 in
      let found := matchWordBackwards editor2 cursor2 f2 settings in
      fst (fst second)
      = Some {| PopupMethods.start :=
                  {| line := line cursor2;
                     ch := ch cursor2
                           - Z.of_nat (length (fst (fst found))) |};
                PopupMethods.end_ := cursor2;
                PopupMethods.query := fst (fst found) |} /\
      PopupMethods.separatorChar (snd (fst second)) = snd (fst found) /\
      PopupMethods.triggerSource (snd (fst second))
      = (if manual2 then manual else auto) /\
      PopupMethods.justClosed (snd (fst second)) = false.
Proof.
  cbv zeta. split; [reflexivity|]. split; [reflexivity|].
  intros f1 editor1 cursor1 manual1 Hclosed.
  assert (Hfirst :
            internalOnTrigger settings editor1 cursor1 manual1 f1
            = (None,
               {| PopupMethods.justClosed := false;
                  PopupMethods.separatorChar := PopupMethods.separatorChar f1;
                  PopupMethods.triggerSource := PopupMethods.triggerSource f1;
                  PopupMethods.characterRegex :=
                    PopupMethods.characterRegex f1;
                  PopupMethods.compiledCharacterRegex :=
                    PopupMethods.compiledCharacterRegex f1;
                  PopupMethods.focused := PopupMethods.focused f1 |},
               [])).
  { unfold internalOnTrigger, PopupMethods.internalOnTrigger.
    now rewrite Hclosed. }
  rewrite Hfirst. cbn [fst snd PopupMethods.justClosed
    PopupMethods.separatorChar PopupMethods.triggerSource
    PopupMethods.focused].
  repeat (split; [reflexivity|]).
  intros editor2 cursor2 manual2 Hhandled.
  unfold internalOnTrigger, PopupMethods.internalOnTrigger.
  cbn [PopupMethods.justClosed].
  replace (negb (PopupSettings.autoTrigger settings) && negb manual2)
    with false
    by (destruct Hhandled as [-> | ->]; [reflexivity|];
        symmetry; apply andb_false_r).
  destruct (matchWordBackwards editor2 cursor2 _ settings) as [[q sep] c].
  now repeat split.
Qed.

(** X28.  A trigger is refused only when the flag is set or when automatic
    triggering is off and the trigger is not manual; in the latter case
    the popup is closed, which clears the focus and the trigger source.
    A trigger that is handled returns a span that ends at the cursor,
    lies on its line and is as long as the query. *)
Theorem trigger_span
    (settings : PopupSettings.t) (editor : Editor) (cursor : EditorPosition)
    (manualTrigger : bool) (f : PopupMethods.Fields) :
  let result := internalOnTrigger settings editor cursor manualTrigger f in
  (forall info,
      fst (fst result) = Some info ->
      PopupMethods.end_ info = cursor /\
      line (PopupMethods.start info) = line cursor /\
      (ch (PopupMethods.end_ info) - ch (PopupMethods.start info)
       = Z.of_nat (length (PopupMethods.query info)))%Z /\
      PopupMethods.justClosed f = false /\
      (PopupSettings.autoTrigger settings = true \/ manualTrigger = true)) /\
  (fst (fst result) = None ->
   PopupMethods.justClosed f = true \/
   (PopupSettings.autoTrigger settings = false /\ manualTrigger = false /\
    snd result = [PopupMethods.super_close] /\
    PopupMethods.focused (snd (fst result)) = false /\
    PopupMethods.triggerSource (snd (fst result)) = unknown)).
Proof.
  cbv zeta. unfold internalOnTrigger, PopupMethods.internalOnTrigger.
  destruct (PopupMethods.justClosed f).
  { split; [discriminate | now left]. }
  destruct (PopupSettings.autoTrigger settings), manualTrigger; simpl;
    try (split; [discriminate | intros _; right; now repeat split]);
    destruct (matchWordBackwards editor cursor f _) as [[q sep] c];
    (split; [|discriminate]); intros info H; injection H as <-; simpl;
    repeat split; auto; lia.
Qed.

(** X29.  The range [selectSuggestion] replaces by the suggestion's text
    starts at the override start, else at the start of the context, and
    ends on the line of the override end, else of the context's end, at
    that column or at the end of the line, whichever comes first.  The
    popup is closed afterwards with the flag set, and the cursor is put
    behind the inserted text unless the text holds [#] or [~], in which
    case the snippet manager, if enabled, is given the text. *)
Theorem selection_replaces_within_line
    (disableSnippets : bool) (value : Suggestion)
    (context_start context_end : EditorPosition) (editor : Editor)
    (f : PopupMethods.Fields) :
  let result :=
    selectSuggestion disableSnippets value context_start context_end
                     editor f in
  let start :=
    match overrideStart value with
    | Some o => o
    | None => context_start
    end in
  let endPos :=
    match overrideEnd value with
    | Some o => o
    | None => context_end
    end in
  exists to placed,
    snd result
    = [PopupMethods.replaceRange (replacement value) start (Some to);
       placed; PopupMethods.super_close] /\
    line to = line endPos /\
    (ch to <= ch endPos)%Z /\
    (ch to <= getLine_length editor (line endPos))%Z /\
    (ch to = ch endPos \/ ch to = getLine_length editor (line endPos)) /\
    (includes (replacement value) (js "#") = false ->
     includes (replacement value) (js "~") = false ->
     placed
     = PopupMethods.setCursor
         {| line := line start;
            ch := ch start + Z.of_nat (length (replacement value)) |}) /\
    (includes (replacement value) (js "#") = true \/
     includes (replacement value) (js "~") = true ->
     placed
     = if disableSnippets then PopupMethods.console_log
       else PopupMethods.handleSnippet (replacement value) start) /\
    PopupMethods.justClosed (fst result) = true /\
    PopupMethods.focused (fst result) = false /\
    PopupMethods.triggerSource (fst result) = unknown.
Proof.
  cbv zeta. unfold selectSuggestion, PopupMethods.selectSuggestion.
  cbn [fst snd PopupMethods.close app PopupMethods.justClosed
       PopupMethods.focused PopupMethods.triggerSource].
  eexists. eexists. split; [reflexivity|]. cbn [line ch].
  split; [reflexivity|]. split; [lia|]. split; [lia|]. split; [lia|].
  split; [intros -> ->; reflexivity|]. split; [|now repeat split].
  intros [-> | ->]; rewrite ?orb_true_r; now destruct disableSnippets.
Qed.

(** X30.  The character class of the trigger is always that of the current
    settings: no method assigns [characterRegex], so in every state a
    fresh popup can reach [getCharacterRegex] compiles the expression
    anew from [settings.characterRegex], whatever was compiled before. *)
Theorem character_class_always_current
    (calls : list (PopupSettings.t * PopupMethods.Method Editor))
    (settings : PopupSettings.t) :
  PopupMethods.characterRegex (run calls) = None /\
  fst (PopupMethods.getCharacterRegex settings (run calls))
  = Some (js "[" ++ PopupSettings.characterRegex settings ++ js "]") /\
  PopupMethods.compiledCharacterRegex
    (snd (PopupMethods.getCharacterRegex settings (run calls)))
  = Some (js "[" ++ PopupSettings.characterRegex settings ++ js "]").
Proof.
  pose proof (run_characterRegex calls) as H. split; [exact H|].
  unfold PopupMethods.getCharacterRegex. rewrite H. now split.
Qed.

End PopupMethodsFacts.

(* ================================================================== *)
(** * The LLM provider: request keys *)
(* ================================================================== *)

Section KeyFacts.
Import LlmSuggestionProvider.

(** The sentinel code unit U+241E. *)
Let sentinel : code_unit := 9246%N.

Lemma createCacheKey_eq clippedContext separator model temperature :
  createCacheKey clippedContext separator model temperature
  = clippedContext ++ sentinel :: orEmptyString separator
    ++ sentinel :: orEmptyString model ++ sentinel :: toFixed3 temperature.
Proof. reflexivity. Qed.

Lemma createCacheKey_nonempty clippedContext separator model temperature :
  exists c k,
    createCacheKey clippedContext separator model temperature = c :: k.
Proof.
  rewrite createCacheKey_eq. destruct clippedContext as [|c k]; simpl;
    eexists; eexists; reflexivity.
Qed.

Lemma createCacheKey_neq_nil clippedContext separator model temperature :
  createCacheKey clippedContext separator model temperature <> [].
Proof.
  destruct (createCacheKey_nonempty clippedContext separator model
              temperature) as [c [k ->]]. discriminate.
Qed.

(** Two texts free of the sentinel that agree up to a first sentinel. *)
Lemma split_at_sentinel (a a' r r' : jsstring) :
  ~ In sentinel a -> ~ In sentinel a' ->
  a ++ sentinel :: r = a' ++ sentinel :: r' ->
  a = a' /\ r = r'.
Proof.
  revert a'. induction a as [|c a IH]; intros [|c' a'] Ha Ha' H; simpl in *.
  - injection H as ->. now split.
  - injection H as <- _. exfalso. apply Ha'. now left.
  - injection H as -> _. exfalso. apply Ha. now left.
  - injection H as -> H. apply IH in H; [|tauto|tauto].
    destruct H as [-> ->]. now split.
Qed.

Lemma toFixed3_comp (x y : Q) : x == y -> toFixed3 x = toFixed3 y.
Proof.
  intros E. unfold toFixed3.
  assert (Hle : Qle_bool 0 x = Qle_bool 0 y).
  { destruct (Qle_bool 0 x) eqn:Ex, (Qle_bool 0 y) eqn:Ey; try reflexivity.
    - apply Qle_bool_iff in Ex. rewrite E in Ex. apply Qle_bool_iff in Ex.
      congruence.
    - apply Qle_bool_iff in Ey. rewrite <- E in Ey. apply Qle_bool_iff in Ey.
      congruence. }
  rewrite Hle.
  assert (Hfloor :
            Qfloor ((if negb (Qle_bool 0 y) then - x else x) * (1000 # 1)
                    + (1 # 2))
            = Qfloor ((if negb (Qle_bool 0 y) then - y else y) * (1000 # 1)
                      + (1 # 2))).
  { apply Qfloor_comp. destruct (negb (Qle_bool 0 y)); now rewrite E. }
  cbv zeta. now rewrite Hfloor.
Qed.

(** A literal holds ASCII code units only. *)
Lemma js_ascii (s : string) (c : code_unit) : In c (js s) -> (c < 256)%N.
Proof.
  unfold js. intros H. apply in_map_iff in H. destruct H as [a [<- _]].
  apply N_ascii_bounded.
Qed.

(** A number printed with three decimals holds a sign, digits and a
    point, never the sentinel. *)
Lemma toFixed3_no_sentinel (x : Q) : ~ In sentinel (toFixed3 x).
Proof.
  unfold toFixed3, decimal. cbv zeta. intros H.
  assert (Hlt : (sentinel < 256)%N); [|now vm_compute in Hlt].
  repeat (apply in_app_or in H; destruct H as [H | H]);
    try (now apply js_ascii in H).
  destruct (negb (Qle_bool 0 x)); [now apply js_ascii in H | destruct H].
Qed.

(** Two texts that agree from a last sentinel on. *)
Lemma split_at_last_sentinel (a a' r r' : jsstring) :
  ~ In sentinel r -> ~ In sentinel r' ->
  a ++ sentinel :: r = a' ++ sentinel :: r' ->
  a = a' /\ r = r'.
Proof.
  intros Hr Hr' H. apply (f_equal (@rev code_unit)) in H.
  rewrite !rev_app_distr in H. simpl in H. rewrite <- !app_assoc in H.
  simpl in H.
  apply split_at_sentinel in H; try (rewrite <- in_rev; assumption).
  destruct H as [H1 H2].
  apply (f_equal (@rev code_unit)) in H1, H2.
  rewrite !rev_involutive in H1, H2. now split.
Qed.

(** The key is read back from its end: the printed temperature after the
    last sentinel, the model before it, the separator before that, and
    the context, whatever it holds, in front. *)
Lemma createCacheKey_inj clipped1 clipped2 separator1 separator2 model1 model2
      (t1 t2 : Q) :
  ~ In sentinel (orEmptyString separator1) ->
  ~ In sentinel (orEmptyString separator2) ->
  ~ In sentinel (orEmptyString model1) ->
  ~ In sentinel (orEmptyString model2) ->
  createCacheKey clipped1 separator1 model1 t1
  = createCacheKey clipped2 separator2 model2 t2 ->
  clipped1 = clipped2 /\
  orEmptyString separator1 = orEmptyString separator2 /\
  orEmptyString model1 = orEmptyString model2 /\
  toFixed3 t1 = toFixed3 t2.
Proof.
  intros Hs1 Hs2 Hm1 Hm2 Hkey. rewrite !createCacheKey_eq in Hkey.
  change (clipped1 ++ [sentinel] ++ orEmptyString separator1
            ++ [sentinel] ++ orEmptyString model1
            ++ sentinel :: toFixed3 t1
          = clipped2 ++ [sentinel] ++ orEmptyString separator2
            ++ [sentinel] ++ orEmptyString model2
            ++ sentinel :: toFixed3 t2) in Hkey.
  rewrite !app_assoc in Hkey.
  apply split_at_last_sentinel in Hkey; try apply toFixed3_no_sentinel.
  destruct Hkey as [Hkey Ht].
  rewrite <- !app_assoc in Hkey. rewrite !app_assoc in Hkey.
  rewrite <- (app_assoc _ [sentinel] (orEmptyString model1)) in Hkey.
  rewrite <- (app_assoc _ [sentinel] (orEmptyString model2)) in Hkey.
  simpl in Hkey.
  apply split_at_last_sentinel in Hkey; try assumption.
  destruct Hkey as [Hkey Hm].
  rewrite <- !app_assoc in Hkey. simpl in Hkey.
  apply split_at_last_sentinel in Hkey; try assumption.
  destruct Hkey as [Hc Hs]. now repeat split.
Qed.

End KeyFacts.

(* ================================================================== *)
(** * The LLM provider: failures, coalescing and the pending slot *)
(* ================================================================== *)

Section LlmFacts.
Context {B : StringBuiltins} {J : JsonBuiltins}.
Import LlmSuggestionProvider.

Lemma fetchSuggestions_fulfils (outcome : RequestUrlOutcome) :
  exists l, fetchSuggestions outcome = Normal l.
Proof.
  unfold fetchSuggestions. destruct (fetchSuggestions_try outcome);
    eexists; reflexivity.
Qed.

Lemma fetchSuggestions_null_payload (response : RequestUrlResponse) :
  resolvePayload response = Abrupt \/ resolvePayload response = Normal VNull ->
  fetchSuggestions (Normal response) = Normal [].
Proof.
  unfold fetchSuggestions, fetchSuggestions_try. intros [-> | ->].
  - reflexivity.
  - destruct (_ || _); reflexivity.
Qed.

Lemma resolveText_unparsable (response : RequestUrlResponse) :
  textUnparsable (text response) ->
  resolveText response = Abrupt \/ resolveText response = Normal VNull.
Proof.
  unfold resolveText. intros [Ht | [[s [Hs Hparse]] | Hnot]].
  - left. now rewrite Ht.
  - destruct (text response); [now left| |]; rewrite Hs; right;
      unfold safeParseJson; rewrite Hparse; now destruct s.
  - destruct (text response) as [|v|c]; [now left| |];
      destruct (resolvePossiblePromise _) eqn:E; try (now right);
      exfalso; exact (Hnot _ eq_refl).
Qed.

Lemma resolvePayload_unparsable (response : RequestUrlResponse) :
  unparsable response ->
  resolvePayload response = Abrupt \/ resolvePayload response = Normal VNull.
Proof.
  intros [Hj Ht]. apply resolveText_unparsable in Ht.
  unfold resolvePayload.
  destruct Hj as [Hj | [Hj | [Hj | [s [Hs Hparse]]]]].
  - left. now rewrite Hj.
  - destruct (json response); [now left| |]; now rewrite Hj.
  - destruct (json response); [now left| |]; now rewrite Hj.
  - assert (Hsafe : safeParseJson s = VNull).
    { unfold safeParseJson. rewrite Hparse. now destruct s. }
    destruct (json response); [now left| |]; rewrite Hs, Hsafe; exact Ht.
Qed.

Lemma executeRequest_consistent key args w :
  consistent w -> consistent (snd (executeRequest key args w)).
Proof.
  intros (H1 & H2 & H3). unfold executeRequest. simpl.
  split; [|split]; simpl.
  - intros p c Hs. destruct (H1 p c Hs) as [Hlt Hc].
    rewrite length_app. simpl. split; [lia | exact Hc].
  - discriminate.
  - exact H3.
Qed.

Lemma getSuggestions_consistent context settings w :
  consistent w -> consistent (snd (getSuggestions context settings w)).
Proof.
  intros Hw. unfold getSuggestions.
  destruct (negb (isEnabled _)); [exact Hw|]. cbv zeta.
  destruct (if keyIs _ _ then _ else _); [exact Hw|].
  destruct (inflightPromise (this w)) as [promise|] eqn:Ei.
  - destruct (keyIs (inflightKey (this w)) _); [exact Hw|].
    destruct Hw as (H1 & H2 & H3). split; [|split]; simpl.
    + exact H1.
    + try rewrite Ei. discriminate.
    + intros k Hk. injection Hk as <-. split; [|discriminate].
      apply createCacheKey_neq_nil.
  - match goal with
    | |- consistent (snd (let '(_, _) := executeRequest ?k ?a w in _)) =>
        change (consistent (snd (executeRequest k a w)))
    end.
    now apply executeRequest_consistent.
Qed.

Lemma processPending_consistent w :
  (forall p c,
      settlement (settled w) p = Some c ->
      p < length (requests w) /\ exists l, c = Normal l) ->
  (forall k,
      pendingKey (this w) = Some k -> k <> [] /\ pendingArgs (this w) <> None) ->
  inflightPromise (this w) = None ->
  consistent (processPending w).
Proof.
  intros H1 H3 Hi. unfold processPending. rewrite Hi.
  destruct (pendingKey (this w)) as [[|c k]|] eqn:Ek.
  - destruct (H3 [] eq_refl) as [Hne _]. congruence.
  - destruct (pendingArgs (this w)) as [nextArgs|] eqn:Ea.
    + apply executeRequest_consistent. split; [|split]; simpl.
      * exact H1.
      * reflexivity.
      * discriminate.
    + destruct (H3 (c :: k) eq_refl) as [_ Hne]. congruence.
  - split; [exact H1|]. split; [now rewrite Ek|].
    intros k Hk. congruence.
Qed.

Lemma executeRequest_resume_consistent key args result w :
  consistent w -> consistent (executeRequest_resume key args result w).
Proof.
  intros Hw. unfold executeRequest_resume.
  set (w1 := match result with
             | Normal suggestions => _
             | Abrupt => w
             end).
  assert (Hw1 : consistent w1 /\ inflightKey (this w1) = inflightKey (this w)).
  { subst w1. destruct result as [suggestions|]; [|now split].
    destruct (keyIs (inflightKey (this w)) key); [|now split].
    split; [|reflexivity]. destruct Hw as (H1 & H2 & H3).
    split; [|split]; simpl; assumption. }
  destruct Hw1 as [(H1 & H2 & H3) Hkey].
  destruct (keyIs (inflightKey (this w1)) key).
  - apply processPending_consistent; simpl; [exact H1 | exact H3 | reflexivity].
  - split; [|split]; assumption.
Qed.

Lemma settle_consistent p outcome w :
  consistent w -> consistent (settle p outcome w).
Proof.
  intros Hw. unfold settle.
  destruct (settlement (settled w) p) eqn:Es; [exact Hw|].
  destruct (nth_error (requests w) p) as [call|] eqn:En; [|exact Hw].
  apply executeRequest_resume_consistent.
  destruct Hw as (H1 & H2 & H3). split; [|split]; simpl; try assumption.
  intros p' c. destruct (Nat.eqb_spec p p') as [<-|Hne].
  - intros Hc. injection Hc as <-. split.
    + apply nth_error_Some. congruence.
    + apply fetchSuggestions_fulfils.
  - apply H1.
Qed.

Lemma initial_consistent : consistent initial.
Proof.
  split; [|split]; simpl; try discriminate. reflexivity.
Qed.

Lemma run_consistent events w :
  consistent w -> consistent (run events w).
Proof.
  revert w. induction events as [|e events IH]; intros w Hw; [exact Hw|].
  simpl. apply IH. destruct e as [context settings | p outcome]; simpl.
  - now apply getSuggestions_consistent.
  - now apply settle_consistent.
Qed.

Lemma reachable_consistent w : reachable w -> consistent w.
Proof.
  intros [events ->]. apply run_consistent, initial_consistent.
Qed.

End LlmFacts.

Section LlmSteps.
Context {B : StringBuiltins} {J : JsonBuiltins}.
Import LlmSuggestionProvider.

Lemma keyIs_Some (k key : jsstring) : keyIs (Some k) key = true <-> k = key.
Proof. apply str_eqb_eq. Qed.

Lemma keyIs_same (key : jsstring) : keyIs (Some key) key = true.
Proof. apply str_eqb_refl. Qed.

Lemma keyIs_other (k key : jsstring) : k <> key -> keyIs (Some k) key = false.
Proof. apply str_eqb_neq. Qed.

(** A disabled provider answers with the empty array. *)
Lemma getSuggestions_disabled context settings w :
  isEnabled (getLLMProviderSettings settings) = false ->
  getSuggestions context settings w = (ReturnsArray [], w).
Proof. intros E. unfold getSuggestions. now rewrite E. Qed.

(** A cache hit answers without touching anything. *)
Lemma getSuggestions_cached context settings w cached :
  isEnabled (getLLMProviderSettings settings) = true ->
  cachedSuggestionsFor w (requestKey context settings) = Some cached ->
  getSuggestions context settings w = (ReturnsArray (suggestions cached), w).
Proof.
  intros E Hc. unfold getSuggestions. rewrite E. cbv zeta. simpl negb.
  unfold cachedSuggestionsFor, requestKey in Hc. cbv zeta in Hc.
  now rewrite Hc.
Qed.

(** A call for the key in flight is handed the promise in flight. *)
Lemma getSuggestions_coalesces context settings w p :
  isEnabled (getLLMProviderSettings settings) = true ->
  cachedSuggestionsFor w (requestKey context settings) = None ->
  inflightPromise (this w) = Some p ->
  inflightKey (this w) = Some (requestKey context settings) ->
  getSuggestions context settings w = (ReturnsInflightPromise p, w).
Proof.
  intros E Hc Hp Hk. unfold getSuggestions. rewrite E. cbv zeta. simpl negb.
  unfold cachedSuggestionsFor, requestKey in Hc, Hk. cbv zeta in Hc, Hk.
  rewrite Hc, Hp, Hk. now rewrite keyIs_same.
Qed.

(** A call for another key than the one in flight is parked. *)
Lemma getSuggestions_parks context settings w p :
  isEnabled (getLLMProviderSettings settings) = true ->
  cachedSuggestionsFor w (requestKey context settings) = None ->
  inflightPromise (this w) = Some p ->
  keyIs (inflightKey (this w)) (requestKey context settings) = false ->
  getSuggestions context settings w
  = (ReturnsArray [],
     parked w (requestKey context settings) (preparedFor context settings w)).
Proof.
  intros E Hc Hp Hk. unfold getSuggestions, parked, preparedFor.
  rewrite E. cbv zeta. simpl negb.
  unfold cachedSuggestionsFor, requestKey in *. cbv zeta in *.
  rewrite Hc, Hp, Hk. reflexivity.
Qed.

(** A call with nothing in flight starts its request. *)
Lemma getSuggestions_executes context settings w :
  isEnabled (getLLMProviderSettings settings) = true ->
  cachedSuggestionsFor w (requestKey context settings) = None ->
  inflightPromise (this w) = None ->
  getSuggestions context settings w
  = (ReturnsExecuteRequest (length (requests w)),
     snd (executeRequest (requestKey context settings)
            (preparedFor context settings w) w)).
Proof.
  intros E Hc Hp. unfold getSuggestions. rewrite E. cbv zeta. simpl negb.
  unfold cachedSuggestionsFor, requestKey in Hc. cbv zeta in Hc.
  rewrite Hc, Hp. reflexivity.
Qed.

(** The only way for a call to start a request. *)
Lemma getSuggestions_executed context settings w p w1 :
  getSuggestions context settings w = (ReturnsExecuteRequest p, w1) ->
  isEnabled (getLLMProviderSettings settings) = true /\
  cachedSuggestionsFor w (requestKey context settings) = None /\
  inflightPromise (this w) = None /\
  p = length (requests w) /\
  w1 = snd (executeRequest (requestKey context settings)
              (preparedFor context settings w) w).
Proof.
  intros H.
  destruct (isEnabled (getLLMProviderSettings settings)) eqn:E.
  2:{ rewrite getSuggestions_disabled in H by assumption. discriminate. }
  destruct (cachedSuggestionsFor w (requestKey context settings))
    as [cached|] eqn:Hc.
  { rewrite (getSuggestions_cached context settings w cached) in H
      by assumption. discriminate. }
  destruct (inflightPromise (this w)) as [q|] eqn:Hp.
  { destruct (keyIs (inflightKey (this w)) (requestKey context settings))
      eqn:Hk.
    - destruct (inflightKey (this w)) as [k|] eqn:Hik; [|discriminate].
      apply keyIs_Some in Hk. subst k.
      rewrite (getSuggestions_coalesces context settings w q) in H
        by assumption. discriminate.
    - rewrite (getSuggestions_parks context settings w q) in H
        by assumption. discriminate. }
  rewrite getSuggestions_executes in H by assumption.
  injection H as <- <-. now repeat split.
Qed.

Lemma processPending_nothing w :
  pendingKey (this w) = None -> processPending w = w.
Proof.
  intros E. unfold processPending. rewrite E.
  now destruct (inflightPromise (this w)).
Qed.

(** With nothing in flight, a parked request is started and the slot is
    emptied. *)
Lemma processPending_starts w c k args :
  inflightPromise (this w) = None ->
  pendingKey (this w) = Some (c :: k) ->
  pendingArgs (this w) = Some args ->
  requests (processPending w)
  = requests w ++
    [{| call_key := c :: k; call_args := args;
        call_param := requestUrlParam (args_settings args)
                                      (args_request args) |}] /\
  settled (processPending w) = settled w /\
  inflightKey (this (processPending w)) = Some (c :: k) /\
  inflightPromise (this (processPending w)) = Some (length (requests w)) /\
  pendingKey (this (processPending w)) = None /\
  pendingArgs (this (processPending w)) = None /\
  cacheKey (this (processPending w)) = cacheKey (this w) /\
  cacheValue (this (processPending w)) = cacheValue (this w).
Proof.
  intros Hi Hk Ha. unfold processPending. rewrite Hi, Hk, Ha.
  simpl. now repeat split.
Qed.

(** The settlement of the call in flight. *)
Lemma settle_inflight p outcome w call :
  settlement (settled w) p = None ->
  nth_error (requests w) p = Some call ->
  inflightKey (this w) = Some (call_key call) ->
  exists l,
    fetchSuggestions outcome = Normal l /\
    settle p outcome w
    = processPending (fulfilled w p (call_key call) (call_args call) l).
Proof.
  intros Hs Hn Hk. destruct (fetchSuggestions_fulfils outcome) as [l Hl].
  exists l. split; [exact Hl|]. unfold settle. rewrite Hs, Hn, Hl.
  unfold executeRequest_resume. cbn [this inflightKey].
  rewrite Hk, keyIs_same. cbn [this inflightKey].
  rewrite keyIs_same. reflexivity.
Qed.

Lemma settlement_fresh w p :
  consistent w -> length (requests w) <= p -> settlement (settled w) p = None.
Proof.
  intros (H1 & _) Hle. destruct (settlement (settled w) p) eqn:E;
    [|reflexivity].
  apply H1 in E. lia.
Qed.

End LlmSteps.

Section LlmProviderTsFacts.
Context {B : StringBuiltins} {J : JsonBuiltins}.
Import LlmSuggestionProvider.

(** Both variants read the response by the same steps. *)
Lemma fetchSuggestions_same (outcome : RequestUrlOutcome) :
  LlmProviderTs.fetchSuggestions outcome = fetchSuggestions outcome.
Proof. reflexivity. Qed.

Lemma ts_getSuggestions_consistent context settings w :
  LlmProviderTs.consistent w ->
  LlmProviderTs.consistent
    (snd (LlmProviderTs.getSuggestions context settings w)).
Proof.
  intros Hw. unfold LlmProviderTs.getSuggestions.
  destruct (negb (isEnabled _)); [exact Hw|]. cbv zeta.
  destruct (keyIs (LlmProviderTs.cacheKey _) _); [exact Hw|].
  assert (Hgrow :
            forall call,
              LlmProviderTs.consistent
                {| LlmProviderTs.this :=
                     {| LlmProviderTs.cacheKey :=
                          LlmProviderTs.cacheKey (LlmProviderTs.this w);
                        LlmProviderTs.cacheValue :=
                          LlmProviderTs.cacheValue (LlmProviderTs.this w);
                        LlmProviderTs.inflightKey :=
                          Some (LlmProviderTs.call_key call);
                        LlmProviderTs.inflightPromise :=
                          Some (length (LlmProviderTs.requests w)) |};
                   LlmProviderTs.requests :=
                     LlmProviderTs.requests w ++ [call];
                   LlmProviderTs.settled := LlmProviderTs.settled w |}).
  { intros call p c Hs. simpl in *. destruct (Hw p c Hs) as [Hlt Hc].
    rewrite length_app. simpl. split; [lia | exact Hc]. }
  destruct (LlmProviderTs.inflightPromise _) as [promise|];
    [destruct (keyIs (LlmProviderTs.inflightKey _) _); [exact Hw|]|];
    apply (Hgrow {| LlmProviderTs.call_key := _;
                    LlmProviderTs.call_param := _ |}).
Qed.

Lemma ts_resume_projections key result w :
  LlmProviderTs.requests (LlmProviderTs.getSuggestions_resume key result w)
  = LlmProviderTs.requests w /\
  LlmProviderTs.settled (LlmProviderTs.getSuggestions_resume key result w)
  = LlmProviderTs.settled w.
Proof.
  unfold LlmProviderTs.getSuggestions_resume.
  destruct result as [suggestions|];
    [destruct (keyIs (LlmProviderTs.inflightKey (LlmProviderTs.this w)) key)
       eqn:E|];
    cbn [LlmProviderTs.this LlmProviderTs.inflightKey]; rewrite ?E;
    try destruct (keyIs _ key); now split.
Qed.

Lemma ts_settle_consistent p outcome w :
  LlmProviderTs.consistent w ->
  LlmProviderTs.consistent (LlmProviderTs.settle p outcome w).
Proof.
  intros Hw. unfold LlmProviderTs.settle.
  destruct (settlement (LlmProviderTs.settled w) p) eqn:Es; [exact Hw|].
  destruct (nth_error (LlmProviderTs.requests w) p) as [call|] eqn:En;
    [|exact Hw].
  intros p' c.
  destruct (ts_resume_projections (LlmProviderTs.call_key call)
              (LlmProviderTs.fetchSuggestions outcome)
              {| LlmProviderTs.this := LlmProviderTs.this w;
                 LlmProviderTs.requests := LlmProviderTs.requests w;
                 LlmProviderTs.settled :=
                   (p, LlmProviderTs.fetchSuggestions outcome)
                     :: LlmProviderTs.settled w |}) as [-> ->].
  simpl. destruct (Nat.eqb_spec p p') as [<-|Hne].
  - intros Hc. injection Hc as <-. split.
    + apply nth_error_Some. congruence.
    + apply fetchSuggestions_fulfils.
  - apply Hw.
Qed.

Lemma ts_reachable_consistent w :
  LlmProviderTs.reachable w -> LlmProviderTs.consistent w.
Proof.
  intros [events ->]. unfold LlmProviderTs.run.
  assert (H0 : LlmProviderTs.consistent LlmProviderTs.initial)
    by (intros p c; discriminate).
  revert H0. generalize LlmProviderTs.initial.
  induction events as [|e events IH]; intros w Hw; [exact Hw|].
  simpl. apply IH. destruct e as [context settings | p outcome]; simpl.
  - now apply ts_getSuggestions_consistent.
  - now apply ts_settle_consistent.
Qed.

End LlmProviderTsFacts.

Section LlmClaims.
Context {B : StringBuiltins} {J : JsonBuiltins}.
Import LlmSuggestionProvider.

Lemma nth_error_last (A : Type) (l : list A) (x : A) :
  nth_error (l ++ [x]) (length l) = Some x.
Proof.
  rewrite nth_error_app2 by lia. now rewrite Nat.sub_diag.
Qed.

Lemma settlement_head table p c :
  settlement ((p, c) :: table) p = Some c.
Proof. simpl. now rewrite Nat.eqb_refl. Qed.

End LlmClaims.

Section PendingSlot.
Context {B : StringBuiltins} {J : JsonBuiltins}.
Import LlmSuggestionProvider.

Lemma requestKey_nonempty context settings :
  exists c k, requestKey context settings = c :: k.
Proof. apply createCacheKey_nonempty. Qed.

(** With the request for [keyA] in flight as promise [p], the last made,
    a call for another key that is not cached is parked, and the two
    settlements that follow start and finish exactly that request. *)
Lemma parked_then_served (w2 : World) (callA : NetworkCall)
    (contextC : SuggestionContext) (settingsC : CompletrSettings)
    (p q : PromiseId) :
  settlement (settled w2) p = None ->
  settlement (settled w2) (S p) = None ->
  nth_error (requests w2) p = Some callA ->
  length (requests w2) = S p ->
  inflightKey (this w2) = Some (call_key callA) ->
  inflightPromise (this w2) = Some q ->
  isEnabled (getLLMProviderSettings settingsC) = true ->
  cachedSuggestionsFor w2 (requestKey contextC settingsC) = None ->
  requestKey contextC settingsC <> call_key callA ->
  let callC := getSuggestions contextC settingsC w2 in
  fst callC = ReturnsArray [] /\
  requests (snd callC) = requests w2 /\
  pendingKey (this (snd callC)) = Some (requestKey contextC settingsC) /\
  forall outcomeA outcomeC : RequestUrlOutcome,
    let afterA := settle p outcomeA (snd callC) in
    let afterC := settle (S p) outcomeC afterA in
    map call_key (requests afterA)
    = map call_key (requests w2) ++ [requestKey contextC settingsC] /\
    inflightKey (this afterA) = Some (requestKey contextC settingsC) /\
    pendingKey (this afterA) = None /\
    requests afterC = requests afterA /\
    inflightPromise (this afterC) = None /\
    pendingKey (this afterC) = None.
Proof.
  intros Hs HsS Hn Hlen Hk Hq EC HcC HneC callC. subst callC.
  rewrite (getSuggestions_parks contextC settingsC w2 q EC HcC Hq).
  2:{ rewrite Hk. apply keyIs_other. congruence. }
  cbn [fst snd]. split; [reflexivity|]. split; [reflexivity|].
  split; [reflexivity|]. intros outcomeA outcomeC.
  set (keyC := requestKey contextC settingsC) in *.
  set (argsC := preparedFor contextC settingsC w2).
  destruct (settle_inflight p outcomeA (parked w2 keyC argsC) callA Hs Hn Hk)
    as [l [_ ->]].
  destruct (requestKey_nonempty contextC settingsC) as [c [k HkeyC]].
  fold keyC in HkeyC.
  set (w3 := fulfilled (parked w2 keyC argsC) p (call_key callA)
               (call_args callA) l).
  destruct (processPending_starts w3 c k argsC eq_refl)
    as (Hreq & Hset & Hik & Hip & Hpk & Hpa & _);
    [exact (f_equal Some HkeyC) | reflexivity |].
  cbn zeta. set (w4 := processPending w3) in *.
  simpl in Hreq, Hset, Hip. rewrite <- HkeyC in Hreq, Hik.
  destruct (settle_inflight (S p) outcomeC w4
              {| call_key := keyC; call_args := argsC;
                 call_param := requestUrlParam (args_settings argsC)
                                               (args_request argsC) |})
    as [l' [_ ->]].
  { rewrite Hset. simpl.
    replace (p =? S p) with false by (symmetry; apply Nat.eqb_neq; lia).
    exact HsS. }
  { rewrite Hreq, <- Hlen. apply nth_error_last. }
  { exact Hik. }
  rewrite processPending_nothing by exact Hpk.
  cbn [fulfilled requests this inflightPromise pendingKey].
  rewrite Hreq, map_app. now repeat split.
Qed.

(** C2, amended.  With the request for key A in flight, a call for a key
    B other than A and then a call for a key C other than A that is not
    the cached key both return the empty array (or B its cached list)
    without a [requestUrl] call; the slot then holds C.  When the call
    for A settles, the request for C is started, and when that one
    settles nothing is pending: the calls made are one for A and one for
    C, and B's parked request is never sent. *)
Theorem C2_pending_slot_last_write_wins
    (w w1 : World) (contextA contextB contextC : SuggestionContext)
    (settingsA settingsB settingsC : CompletrSettings) (p : PromiseId) :
  reachable w ->
  getSuggestions contextA settingsA w = (ReturnsExecuteRequest p, w1) ->
  isEnabled (getLLMProviderSettings settingsB) = true ->
  isEnabled (getLLMProviderSettings settingsC) = true ->
  requestKey contextB settingsB <> requestKey contextA settingsA ->
  requestKey contextC settingsC <> requestKey contextA settingsA ->
  cachedSuggestionsFor w (requestKey contextC settingsC) = None ->
  let callB := getSuggestions contextB settingsB w1 in
  let callC := getSuggestions contextC settingsC (snd callB) in
  (exists l, fst callB = ReturnsArray l) /\
  fst callC = ReturnsArray [] /\
  requests (snd callC) = requests w1 /\
  pendingKey (this (snd callC)) = Some (requestKey contextC settingsC) /\
  forall outcomeA outcomeC : RequestUrlOutcome,
    let afterA := settle p outcomeA (snd callC) in
    let afterC := settle (S p) outcomeC afterA in
    map call_key (requests afterA)
    = map call_key (requests w)
      ++ [requestKey contextA settingsA; requestKey contextC settingsC] /\
    requests afterC = requests afterA /\
    inflightPromise (this afterC) = None /\
    pendingKey (this afterC) = None.
Proof.
  intros Hreach Hcall EB EC HneB HneC HcC callB callC.
  apply reachable_consistent in Hreach.
  apply getSuggestions_executed in Hcall.
  destruct Hcall as (EA & HcA & Hi & -> & ->).
  set (keyA := requestKey contextA settingsA) in *.
  set (argsA := preparedFor contextA settingsA w) in *.
  set (callA := {| call_key := keyA; call_args := argsA;
                   call_param := requestUrlParam (args_settings argsA)
                                                 (args_request argsA) |}).
  set (w1 := snd (executeRequest keyA argsA w)) in *.
  assert (HB : exists l,
             callB = (ReturnsArray l, w1) \/
             callB = (ReturnsArray l,
                      parked w1 (requestKey contextB settingsB)
                             (preparedFor contextB settingsB w1))).
  { subst callB.
    destruct (cachedSuggestionsFor w1 (requestKey contextB settingsB))
      as [cached|] eqn:HcB.
    - exists (suggestions cached). left.
      now apply getSuggestions_cached.
    - exists []. right.
      apply (getSuggestions_parks contextB settingsB w1
               (length (requests w))); auto.
      apply keyIs_other. congruence. }
  destruct HB as [lB HB].
  assert (Hserved :
            forall w2,
              callB = (ReturnsArray lB, w2) ->
              cacheKey (this w2) = cacheKey (this w) ->
              cacheValue (this w2) = cacheValue (this w) ->
              inflightKey (this w2) = Some keyA ->
              inflightPromise (this w2) = Some (length (requests w)) ->
              requests w2 = requests w ++ [callA] ->
              settled w2 = settled w ->
              (exists l, fst callB = ReturnsArray l) /\
              fst callC = ReturnsArray [] /\
              requests (snd callC) = requests w1 /\
              pendingKey (this (snd callC))
              = Some (requestKey contextC settingsC) /\
              forall outcomeA outcomeC : RequestUrlOutcome,
                let afterA :=
                  settle (length (requests w)) outcomeA (snd callC) in
                let afterC := settle (S (length (requests w))) outcomeC afterA in
                map call_key (requests afterA)
                = map call_key (requests w)
                  ++ [keyA; requestKey contextC settingsC] /\
                requests afterC = requests afterA /\
                inflightPromise (this afterC) = None /\
                pendingKey (this afterC) = None).
  { intros w2 HcallB Hck Hcv Hik Hip Hreq Hset. subst callC.
    rewrite HcallB. cbn [fst snd].
    split; [now exists lB|].
    destruct (parked_then_served w2 callA contextC settingsC
                (length (requests w)) (length (requests w)))
      as (Hret & Hsame & Hpend & Hafter).
    - rewrite Hset. apply settlement_fresh; [assumption | lia].
    - rewrite Hset. apply settlement_fresh; [assumption | lia].
    - rewrite Hreq. apply nth_error_last.
    - rewrite Hreq, length_app. simpl. lia.
    - exact Hik.
    - exact Hip.
    - exact EC.
    - unfold cachedSuggestionsFor in *. now rewrite Hck, Hcv.
    - exact HneC.
    - split; [exact Hret|]. split; [now rewrite Hsame, Hreq|].
      split; [exact Hpend|]. intros outcomeA outcomeC.
      destruct (Hafter outcomeA outcomeC)
        as (Hmap & _ & _ & Hreq' & Hip' & Hpk').
      cbv zeta. rewrite Hmap, Hreq, map_app, <- app_assoc.
      now repeat split. }
  destruct HB as [HB | HB]; apply (Hserved _ HB); reflexivity.
Qed.

End PendingSlot.

Section LlmFailures.
Context {B : StringBuiltins} {J : JsonBuiltins}.
Import LlmSuggestionProvider.

Lemma fetchSuggestions_bad_status (response : RequestUrlResponse) :
  (status response < 200 \/ 300 <= status response)%Z ->
  fetchSuggestions (Normal response) = Normal [].
Proof.
  intros Hs. unfold fetchSuggestions, fetchSuggestions_try.
  destruct (resolvePayload response); [|reflexivity].
  replace ((status response <? 200)%Z || (300 <=? status response)%Z)
    with true; [reflexivity|].
  symmetry. apply orb_true_iff.
  destruct Hs; [left; now apply Z.ltb_lt | right; now apply Z.leb_le].
Qed.

Lemma received_fulfilled w r c :
  consistent w -> received w r = Some c -> exists l, c = Normal l.
Proof.
  intros (H1 & _) Hr. destruct r as [l | p | p]; simpl in Hr.
  - injection Hr as <-. now exists l.
  - now apply H1 in Hr.
  - now apply H1 in Hr.
Qed.

Lemma ts_received_fulfilled w r c :
  LlmProviderTs.consistent w ->
  LlmProviderTs.received w r = Some c -> exists l, c = Normal l.
Proof.
  intros H1 Hr. destruct r as [l | p | p]; simpl in Hr.
  - injection Hr as <-. now exists l.
  - now apply H1 in Hr.
  - now apply H1 in Hr.
Qed.

Lemma processPending_settled w : settled (processPending w) = settled w.
Proof.
  unfold processPending.
  destruct (inflightPromise (this w)), (pendingKey (this w)) as [[|c k]|],
    (pendingArgs (this w)); reflexivity.
Qed.

(** The caller that started a request receives what [fetchSuggestions]
    makes of the way the request ends. *)
Lemma first_caller_receives w w1 context settings p outcome :
  reachable w ->
  getSuggestions context settings w = (ReturnsExecuteRequest p, w1) ->
  received (settle p outcome w1) (ReturnsExecuteRequest p)
  = Some (fetchSuggestions outcome).
Proof.
  intros Hreach Hcall. apply reachable_consistent in Hreach.
  apply getSuggestions_executed in Hcall.
  destruct Hcall as (_ & _ & _ & -> & ->).
  match goal with
  | |- context [executeRequest ?k ?a w] =>
      destruct (settle_inflight (length (requests w)) outcome
                  (snd (executeRequest k a w))
                  {| call_key := k; call_args := a;
                     call_param := requestUrlParam (args_settings a)
                                                   (args_request a) |})
        as [l [Hl Hsettle]]
  end.
  - simpl. apply settlement_fresh; [assumption | lia].
  - simpl. apply nth_error_last.
  - reflexivity.
  - rewrite Hsettle, Hl. unfold received.
    rewrite processPending_settled. simpl. now rewrite Nat.eqb_refl.
Qed.

Lemma ts_first_caller_receives w w1 context settings p outcome :
  LlmProviderTs.reachable w ->
  LlmProviderTs.getSuggestions context settings w
  = (LlmProviderTs.AwaitsRequest p, w1) ->
  LlmProviderTs.received (LlmProviderTs.settle p outcome w1)
    (LlmProviderTs.AwaitsRequest p)
  = Some (LlmProviderTs.fetchSuggestions outcome).
Proof.
  intros Hreach Hcall. apply ts_reachable_consistent in Hreach.
  unfold LlmProviderTs.getSuggestions in Hcall.
  destruct (negb (isEnabled (getLLMProviderSettings settings)));
    [discriminate|].
  cbv zeta in Hcall.
  destruct (keyIs (LlmProviderTs.cacheKey (LlmProviderTs.this w)) _);
    [discriminate|].
  assert (Hfresh : settlement (LlmProviderTs.settled w)
                     (length (LlmProviderTs.requests w)) = None).
  { destruct (settlement _ _) eqn:E; [|reflexivity].
    apply Hreach in E. lia. }
  destruct (LlmProviderTs.inflightPromise (LlmProviderTs.this w));
    [destruct (keyIs (LlmProviderTs.inflightKey (LlmProviderTs.this w)) _);
     [discriminate|]|];
    injection Hcall as <- <-;
    unfold LlmProviderTs.settle;
    cbn [LlmProviderTs.settled LlmProviderTs.requests];
    rewrite Hfresh, nth_error_last;
    match goal with
    | |- context [LlmProviderTs.getSuggestions_resume ?k ?r ?x] =>
        destruct (ts_resume_projections k r x) as [_ Hs]
    end;
    unfold LlmProviderTs.received; rewrite Hs;
    cbn [LlmProviderTs.settled]; apply settlement_head.
Qed.

(** C6. [fetchSuggestions] always fulfils its promise: with the empty
    list when [requestUrl] fails, when the status is outside 200..299
    and when the payload cannot be parsed.  Hence no promise the
    provider hands to a caller is ever rejected, and a call whose
    request is answered with status 500 receives the empty list.  This
    holds of the provider of [llm_provider.ts] and of the one with the
    pending slot. *)
Theorem C6_failures_yield_empty :
  (forall outcome : RequestUrlOutcome,
      exists l,
        LlmProviderTs.fetchSuggestions outcome = Normal l /\
        fetchSuggestions outcome = Normal l) /\
  (LlmProviderTs.fetchSuggestions Abrupt = Normal [] /\
   fetchSuggestions Abrupt = Normal []) /\
  (forall response : RequestUrlResponse,
      (status response < 200 \/ 300 <= status response)%Z ->
      LlmProviderTs.fetchSuggestions (Normal response) = Normal [] /\
      fetchSuggestions (Normal response) = Normal []) /\
  (forall response : RequestUrlResponse,
      unparsable response ->
      LlmProviderTs.fetchSuggestions (Normal response) = Normal [] /\
      fetchSuggestions (Normal response) = Normal []) /\
  (forall w r c,
      LlmProviderTs.reachable w ->
      LlmProviderTs.received w r = Some c -> exists l, c = Normal l) /\
  (forall w r c,
      reachable w -> received w r = Some c -> exists l, c = Normal l) /\
  (forall w w1 context settings p response,
      LlmProviderTs.reachable w ->
      LlmProviderTs.getSuggestions context settings w
      = (LlmProviderTs.AwaitsRequest p, w1) ->
      status response = 500%Z ->
      LlmProviderTs.received
        (LlmProviderTs.settle p (Normal response) w1)
        (LlmProviderTs.AwaitsRequest p) = Some (Normal [])) /\
  (forall w w1 context settings p response,
      reachable w ->
      getSuggestions context settings w = (ReturnsExecuteRequest p, w1) ->
      status response = 500%Z ->
      received (settle p (Normal response) w1) (ReturnsExecuteRequest p)
      = Some (Normal [])).
Proof.
  split; [|split; [|split; [|split; [|split; [|split; [|split]]]]]].
  - intros outcome. destruct (fetchSuggestions_fulfils outcome) as [l Hl].
    exists l. rewrite fetchSuggestions_same. now split.
  - split; reflexivity.
  - intros response Hs. rewrite fetchSuggestions_same.
    split; now apply fetchSuggestions_bad_status.
  - intros response Hu. rewrite fetchSuggestions_same.
    split; apply fetchSuggestions_null_payload;
      now apply resolvePayload_unparsable.
  - intros w r c Hreach. apply ts_received_fulfilled.
    now apply ts_reachable_consistent.
  - intros w r c Hreach. apply received_fulfilled.
    now apply reachable_consistent.
  - intros w w1 context settings p response Hreach Hcall Hs.
    rewrite (ts_first_caller_receives w w1 context settings p _ Hreach Hcall).
    f_equal. rewrite fetchSuggestions_same.
    apply fetchSuggestions_bad_status. lia.
  - intros w w1 context settings p response Hreach Hcall Hs.
    rewrite (first_caller_receives w w1 context settings p _ Hreach Hcall).
    f_equal. apply fetchSuggestions_bad_status. lia.
Qed.

(** C7, amended.  A call that gets past the enabled test either finds
    its key as the cached key or leaves it as the key in flight or as
    the pending key.  The key joins, with the sentinel, the clipped
    context, the separator, the model and the temperature printed with
    three decimals; requests that agree on these four strings (as they
    do when their temperatures are equal numbers) agree on the key, and
    when the separator and the model hold no sentinel, requests that
    agree on the key agree on the context, whatever it holds, on the
    separator, the model and the printed temperature.  In
    [llm_provider.ts] the key joins the text before the cursor and the
    separator only, and when the texts or the separators hold no
    sentinel two requests agree on it exactly when they agree on these
    two. *)
Theorem C7_request_key :
  (forall context settings w,
      isEnabled (getLLMProviderSettings settings) = true ->
      let key := requestKey context settings in
      let w' := snd (getSuggestions context settings w) in
      (keyIs (cacheKey (this w)) key = true /\ w' = w) \/
      inflightKey (this w') = Some key \/
      pendingKey (this w') = Some key) /\
  (forall context settings,
      requestKey context settings
      = join CACHE_SEPARATOR
          [clipContext
             (readLimitedContext context CHAT_COMPLETION_CONTEXT_LIMIT)
             CHAT_COMPLETION_CONTEXT_LIMIT;
           orEmptyString (separatorChar context);
           orEmptyString (resolveModel (getLLMProviderSettings settings));
           toFixed3 (resolveTemperature
                       (temperature (getLLMProviderSettings settings)))]) /\
  (forall clipped separator1 separator2 model1 model2 (t1 t2 : Q),
      orEmptyString separator1 = orEmptyString separator2 ->
      orEmptyString model1 = orEmptyString model2 ->
      t1 == t2 \/ toFixed3 t1 = toFixed3 t2 ->
      createCacheKey clipped separator1 model1 t1
      = createCacheKey clipped separator2 model2 t2) /\
  (forall clipped1 clipped2 separator1 separator2 model1 model2 (t1 t2 : Q),
      ~ In 9246%N (orEmptyString separator1) ->
      ~ In 9246%N (orEmptyString separator2) ->
      ~ In 9246%N (orEmptyString model1) ->
      ~ In 9246%N (orEmptyString model2) ->
      createCacheKey clipped1 separator1 model1 t1
      = createCacheKey clipped2 separator2 model2 t2 ->
      clipped1 = clipped2 /\
      orEmptyString separator1 = orEmptyString separator2 /\
      orEmptyString model1 = orEmptyString model2 /\
      toFixed3 t1 = toFixed3 t2) /\
  (forall context1 context2,
      (~ In 9246%N (textBeforeCursor context1) /\
       ~ In 9246%N (textBeforeCursor context2)) \/
      (~ In 9246%N (orEmptyString (separatorChar context1)) /\
       ~ In 9246%N (orEmptyString (separatorChar context2))) ->
      (LlmProviderTs.requestKey context1 = LlmProviderTs.requestKey context2
       <-> textBeforeCursor context1 = textBeforeCursor context2 /\
           orEmptyString (separatorChar context1)
           = orEmptyString (separatorChar context2))).
Proof.
  split; [|split; [|split; [|split]]].
  - intros context settings w E key w'. subst w'.
    destruct (cachedSuggestionsFor w key) as [cached|] eqn:Hc.
    { left. rewrite (getSuggestions_cached context settings w cached E Hc).
      split; [|reflexivity]. unfold cachedSuggestionsFor in Hc.
      destruct (keyIs (cacheKey (this w)) key); [reflexivity|discriminate]. }
    right. destruct (inflightPromise (this w)) as [q|] eqn:Hq.
    + destruct (keyIs (inflightKey (this w)) key) eqn:Hk.
      * left. destruct (inflightKey (this w)) as [k|] eqn:Hik;
          [|discriminate].
        apply keyIs_Some in Hk. subst k.
        now rewrite (getSuggestions_coalesces context settings w q E Hc Hq Hik).
      * right.
        now rewrite (getSuggestions_parks context settings w q E Hc Hq Hk).
    + left. now rewrite (getSuggestions_executes context settings w E Hc Hq).
  - reflexivity.
  - intros clipped separator1 separator2 model1 model2 t1 t2 Hs Hm Ht.
    assert (Hprint : toFixed3 t1 = toFixed3 t2)
      by (destruct Ht as [Ht | Ht]; [now apply toFixed3_comp | exact Ht]).
    now rewrite !createCacheKey_eq, Hs, Hm, Hprint.
  - intros clipped1 clipped2 separator1 separator2 model1 model2 t1 t2
           Hs1 Hs2 Hm1 Hm2 Hkey.
    now apply createCacheKey_inj.
  - intros context1 context2 Hfree.
    unfold LlmProviderTs.requestKey, LlmProviderTs.createCacheKey. split.
    + intros Hkey. destruct Hfree as [[H1 H2] | [H1 H2]].
      * now apply split_at_sentinel in Hkey.
      * now apply split_at_last_sentinel in Hkey.
    + intros [-> ->]. reflexivity.
Qed.

End LlmFailures.

(* ================================================================== *)
(** * The LLM provider: settings, clipping and the request cache *)
(* ================================================================== *)

Section TrimFacts.

Lemma trimStart_split (s : jsstring) :
  exists blank,
    s = blank ++ trimStart s /\ forallb isWhiteSpace blank = true.
Proof.
  induction s as [|c s [blank [Hs Hb]]].
  - now exists [].
  - simpl. destruct (isWhiteSpace c) eqn:Ec.
    + exists (c :: blank). simpl. rewrite Ec, Hb. split; [|reflexivity].
      now rewrite <- Hs.
    + now exists [].
Qed.

Lemma trimStart_head (s : jsstring) c r :
  trimStart s = c :: r -> isWhiteSpace c = false.
Proof.
  induction s as [|d s IH]; simpl; [discriminate|].
  destruct (isWhiteSpace d) eqn:Ed; [exact IH|].
  intros H. injection H as -> _. exact Ed.
Qed.

Lemma trimStart_fixed (s : jsstring) :
  match s with
  | c :: _ => isWhiteSpace c = false
  | [] => True
  end -> trimStart s = s.
Proof. destruct s as [|c s]; simpl; [reflexivity|]. now intros ->. Qed.

Lemma trimStart_idem (s : jsstring) : trimStart (trimStart s) = trimStart s.
Proof.
  apply trimStart_fixed. destruct (trimStart s) as [|c r] eqn:E; [exact I|].
  now apply trimStart_head in E.
Qed.

Lemma trimStart_blank (s : jsstring) :
  forallb isWhiteSpace s = true -> trimStart s = [].
Proof.
  induction s as [|c s IH]; simpl; [reflexivity|].
  intros H. apply andb_true_iff in H. destruct H as [-> H]. now apply IH.
Qed.

Lemma trimStart_nil (s : jsstring) :
  trimStart s = [] -> forallb isWhiteSpace s = true.
Proof.
  destruct (trimStart_split s) as [blank [Hs Hb]]. intros E.
  rewrite E, app_nil_r in Hs. now subst s.
Qed.

(** [trim] leaves nothing to trim. *)
Lemma trim_idem (s : jsstring) : trim (trim s) = trim s.
Proof.
  unfold trim. set (a := trimStart s). set (b := trimStart (rev a)).
  assert (Hb : trimStart (rev b) = rev b).
  { apply trimStart_fixed. destruct (rev b) as [|c r] eqn:E; [exact I|].
    destruct (trimStart_split (rev a)) as [blank [Ha _]]. fold b in Ha.
    apply (f_equal (@rev _)) in Ha.
    rewrite rev_involutive, rev_app_distr, E in Ha. simpl in Ha.
    apply (trimStart_head s c (r ++ rev blank)). exact Ha. }
  rewrite Hb, rev_involutive. unfold b. now rewrite trimStart_idem.
Qed.

Lemma trim_nil (s : jsstring) :
  trim s = [] <-> forallb isWhiteSpace s = true.
Proof.
  unfold trim. split.
  - intros H. apply (f_equal (@rev _)) in H. rewrite rev_involutive in H.
    simpl in H. apply trimStart_nil in H.
    rewrite forallb_forall in H.
    destruct (trimStart_split s) as [blank [Hs Hb]].
    rewrite Hs, forallb_app, Hb. simpl.
    apply forallb_forall. intros c Hc. apply H. now apply in_rev in Hc.
  - intros H. now rewrite (trimStart_blank s H).
Qed.

Lemma nonEmpty_trim (s : jsstring) :
  LlmSuggestionProvider.nonEmpty (trim s) = negb (forallb isWhiteSpace s).
Proof.
  destruct (forallb isWhiteSpace s) eqn:E.
  - apply trim_nil in E. now rewrite E.
  - destruct (trim s) eqn:Et; [|reflexivity].
    apply trim_nil in Et. congruence.
Qed.

End TrimFacts.

Section LlmHelpers.
Context {B : StringBuiltins} {J : JsonBuiltins}.
Import LlmSuggestionProvider.

Lemma clipContext_length (priorText : jsstring) (limit : nat) :
  length (clipContext priorText limit) <= limit.
Proof.
  unfold clipContext. destruct (Nat.leb_spec (length priorText) limit).
  - assumption.
  - rewrite length_skipn. lia.
Qed.

Lemma clipContext_skipn (priorText : jsstring) (limit : nat) :
  clipContext priorText limit = skipn (length priorText - limit) priorText.
Proof.
  unfold clipContext. destruct (Nat.leb_spec (length priorText) limit) as [H|H];
    [|reflexivity].
  replace (length priorText - limit) with 0 by lia. reflexivity.
Qed.

Lemma mapGet_mapSet_same m key request :
  mapGet (mapSet m key request) key = Some request.
Proof.
  induction m as [|[k v] m IH]; simpl.
  - now rewrite str_eqb_refl.
  - destruct (str_eqb k key) eqn:E; simpl; now rewrite E.
Qed.

Lemma mapGet_mapSet_other m key request other :
  other <> key ->
  mapGet (mapSet m key request) other = mapGet m other.
Proof.
  intros Hne. induction m as [|[k v] m IH]; simpl.
  - apply str_eqb_neq in Hne.
    destruct (str_eqb key other) eqn:E; [|reflexivity].
    apply str_eqb_eq in E. apply str_eqb_neq in Hne. congruence.
  - destruct (str_eqb k key) eqn:E; simpl.
    + apply str_eqb_eq in E. subst k.
      destruct (str_eqb key other) eqn:E'; [|reflexivity].
      apply str_eqb_eq in E'. congruence.
    + now rewrite IH.
Qed.

Lemma mapSet_absent m key request :
  mapGet m key = None -> mapSet m key request = m ++ [(key, request)].
Proof.
  induction m as [|[k v] m IH]; simpl; [reflexivity|].
  destruct (str_eqb k key); [discriminate|]. intros H. now rewrite IH.
Qed.

Lemma length_mapSet_present m key request v :
  mapGet m key = Some v -> length (mapSet m key request) = length m.
Proof.
  induction m as [|[k v'] m IH]; simpl; [discriminate|].
  destruct (str_eqb k key); [reflexivity|]. intros H. simpl. now rewrite IH.
Qed.

Lemma mapGet_app m1 m2 key :
  mapGet (m1 ++ m2) key
  = match mapGet m1 key with
    | Some v => Some v
    | None => mapGet m2 key
    end.
Proof.
  induction m1 as [|[k v] m1 IH]; simpl; [reflexivity|].
  now destruct (str_eqb k key).
Qed.

Lemma mapGet_skipn_None m key n :
  mapGet m key = None -> mapGet (skipn n m) key = None.
Proof.
  revert m. induction n as [|n IH]; intros [|[k v] m]; simpl; auto.
  destruct (str_eqb k key); [discriminate | apply IH].
Qed.

Lemma mapGet_In m key v : mapGet m key = Some v -> In (key, v) m.
Proof.
  induction m as [|[k v'] m IH]; simpl; [discriminate|].
  destruct (str_eqb k key) eqn:E.
  - apply str_eqb_eq in E. intros H. injection H as ->. left. now subst.
  - intros H. right. now apply IH.
Qed.

Lemma In_mapSet m key request x :
  In x (mapSet m key request) -> In x m \/ x = (key, request).
Proof.
  induction m as [|[k v] m IH]; simpl.
  - intros [<- | []]. now right.
  - destruct (str_eqb k key) eqn:E.
    + apply str_eqb_eq in E. subst k. simpl. intros [<- | H]; auto.
    + simpl. intros [<- | H]; [auto|]. apply IH in H. tauto.
Qed.

Lemma In_skipn (A : Type) n (l : list A) x : In x (skipn n l) -> In x l.
Proof.
  intros H. rewrite <- (firstn_skipn n l). apply in_app_iff. now right.
Qed.

Lemma In_storePreparedRequest m key request x :
  In x (storePreparedRequest m key request) ->
  In x m \/ x = (key, clonePreparedRequest request generated).
Proof.
  unfold storePreparedRequest. intros H. apply In_skipn in H.
  now apply In_mapSet in H.
Qed.

Lemma length_storePreparedRequest m key request :
  length (storePreparedRequest m key request) <= 20.
Proof.
  unfold storePreparedRequest. rewrite length_skipn. lia.
Qed.

End LlmHelpers.

Section LlmPreparation.
Context {B : StringBuiltins} {J : JsonBuiltins}.
Import LlmSuggestionProvider.

(** X12.  The context of a request is the end of the text before the cursor:
    what [readLimitedContext] reads and [clipContext] then clips is the
    text without its first code units, at most [limit] code units long,
    the whole text when it has at most [limit] code units and exactly
    [limit] code units otherwise; the second clipping changes nothing. *)
Theorem request_context_is_text_end (context : SuggestionContext)
    (limit : nat) :
  let clipped := clipContext (readLimitedContext context limit) limit in
  clipped = readLimitedContext context limit /\
  clipped = clipContext (textBeforeCursor context) limit /\
  (exists dropped, textBeforeCursor context = dropped ++ clipped) /\
  length clipped = Nat.min limit (length (textBeforeCursor context)) /\
  (length (textBeforeCursor context) <= limit ->
   clipped = textBeforeCursor context).
Proof.
  cbv zeta. unfold readLimitedContext.
  set (text := textBeforeCursor context).
  assert (Hlen : length (skipn (length text - limit) text)
                 = Nat.min limit (length text))
    by (rewrite length_skipn; lia).
  assert (Hclip : clipContext (skipn (length text - limit) text) limit
                  = skipn (length text - limit) text).
  { unfold clipContext.
    destruct (Nat.leb_spec (length (skipn (length text - limit) text)) limit);
      [reflexivity | lia]. }
  rewrite Hclip. split; [reflexivity|]. split; [now rewrite clipContext_skipn|].
  split; [|split].
  - exists (firstn (length text - limit) text).
    now rewrite firstn_skipn.
  - exact Hlen.
  - intros Hle. replace (length text - limit) with 0 by lia. reflexivity.
Qed.

(** What [resolveTemperature] makes of a finite number or of
    [undefined]. *)
Lemma resolveTemperature_finite (value : option Q) :
  (0 <= resolveTemperature value /\ resolveTemperature value <= 2)%Q /\
  (forall v, value = Some v ->
     ((0 <= v /\ v <= 2)%Q -> (resolveTemperature value == v)%Q) /\
     ((v <= 0)%Q -> (resolveTemperature value == 0)%Q) /\
     ((2 <= v)%Q -> (resolveTemperature value == 2)%Q)) /\
  (value = None -> resolveTemperature value = DEFAULT_CHAT_TEMPERATURE).
Proof.
  assert (Hnot : forall a b : Q, Qle_bool a b = false -> (b < a)%Q).
  { intros a b H. apply Qnot_le_lt. intros Hle.
    apply Qle_bool_iff in Hle. congruence. }
  destruct value as [v|]; simpl.
  - split; [|split; [|discriminate]].
    + destruct (Qle_bool 2 v) eqn:E2.
      * simpl. split; [discriminate | apply Qle_refl].
      * apply Hnot in E2. destruct (Qle_bool v 0) eqn:E0.
        -- split; [apply Qle_refl | discriminate].
        -- apply Hnot in E0. split; apply Qlt_le_weak; assumption.
    + intros v' Hv. injection Hv as <-.
      destruct (Qle_bool 2 v) eqn:E2.
      * apply Qle_bool_iff in E2. simpl. split; [|split].
        -- intros [_ Hle]. symmetry. now apply Qle_antisym.
        -- intros Hle. exfalso.
           apply (Qle_not_lt _ _ (Qle_trans _ _ _ E2 Hle)). reflexivity.
        -- intros _. reflexivity.
      * apply Hnot in E2. destruct (Qle_bool v 0) eqn:E0.
        -- apply Qle_bool_iff in E0. split; [|split].
           ++ intros [Hle _]. now apply Qle_antisym.
           ++ intros _. reflexivity.
           ++ intros Hle. exfalso. now apply (Qle_not_lt _ _ Hle).
        -- apply Hnot in E0. split; [|split].
           ++ intros _. reflexivity.
           ++ intros Hle. exfalso. now apply (Qle_not_lt _ _ Hle).
           ++ intros Hle. exfalso. now apply (Qle_not_lt _ _ Hle).
  - split; [split; discriminate|]. split; [discriminate|reflexivity].
Qed.

(** X13.  [resolveTemperature] returns a finite number from 0 to 2 for
    every argument: a finite number in that range is returned as it is,
    one below 0 and minus infinity give 0, one above 2 and plus infinity
    give 2, and [undefined] and [NaN] give the default 0.7.  On the
    values that [getLLMProviderSettings] hands on, which are the finite
    temperature or [undefined] for a stored temperature that is not
    finite, the method is the function of the same name that the
    requests are built with; so a stored temperature that is not finite
    leads to 0.7. *)
Theorem resolveTemperature_clamps (value : option Numbers.JsNumber) :
  (exists t, Numbers.resolveTemperature value = Numbers.Finite t /\
             (0 <= t /\ t <= 2)%Q) /\
  (forall v, value = Some (Numbers.Finite v) ->
     Numbers.resolveTemperature value
     = Numbers.Finite (resolveTemperature (Some v)) /\
     ((0 <= v /\ v <= 2)%Q -> (resolveTemperature (Some v) == v)%Q) /\
     ((v <= 0)%Q -> (resolveTemperature (Some v) == 0)%Q) /\
     ((2 <= v)%Q -> (resolveTemperature (Some v) == 2)%Q)) /\
  (value = Some Numbers.PosInfinity ->
   Numbers.resolveTemperature value = Numbers.Finite (2 # 1)) /\
  (value = Some Numbers.NegInfinity ->
   Numbers.resolveTemperature value = Numbers.Finite (0 # 1)) /\
  (value = None \/ value = Some Numbers.NaN ->
   Numbers.resolveTemperature value
   = Numbers.Finite DEFAULT_CHAT_TEMPERATURE) /\
  Numbers.resolveTemperature
    (option_map Numbers.Finite (Numbers.finiteOrUndefined value))
  = Numbers.Finite (resolveTemperature (Numbers.finiteOrUndefined value)) /\
  ((forall v, value <> Some (Numbers.Finite v)) ->
   resolveTemperature (Numbers.finiteOrUndefined value)
   = DEFAULT_CHAT_TEMPERATURE).
Proof.
  assert (Hfinite : forall v,
             Numbers.resolveTemperature (Some (Numbers.Finite v))
             = Numbers.Finite (resolveTemperature (Some v))).
  { intros v. cbn. destruct (Qle_bool 2 v); cbn.
    - reflexivity.
    - now destruct (Qle_bool v 0). }
  split; [|split; [|split; [|split; [|split; [|split]]]]].
  - destruct value as [[v| | |]|].
    + rewrite Hfinite. eexists. split; [reflexivity|].
      apply (resolveTemperature_finite (Some v)).
    + exists (2 # 1). split; [reflexivity|]. split; discriminate.
    + exists (0 # 1). split; [reflexivity|]. split; discriminate.
    + exists DEFAULT_CHAT_TEMPERATURE. split; [reflexivity|].
      split; discriminate.
    + exists DEFAULT_CHAT_TEMPERATURE. split; [reflexivity|].
      split; discriminate.
  - intros v ->. split; [apply Hfinite|].
    now apply (proj1 (proj2 (resolveTemperature_finite (Some v)))).
  - intros ->. reflexivity.
  - intros ->. reflexivity.
  - intros [-> | ->]; reflexivity.
  - destruct value as [[v| | |]|]; try reflexivity. apply Hfinite.
  - intros Hno. destruct value as [[v| | |]|]; try reflexivity.
    exfalso. now apply (Hno v).
Qed.

(** X14.  [storePreparedRequest] keeps at most twenty prepared requests.  On a
    map of at most twenty entries the request stored under a key is the
    one a lookup of that key finds, marked as generated; the other keys
    keep their requests unless the map was full and the key is new, in
    which case exactly the oldest entry is dropped. *)
Theorem storePreparedRequest_bounded
    (m : list (jsstring * PreparedRequest)) (key : jsstring)
    (request : PreparedRequest) :
  let stored := clonePreparedRequest request generated in
  length (storePreparedRequest m key request) <= 20 /\
  (length m <= 20 ->
   mapGet (storePreparedRequest m key request) key = Some stored) /\
  (length m < 20 \/ (length m = 20 /\ mapGet m key <> None) ->
   forall other,
     other <> key ->
     mapGet (storePreparedRequest m key request) other = mapGet m other) /\
  (length m = 20 -> mapGet m key = None ->
   storePreparedRequest m key request = skipn 1 m ++ [(key, stored)]).
Proof.
  cbv zeta. split; [apply length_storePreparedRequest|].
  unfold storePreparedRequest.
  set (stored := clonePreparedRequest request generated).
  destruct (mapGet m key) as [v|] eqn:Hget.
  - rewrite (length_mapSet_present m key stored v Hget).
    split; [|split].
    + intros Hle. replace (length m - 20) with 0 by lia.
      apply mapGet_mapSet_same.
    + intros Hlen other Hne. replace (length m - 20) with 0 by lia.
      now apply mapGet_mapSet_other.
    + discriminate.
  - rewrite (mapSet_absent m key stored Hget), length_app. simpl.
    split; [|split].
    + intros Hle.
      rewrite (skipn_app (length m + 1 - 20) m [(key, stored)]), mapGet_app.
      rewrite mapGet_skipn_None by assumption.
      replace (length m + 1 - 20 - length m) with 0 by lia.
      simpl. now rewrite str_eqb_refl.
    + intros [Hlt | [_ Hsome]] other Hne; [|congruence].
      replace (length m + 1 - 20) with 0 by lia. simpl.
      rewrite mapGet_app. destruct (mapGet m other); [reflexivity|].
      simpl. destruct (str_eqb key other) eqn:E; [|reflexivity].
      apply str_eqb_eq in E. congruence.
    + intros Hlen _. rewrite Hlen. change (20 + 1 - 20) with 1.
      rewrite (skipn_app 1 m [(key, stored)]), Hlen. reflexivity.
Qed.

(** X15.  [getLLMProviderSettings] and [isEnabled]: the provider is enabled
    exactly when the switch is on and the URL holds a character that is
    not white space; the end point is the trimmed URL; the model is the
    trimmed model name, or absent when that is empty; the API key is
    absent when it is blank and otherwise kept as typed, white space
    included, and so it goes into the [Authorization] header; a time-out
    is kept only when it is positive. *)
Theorem provider_settings_normalised (settings : CompletrSettings) :
  let providerSettings := getLLMProviderSettings settings in
  isEnabled providerSettings
  = llmProviderEnabled settings
    && negb (forallb isWhiteSpace (llmApiUrl settings)) /\
  endpoint providerSettings = trim (llmApiUrl settings) /\
  trim (endpoint providerSettings) = endpoint providerSettings /\
  model providerSettings
  = (if forallb isWhiteSpace (llmModel settings) then None
     else Some (trim (llmModel settings))) /\
  apiKey providerSettings
  = (if forallb isWhiteSpace (llmApiKey settings) then None
     else Some (llmApiKey settings)) /\
  (forall request,
      authorization (requestUrlParam providerSettings request)
      = if forallb isWhiteSpace (llmApiKey settings) then None
        else Some (js "Bearer " ++ llmApiKey settings)) /\
  (forall t, timeout providerSettings = Some t ->
             (0 < t)%Q /\ llmRequestTimeout settings = Some t).
Proof.
  cbv zeta. unfold isEnabled, getLLMProviderSettings.
  cbn [enabled endpoint model apiKey timeout].
  rewrite trim_idem, !nonEmpty_trim.
  split; [reflexivity|]. split; [reflexivity|]. split; [reflexivity|].
  split; [now destruct (forallb isWhiteSpace (llmModel settings))|].
  split; [now destruct (forallb isWhiteSpace (llmApiKey settings))|].
  split.
  - intros request. unfold requestUrlParam. cbn [authorization apiKey].
    destruct (forallb isWhiteSpace (llmApiKey settings)) eqn:E;
      [reflexivity|].
    simpl. destruct (llmApiKey settings); [discriminate | reflexivity].
  - intros t. destruct (llmRequestTimeout settings) as [t'|]; [|discriminate].
    destruct (Qle_bool t' 0) eqn:E; [discriminate|].
    intros H. injection H as <-. split; [|reflexivity].
    apply Qnot_le_lt. intros Hle. apply Qle_bool_iff in Hle. congruence.
Qed.

End LlmPreparation.

(* ================================================================== *)
(** * The LLM provider: what every run keeps true *)
(* ================================================================== *)

Section LlmInvariants.
Context {B : StringBuiltins} {J : JsonBuiltins}.
Import LlmSuggestionProvider.

(** A prepared request belongs to a key when the key is made of the
    request's own context, model and temperature, and it is well
    prepared when its body is the chat payload of these and its context
    is within the limit. *)
Let keyed (key : jsstring) (request : PreparedRequest) : Prop :=
  exists separator,
    key = createCacheKey (clippedContext request) separator
            (request_model request) (request_temperature request).

Let prepared (request : PreparedRequest) : Prop :=
  body request
  = body (prepareChatCompletionRequest (clippedContext request)
            (request_model request) (request_temperature request)) /\
  length (clippedContext request) <= CHAT_COMPLETION_CONTEXT_LIMIT.

Let sound (key : jsstring) (request : PreparedRequest) : Prop :=
  keyed key request /\ prepared request.

Let callSound (call : NetworkCall) : Prop :=
  sound (call_key call) (args_request (call_args call)) /\
  call_param call
  = requestUrlParam (args_settings (call_args call))
                    (args_request (call_args call)).

Let wellFormed (w : World) : Prop :=
  (forall p, length (requests w) <= p -> settlement (settled w) p = None) /\
  length (requestCache (this w)) <= 20 /\
  (forall p,
      p < length (requests w) -> settlement (settled w) p = None ->
      inflightPromise (this w) = Some p) /\
  (forall p,
      inflightPromise (this w) = Some p ->
      settlement (settled w) p = None /\
      exists call,
        nth_error (requests w) p = Some call /\
        inflightKey (this w) = Some (call_key call)) /\
  (forall key request,
      In (key, request) (requestCache (this w)) -> sound key request) /\
  (forall call, In call (requests w) -> callSound call) /\
  (forall key args,
      pendingKey (this w) = Some key -> pendingArgs (this w) = Some args ->
      sound key (args_request args)).

Lemma sound_clone key request source :
  sound key request -> sound key (clonePreparedRequest request source).
Proof. intros H. exact H. Qed.

Lemma preparedFor_sound context settings w :
  wellFormed w ->
  sound (requestKey context settings)
        (args_request (preparedFor context settings w)).
Proof.
  intros (_ & _ & _ & _ & Hcache & _). unfold preparedFor.
  cbn [args_request].
  destruct (mapGet (requestCache (this w)) (requestKey context settings))
    as [cachedRequest|] eqn:Hget.
  - apply sound_clone, Hcache. now apply mapGet_In.
  - split.
    + exists (separatorChar context). reflexivity.
    + split; [reflexivity|]. apply clipContext_length.
Qed.

Lemma executeRequest_wellFormed key args w :
  wellFormed w ->
  inflightPromise (this w) = None ->
  sound key (args_request args) ->
  wellFormed (snd (executeRequest key args w)).
Proof.
  intros (H0 & H1 & H2 & H3 & H4 & H5 & H6) Hidle Hsound.
  unfold executeRequest. cbn [snd].
  split; [|split; [|split; [|split; [|split; [|split]]]]];
    cbn [this requests settled requestCache inflightPromise inflightKey
         pendingKey pendingArgs].
  - intros p Hp. rewrite length_app in Hp. apply H0. lia.
  - exact H1.
  - intros p Hp Hs. rewrite length_app in Hp. simpl in Hp.
    destruct (Nat.eq_dec p (length (requests w))) as [->|Hne];
      [reflexivity|].
    rewrite (H2 p) in Hidle by (assumption || lia). discriminate.
  - intros p Hp. injection Hp as <-. split; [now apply H0|].
    eexists. split; [apply nth_error_last | reflexivity].
  - exact H4.
  - intros call Hin. apply in_app_iff in Hin.
    destruct Hin as [Hin | [<- | []]]; [now apply H5|].
    split; [exact Hsound | reflexivity].
  - exact H6.
Qed.

Lemma processPending_wellFormed w :
  wellFormed w ->
  inflightPromise (this w) = None ->
  wellFormed (processPending w).
Proof.
  intros Hw Hidle. unfold processPending. rewrite Hidle.
  destruct (pendingKey (this w)) as [[|c k]|] eqn:Ek; try exact Hw.
  destruct (pendingArgs (this w)) as [nextArgs|] eqn:Ea; [|exact Hw].
  destruct Hw as (H0 & H1 & H2 & H3 & H4 & H5 & H6).
  apply executeRequest_wellFormed; [|reflexivity | now apply H6].
  split; [|split; [|split; [|split; [|split; [|split]]]]];
    cbn [this requests settled requestCache inflightPromise inflightKey
         pendingKey pendingArgs]; try assumption; try discriminate.
  intros p Hp Hs. rewrite <- Hidle. now apply H2.
Qed.

Lemma fulfilled_wellFormed w p call l :
  wellFormed w ->
  settlement (settled w) p = None ->
  nth_error (requests w) p = Some call ->
  wellFormed (fulfilled w p (call_key call) (call_args call) l).
Proof.
  intros (H0 & H1 & H2 & H3 & H4 & H5 & H6) Hs Hn.
  assert (Hp : p < length (requests w))
    by (apply nth_error_Some; congruence).
  unfold fulfilled.
  split; [|split; [|split; [|split; [|split; [|split]]]]];
    cbn [this requests settled requestCache inflightPromise inflightKey
         pendingKey pendingArgs].
  - intros p' Hp'. simpl.
    destruct (Nat.eqb_spec p p') as [->|Hne]; [lia | now apply H0].
  - apply length_storePreparedRequest.
  - intros p' Hp' Hs'. simpl in Hs'.
    destruct (Nat.eqb_spec p p') as [->|Hne]; [discriminate|].
    pose proof (H2 p' Hp' Hs') as Hq. pose proof (H2 p Hp Hs) as Hq'.
    congruence.
  - discriminate.
  - intros key request Hin. apply In_storePreparedRequest in Hin.
    destruct Hin as [Hin | Hin]; [now apply H4|].
    injection Hin as -> ->.
    apply nth_error_In in Hn. destruct (H5 call Hn) as [Hsound _].
    exact Hsound.
  - exact H5.
  - exact H6.
Qed.

Lemma getSuggestions_wellFormed context settings w :
  wellFormed w -> wellFormed (snd (getSuggestions context settings w)).
Proof.
  intros Hw.
  destruct (isEnabled (getLLMProviderSettings settings)) eqn:E.
  2:{ now rewrite getSuggestions_disabled. }
  destruct (cachedSuggestionsFor w (requestKey context settings))
    as [cached|] eqn:Hc.
  { now rewrite (getSuggestions_cached context settings w cached). }
  destruct (inflightPromise (this w)) as [q|] eqn:Hq.
  - destruct (keyIs (inflightKey (this w)) (requestKey context settings))
      eqn:Hk.
    + destruct (inflightKey (this w)) as [k|] eqn:Hik; [|discriminate].
      apply keyIs_Some in Hk. subst k.
      now rewrite (getSuggestions_coalesces context settings w q).
    + rewrite (getSuggestions_parks context settings w q) by assumption.
      pose proof (preparedFor_sound context settings w Hw) as Hsound.
      destruct Hw as (H0 & H1 & H2 & H3 & H4 & H5 & H6).
      unfold parked.
      split; [|split; [|split; [|split; [|split; [|split]]]]];
        cbn [snd this requests settled requestCache inflightPromise
             inflightKey pendingKey pendingArgs]; try assumption.
      intros key args Hkey Hargs. injection Hkey as <-.
      injection Hargs as <-. exact Hsound.
  - rewrite getSuggestions_executes by assumption.
    apply executeRequest_wellFormed; [exact Hw | exact Hq |].
    now apply preparedFor_sound.
Qed.

Lemma settle_wellFormed p outcome w :
  wellFormed w -> wellFormed (settle p outcome w).
Proof.
  intros Hw.
  destruct (settlement (settled w) p) as [c|] eqn:Hs.
  { unfold settle. now rewrite Hs. }
  destruct (nth_error (requests w) p) as [call|] eqn:Hn.
  2:{ unfold settle. now rewrite Hs, Hn. }
  assert (Hp : p < length (requests w))
    by (apply nth_error_Some; congruence).
  assert (Hkey : inflightKey (this w) = Some (call_key call)).
  { destruct Hw as (_ & _ & H2 & H3 & _).
    destruct (H3 p (H2 p Hp Hs)) as [_ [call' [Hn' Hk]]]. congruence. }
  destruct (settle_inflight p outcome w call Hs Hn Hkey) as [l [_ ->]].
  apply processPending_wellFormed; [|reflexivity].
  now apply fulfilled_wellFormed.
Qed.

Lemma initial_wellFormed : wellFormed initial.
Proof.
  split; [|split; [|split; [|split; [|split; [|split]]]]]; simpl;
    try discriminate; try (intros; lia); try reflexivity; intros; tauto.
Qed.

Lemma reachable_wellFormed w : reachable w -> wellFormed w.
Proof.
  intros [events ->]. unfold run.
  generalize initial_wellFormed. generalize initial.
  induction events as [|e events IH]; intros w Hw; [exact Hw|].
  simpl. apply IH. destruct e as [context settings | p outcome]; simpl.
  - now apply getSuggestions_wellFormed.
  - now apply settle_wellFormed.
Qed.

(** X16.  At any time at most one request of the provider with the pending
    slot awaits its response: a request that was made and has not
    settled is the one in flight, and the request in flight was made and
    has not settled. *)
Theorem one_request_in_flight (w : World) (p : PromiseId) :
  reachable w ->
  (p < length (requests w) /\ settlement (settled w) p = None
   <-> inflightPromise (this w) = Some p).
Proof.
  intros Hreach. apply reachable_wellFormed in Hreach.
  destruct Hreach as (_ & _ & H2 & H3 & _). split.
  - intros [Hp Hs]. now apply H2.
  - intros Hq. destruct (H3 p Hq) as [Hs [call [Hn _]]].
    split; [|exact Hs]. apply nth_error_Some. congruence.
Qed.

(** X17.  The request cache never holds more than twenty prepared requests,
    and each of them is stored under the key made of its own context,
    model and temperature. *)
Theorem request_cache_bounded (w : World) :
  reachable w ->
  length (requestCache (this w)) <= 20 /\
  forall key request,
    In (key, request) (requestCache (this w)) ->
    exists separator,
      key = createCacheKey (clippedContext request) separator
              (request_model request) (request_temperature request).
Proof.
  intros Hreach. apply reachable_wellFormed in Hreach.
  destruct Hreach as (_ & H1 & _ & _ & H4 & _). split; [exact H1|].
  intros key request Hin. now destruct (H4 key request Hin).
Qed.

(** X18.  Every request the provider sends, whether its body was generated
    for the call or taken from the request cache, carries the chat
    payload of the very context, model and temperature its key is made
    of, and that context has at most 6000 code units. *)
Theorem request_body_matches_key (w : World) (call : NetworkCall) :
  reachable w ->
  In call (requests w) ->
  let request := args_request (call_args call) in
  (exists separator,
      call_key call
      = createCacheKey (clippedContext request) separator
          (request_model request) (request_temperature request)) /\
  request_body (call_param call)
  = body (prepareChatCompletionRequest (clippedContext request)
            (request_model request) (request_temperature request)) /\
  length (clippedContext request) <= CHAT_COMPLETION_CONTEXT_LIMIT.
Proof.
  intros Hreach Hin. apply reachable_wellFormed in Hreach.
  destruct Hreach as (_ & _ & _ & _ & _ & H5 & _).
  destruct (H5 call Hin) as [[Hkeyed [Hbody Hlen]] Hparam].
  cbv zeta. split; [exact Hkeyed|]. split; [|exact Hlen].
  rewrite Hparam. exact Hbody.
Qed.

End LlmInvariants.

(* ================================================================== *)
(** * The LLM provider: calls for the key in flight *)
(* ================================================================== *)

Section LlmCoalescing.
Context {B : StringBuiltins} {J : JsonBuiltins}.
Import LlmSuggestionProvider.






Lemma reachable_run (events : list Event) (w : World) :
  reachable w -> reachable (run events w).
Proof.
  intros [before ->]. exists (before ++ events). unfold run.
  now rewrite fold_left_app.
Qed.





(** ** The provider of [llm_provider.ts] *)







End LlmCoalescing.

(* ================================================================== *)
(** * The LLM provider: the response cache and the responses *)
(* ================================================================== *)

Section LlmResponses.
Context {B : StringBuiltins} {J : JsonBuiltins}.
Import LlmSuggestionProvider.

Lemma processPending_cache w :
  cacheKey (this (processPending w)) = cacheKey (this w) /\
  cacheValue (this (processPending w)) = cacheValue (this w).
Proof.
  unfold processPending.
  destruct (inflightPromise (this w)), (pendingKey (this w)) as [[|c k]|],
    (pendingArgs (this w)); now split.
Qed.

(** X19.  Once the request in flight has settled, a call that computes its
    key is answered from the response cache with the list the request
    produced, the empty list of a failed request included, and nothing
    changes: no request is made for that key again while it is the
    cached key. *)
Theorem settled_request_is_cached
    (w : World) (p : PromiseId) (key : jsstring)
    (outcome : RequestUrlOutcome) :
  reachable w ->
  inflightPromise (this w) = Some p ->
  inflightKey (this w) = Some key ->
  exists l,
    fetchSuggestions outcome = Normal l /\
    cacheKey (this (settle p outcome w)) = Some key /\
    forall context settings,
      isEnabled (getLLMProviderSettings settings) = true ->
      requestKey context settings = key ->
      getSuggestions context settings (settle p outcome w)
      = (ReturnsArray l, settle p outcome w).
Proof.
  intros Hreach Hp Hkey.
  pose proof (reachable_wellFormed w Hreach) as (_ & _ & _ & H3 & _).
  destruct (H3 p Hp) as [Hs [call [Hn Hk]]].
  assert (Hcall : call_key call = key) by congruence.
  rewrite <- Hcall in Hkey.
  destruct (settle_inflight p outcome w call Hs Hn Hkey) as [l [Hl Hsettle]].
  exists l. split; [exact Hl|]. rewrite Hsettle.
  destruct (processPending_cache
              (fulfilled w p (call_key call) (call_args call) l))
    as [Hck Hcv].
  split; [now rewrite Hck, <- Hcall|].
  intros context settings E Hrk.
  rewrite (getSuggestions_cached context settings _
             {| suggestions := l;
                cached_request :=
                  clonePreparedRequest (args_request (call_args call))
                    (source (args_request (call_args call))) |} E);
    [reflexivity|].
  unfold cachedSuggestionsFor. rewrite Hck, Hcv, Hrk, <- Hcall.
  cbn [fulfilled this cacheKey cacheValue]. now rewrite keyIs_same.
Qed.


(** X22.  The provider of [llm_provider.ts] lets a call for another key start
    a second request while the first is in flight.  The response of the
    superseded request then reaches its caller, but it is neither cached
    nor does it clear the marker of the request in flight. *)
Theorem ts_superseded_response_not_cached
    (w w1 w2 : LlmProviderTs.World) (contextA contextB : SuggestionContext)
    (settingsA settingsB : CompletrSettings) (p q : PromiseId)
    (outcome : RequestUrlOutcome) :
  LlmProviderTs.reachable w ->
  LlmProviderTs.getSuggestions contextA settingsA w
  = (LlmProviderTs.AwaitsRequest p, w1) ->
  LlmProviderTs.getSuggestions contextB settingsB w1
  = (LlmProviderTs.AwaitsRequest q, w2) ->
  LlmProviderTs.requestKey contextB <> LlmProviderTs.requestKey contextA /\
  q = S p /\
  settlement (LlmProviderTs.settled w2) p = None /\
  settlement (LlmProviderTs.settled w2) q = None /\
  LlmProviderTs.this (LlmProviderTs.settle p outcome w2)
  = LlmProviderTs.this w2 /\
  LlmProviderTs.inflightKey (LlmProviderTs.this w2)
  = Some (LlmProviderTs.requestKey contextB) /\
  LlmProviderTs.requests (LlmProviderTs.settle p outcome w2)
  = LlmProviderTs.requests w2 /\
  LlmProviderTs.received (LlmProviderTs.settle p outcome w2)
    (LlmProviderTs.AwaitsRequest p)
  = Some (LlmProviderTs.fetchSuggestions outcome).
Proof.
  intros Hreach HcallA HcallB.
  apply ts_reachable_consistent in Hreach.
  assert (Hstart :
            forall context settings v v' r,
              LlmProviderTs.getSuggestions context settings v
              = (LlmProviderTs.AwaitsRequest r, v') ->
              r = length (LlmProviderTs.requests v) /\
              LlmProviderTs.requests v'
              = LlmProviderTs.requests v ++
                [{| LlmProviderTs.call_key :=
                      LlmProviderTs.requestKey context;
                    LlmProviderTs.call_param :=
                      LlmProviderTs.requestUrlParam
                        (getLLMProviderSettings settings)
                        (textBeforeCursor context) |}] /\
              LlmProviderTs.settled v' = LlmProviderTs.settled v /\
              LlmProviderTs.this v'
              = {| LlmProviderTs.cacheKey :=
                     LlmProviderTs.cacheKey (LlmProviderTs.this v);
                   LlmProviderTs.cacheValue :=
                     LlmProviderTs.cacheValue (LlmProviderTs.this v);
                   LlmProviderTs.inflightKey :=
                     Some (LlmProviderTs.requestKey context);
                   LlmProviderTs.inflightPromise := Some r |} /\
              (forall r',
                  LlmProviderTs.inflightPromise (LlmProviderTs.this v)
                  = Some r' ->
                  keyIs (LlmProviderTs.inflightKey (LlmProviderTs.this v))
                        (LlmProviderTs.requestKey context) = false)).
  { intros context settings v v' r H.
    unfold LlmProviderTs.getSuggestions in H.
    destruct (negb (isEnabled (getLLMProviderSettings settings)));
      [discriminate|].
    cbv zeta in H. fold (LlmProviderTs.requestKey context) in H.
    destruct (keyIs (LlmProviderTs.cacheKey (LlmProviderTs.this v)) _);
      [discriminate|].
    destruct (LlmProviderTs.inflightPromise (LlmProviderTs.this v)) as [r0|];
      [destruct (keyIs (LlmProviderTs.inflightKey (LlmProviderTs.this v)) _)
         eqn:Ek; [discriminate|]|];
      injection H as <- <-; repeat split; try reflexivity;
      intros r' Hr'; first [exact Ek | discriminate Hr']. }
  destruct (Hstart _ _ _ _ _ HcallA) as (-> & HreqA & HsetA & HthisA & _).
  destruct (Hstart _ _ _ _ _ HcallB) as (-> & HreqB & HsetB & HthisB & HkB).
  clear Hstart HcallA HcallB.
  assert (HneAB : LlmProviderTs.requestKey contextB
                  <> LlmProviderTs.requestKey contextA).
  { specialize (HkB (length (LlmProviderTs.requests w))).
    rewrite HthisA in HkB. cbn in HkB. specialize (HkB eq_refl).
    apply str_eqb_neq in HkB. congruence. }
  assert (Hfresh : forall r,
             length (LlmProviderTs.requests w) <= r ->
             settlement (LlmProviderTs.settled w) r = None).
  { intros r Hr. destruct (settlement _ r) eqn:E; [|reflexivity].
    apply Hreach in E. lia. }
  split; [exact HneAB|].
  split; [rewrite HreqA, length_app; simpl; lia|].
  split; [rewrite HsetB, HsetA; apply Hfresh; lia|].
  split; [rewrite HsetB, HsetA; apply Hfresh;
          rewrite HreqA, length_app; lia|].
  assert (Hsettle :
            LlmProviderTs.settle (length (LlmProviderTs.requests w))
                                 outcome w2
            = {| LlmProviderTs.this := LlmProviderTs.this w2;
                 LlmProviderTs.requests := LlmProviderTs.requests w2;
                 LlmProviderTs.settled :=
                   (length (LlmProviderTs.requests w),
                    LlmProviderTs.fetchSuggestions outcome)
                     :: LlmProviderTs.settled w2 |}).
  { unfold LlmProviderTs.settle.
    rewrite HsetB, HsetA, (Hfresh _ (Nat.le_refl _)).
    rewrite HreqB, HreqA, nth_error_app1
      by (rewrite length_app; simpl; lia).
    rewrite nth_error_last. cbn [LlmProviderTs.call_key].
    unfold LlmProviderTs.getSuggestions_resume.
    cbn [LlmProviderTs.this LlmProviderTs.inflightKey].
    rewrite HthisB. cbn [LlmProviderTs.inflightKey].
    rewrite (keyIs_other _ _ HneAB).
    destruct (LlmProviderTs.fetchSuggestions outcome);
      cbn [LlmProviderTs.this LlmProviderTs.inflightKey];
      now rewrite (keyIs_other _ _ HneAB). }
  rewrite Hsettle. cbn [LlmProviderTs.this LlmProviderTs.requests].
  split; [reflexivity|]. split; [now rewrite HthisB|].
  split; [reflexivity|]. simpl. now rewrite Nat.eqb_refl.
Qed.

(** X23.  A response with a status from 200 to 299 whose [json] is an array
    yields the strings of the array as verbatim suggestions, in their
    order; entries that are not strings are dropped. *)
Theorem fetchSuggestions_array_payload
    (response : RequestUrlResponse) (items : list JsVal) :
  (200 <= status response < 300)%Z ->
  json response = Holds (VArr items) \/
  json response = HoldsPromise (Normal (VArr items)) ->
  fetchSuggestions (Normal response)
  = Normal (map Suggestion_fromString (filterStrings items)) /\
  LlmProviderTs.fetchSuggestions (Normal response)
  = Normal (map Suggestion_fromString (filterStrings items)).
Proof.
  intros Hstatus Hjson.
  assert (H : fetchSuggestions (Normal response)
              = Normal (map Suggestion_fromString (filterStrings items))).
  { unfold fetchSuggestions, fetchSuggestions_try.
    assert (Hpayload : resolvePayload response = Normal (VArr items)).
    { unfold resolvePayload. destruct Hjson as [-> | ->]; reflexivity. }
    rewrite Hpayload.
    replace ((status response <? 200)%Z || (300 <=? status response)%Z)
      with false.
    2:{ symmetry. apply orb_false_iff.
        split; [apply Z.ltb_ge | apply Z.leb_gt]; lia. }
    simpl. now destruct (filterStrings items). }
  split; exact H.
Qed.

Lemma filterStrings_In (items : list JsVal) (w : jsstring) :
  In w (filterStrings items) <-> In (VStr w) items.
Proof.
  induction items as [|v items IH]; simpl; [tauto|].
  destruct v; simpl; rewrite IH; split;
    try (intros [H | H]; [discriminate H | now auto]); auto.
  - intros [-> | H]; auto.
  - intros [H | H]; [injection H as ->|]; auto.
Qed.

(** X26.  With the switch off or a blank URL the providers answer with the
    empty array at once: no request is made and nothing is recorded. *)
Theorem llm_disabled_answers_empty
    (settings : CompletrSettings) (context : SuggestionContext)
    (w : World) (w' : LlmProviderTs.World) :
  llmProviderEnabled settings = false \/
  forallb isWhiteSpace (llmApiUrl settings) = true ->
  getSuggestions context settings w = (ReturnsArray [], w) /\
  LlmProviderTs.getSuggestions context settings w'
  = (LlmProviderTs.ReturnsArray [], w').
Proof.
  intros H.
  assert (E : isEnabled (getLLMProviderSettings settings) = false).
  { unfold isEnabled, getLLMProviderSettings. cbn [enabled endpoint].
    rewrite trim_idem, nonEmpty_trim.
    destruct H as [-> | ->]; [reflexivity | apply andb_false_r]. }
  split.
  - now apply getSuggestions_disabled.
  - unfold LlmProviderTs.getSuggestions. now rewrite E.
Qed.

End LlmResponses.

Section LlmPending.
Context {B : StringBuiltins} {J : JsonBuiltins}.
Import LlmSuggestionProvider.

(** X20.  When the request in flight settles, the request parked in the
    pending slot is the very next one sent: its call is the only one
    added, it becomes the request in flight and the slot is emptied.
    With nothing parked, nothing is in flight afterwards and no call is
    added. *)
Theorem pending_request_is_served_next
    (w : World) (p : PromiseId) (outcome : RequestUrlOutcome) :
  reachable w ->
  inflightPromise (this w) = Some p ->
  let w' := settle p outcome w in
  (forall key,
      pendingKey (this w) = Some key ->
      exists args,
        pendingArgs (this w) = Some args /\
        requests w'
        = requests w ++
          [{| call_key := key; call_args := args;
              call_param := requestUrlParam (args_settings args)
                                            (args_request args) |}] /\
        inflightKey (this w') = Some key /\
        inflightPromise (this w') = Some (length (requests w)) /\
        pendingKey (this w') = None /\
        pendingArgs (this w') = None) /\
  (pendingKey (this w) = None ->
   requests w' = requests w /\
   inflightKey (this w') = None /\
   inflightPromise (this w') = None /\
   pendingKey (this w') = None).
Proof.
  intros Hreach Hp. cbv zeta.
  pose proof (reachable_consistent w Hreach) as (_ & _ & Hpending).
  pose proof (reachable_wellFormed w Hreach) as (_ & _ & _ & H3 & _).
  destruct (H3 p Hp) as [Hs [call [Hn Hk]]].
  destruct (settle_inflight p outcome w call Hs Hn Hk) as [l [_ ->]].
  split.
  - intros key Hkey. destruct (Hpending key Hkey) as [Hne Hargs].
    destruct key as [|c k]; [congruence|].
    destruct (pendingArgs (this w)) as [args|] eqn:Ea; [|congruence].
    exists args. split; [reflexivity|].
    destruct (processPending_starts
                (fulfilled w p (call_key call) (call_args call) l)
                c k args eq_refl Hkey Ea)
      as (Hreq & _ & Hik & Hip & Hpk & Hpa & _).
    now repeat split.
  - intros Hnone. rewrite processPending_nothing by exact Hnone.
    now repeat split.
Qed.

Lemma trimStart_app_solid (a b : jsstring) (c : code_unit) :
  isWhiteSpace c = false ->
  trimStart (a ++ c :: b) = trimStart a ++ c :: b.
Proof.
  intros Hc. induction a as [|d a IH]; simpl.
  - now rewrite Hc.
  - destruct (isWhiteSpace d); [exact IH | reflexivity].
Qed.

Lemma trim_trimStart (s : jsstring) : trim (trimStart s) = trim s.
Proof. unfold trim. now rewrite trimStart_idem. Qed.

Lemma untilFence_found (a rest : jsstring) :
  (forall c, In c a -> c <> 96%N) ->
  untilFence (a ++ fence ++ rest) = Some a.
Proof.
  intros Ha. induction a as [|c a IH]; [reflexivity|].
  assert (Hc : (96 =? c)%N = false)
    by (apply N.eqb_neq; intros E; apply (Ha c); [now left | now symmetry]).
  change (untilFence ((c :: a) ++ fence ++ rest))
    with (if startsWith (c :: a ++ fence ++ rest) fence then Some []
          else option_map (cons c) (untilFence (a ++ fence ++ rest))).
  replace (startsWith (c :: a ++ fence ++ rest) fence) with false
    by (change fence with [96%N; 96%N; 96%N]; cbn [startsWith];
        now rewrite Hc).
  rewrite IH by (intros d Hd; apply Ha; now right). reflexivity.
Qed.

Lemma In_trimStart (s : jsstring) c : In c (trimStart s) -> In c s.
Proof.
  destruct (trimStart_split s) as [blank [Hs _]]. intros H.
  rewrite Hs. apply in_app_iff. now right.
Qed.

(** X25.  A chat message that consists of one fenced block tagged [json],
    in any case, whose text between the fences holds no back quote and,
    trimmed, parses to an array, yields the strings of that array. *)
Theorem fenced_json_array_is_unwrapped
    (tag inner : jsstring) (items : list JsVal) :
  map asciiLowerUnit tag = js "json" ->
  (forall c, In c inner -> c <> 96%N) ->
  JSON_parse (trim inner) = Some (VArr items) ->
  parseOpenAIContent (fence ++ tag ++ inner ++ fence) = filterStrings items.
Proof.
  intros Htag Hinner Hparse.
  destruct tag as [|t1 [|t2 [|t3 [|t4 [|t5 tag]]]]]; try discriminate.
  set (raw := fence ++ [t1; t2; t3; t4] ++ inner ++ fence).
  assert (Htrim : trim raw = raw).
  { assert (Hrev : trimStart (rev raw) = rev raw).
    { assert (Hsplit : raw
                       = (fence ++ [t1; t2; t3; t4] ++ inner
                          ++ [96%N; 96%N]) ++ [96%N])
        by (unfold raw; rewrite <- !app_assoc; reflexivity).
      rewrite Hsplit, rev_unit. reflexivity. }
    unfold trim. change (trimStart raw) with raw.
    now rewrite Hrev, rev_involutive. }
  assert (Hblock : codeBlockMatch raw = Some (trimStart inner)).
  { assert (Hat : codeBlockAt raw = Some (trimStart inner)).
    { unfold codeBlockAt, raw.
      change (stripPrefix fence (fence ++ [t1; t2; t3; t4] ++ inner ++ fence))
        with (Some ([t1; t2; t3; t4] ++ inner ++ fence)).
      assert (Hskip : skipJsonWord ([t1; t2; t3; t4] ++ inner ++ fence)
                      = inner ++ fence).
      { unfold skipJsonWord. cbn [app]. rewrite Htag. reflexivity. }
      cbv beta iota. rewrite Hskip.
      change (inner ++ fence) with (inner ++ 96%N :: [96%N; 96%N]).
      rewrite trimStart_app_solid by reflexivity.
      change (trimStart inner ++ 96%N :: [96%N; 96%N])
        with (trimStart inner ++ fence ++ []).
      apply untilFence_found. intros c Hc. apply Hinner.
      now apply In_trimStart. }
    unfold raw in *.
    change (codeBlockMatch (fence ++ [t1; t2; t3; t4] ++ inner ++ fence))
      with (match codeBlockAt
                    (fence ++ [t1; t2; t3; t4] ++ inner ++ fence) with
            | Some capture => Some capture
            | None =>
                codeBlockMatch
                  (skipn 1 (fence ++ [t1; t2; t3; t4] ++ inner ++ fence))
            end).
    now rewrite Hat. }
  unfold parseOpenAIContent. fold raw. rewrite Htrim.
  assert (Hraw : exists c r, raw = c :: r) by (eexists; eexists; reflexivity).
  destruct Hraw as [c [r Hraw]]. rewrite Hraw. rewrite <- Hraw.
  rewrite Hblock, trim_trimStart. unfold tryParseJson. now rewrite Hparse.
Qed.

End LlmPending.

(* ================================================================== *)
(** * The LLM provider: the words of a chat message *)
(* ================================================================== *)

Section LlmContent.
Context {J : JsonBuiltins}.
Import LlmSuggestionProvider.

Lemma occursIn_refl (s : jsstring) : occursIn s s.
Proof. exists [], []. now rewrite app_nil_r. Qed.

Lemma occursIn_trans (a b c : jsstring) :
  occursIn a b -> occursIn b c -> occursIn a c.
Proof.
  intros [p [q ->]] [p' [q' ->]]. exists (p' ++ p), (q ++ q').
  now rewrite <- !app_assoc.
Qed.

Lemma occursIn_suffix (a p : jsstring) : occursIn a (p ++ a).
Proof. exists p, []. now rewrite app_nil_r. Qed.

Lemma occursIn_In (a s : jsstring) (c : code_unit) :
  occursIn a s -> In c a -> In c s.
Proof.
  intros [p [q ->]] H. apply in_or_app. right. apply in_or_app. now left.
Qed.

Lemma trim_occursIn (s : jsstring) : occursIn (trim s) s.
Proof.
  unfold trim.
  destruct (trimStart_split s) as [blank [Hs _]].
  destruct (trimStart_split (rev (trimStart s))) as [blank' [Hr _]].
  apply (f_equal (@rev code_unit)) in Hr.
  rewrite rev_involutive, rev_app_distr in Hr.
  exists blank, (rev blank'). now rewrite <- Hr.
Qed.

Lemma stripPrefix_Some (p s r : jsstring) :
  stripPrefix p s = Some r -> s = p ++ r.
Proof.
  revert s. induction p as [|c p IH]; intros [|d s]; simpl;
    try discriminate; try (now intros [= ->]).
  destruct (N.eqb_spec c d) as [->|]; [|discriminate].
  intros H. now rewrite (IH s H).
Qed.

Lemma untilFence_prefix (s capture : jsstring) :
  untilFence s = Some capture -> exists rest, s = capture ++ rest.
Proof.
  revert capture. induction s as [|c s IH]; intros capture.
  - simpl. discriminate.
  - cbn [untilFence]. destruct (startsWith (c :: s) fence).
    + intros [= <-]. now exists (c :: s).
    + destruct (untilFence s) as [k|]; [|discriminate].
      intros [= <-]. destruct (IH k eq_refl) as [rest ->].
      now exists rest.
Qed.

Lemma skipJsonWord_suffix (s : jsstring) :
  exists word, s = word ++ skipJsonWord s.
Proof.
  unfold skipJsonWord.
  destruct s as [|a [|b [|c [|d r]]]]; try (now exists []).
  destruct (str_eqb _ _); [now exists [a; b; c; d] | now exists []].
Qed.

Lemma codeBlockAt_occursIn (s capture : jsstring) :
  codeBlockAt s = Some capture -> occursIn capture s.
Proof.
  unfold codeBlockAt. destruct (stripPrefix fence s) as [r|] eqn:Hr;
    [|discriminate].
  apply stripPrefix_Some in Hr. intros H.
  apply untilFence_prefix in H. destruct H as [rest H].
  destruct (skipJsonWord_suffix r) as [word Hw].
  destruct (trimStart_split (skipJsonWord r)) as [blank [Hb _]].
  exists (fence ++ word ++ blank), rest.
  rewrite Hr, Hw at 1. rewrite Hb at 1. rewrite H.
  now rewrite <- !app_assoc.
Qed.

Lemma codeBlockMatch_occursIn (s capture : jsstring) :
  codeBlockMatch s = Some capture -> occursIn capture s.
Proof.
  induction s as [|c s IH]; cbn [codeBlockMatch].
  - destruct (codeBlockAt []) eqn:E; [|discriminate].
    intros [= <-]. now apply codeBlockAt_occursIn.
  - destruct (codeBlockAt (c :: s)) eqn:E.
    + intros [= <-]. now apply codeBlockAt_occursIn.
    + intros H. apply (occursIn_trans _ s); [now apply IH|].
      apply (occursIn_suffix s [c]).
Qed.

Lemma codeBlockMatch_none (s : jsstring) :
  ~ In 96%N s -> codeBlockMatch s = None.
Proof.
  assert (Hat : forall t, ~ In 96%N t -> codeBlockAt t = None).
  { intros t Ht. unfold codeBlockAt.
    destruct (stripPrefix fence t) as [r|] eqn:Hr; [|reflexivity].
    apply stripPrefix_Some in Hr. exfalso. apply Ht. rewrite Hr. now left. }
  induction s as [|c s IH]; intros H; cbn [codeBlockMatch];
    rewrite (Hat _ H); [reflexivity|].
  apply IH. intros Hin. apply H. now right.
Qed.

Lemma contentOf_occursIn (raw : jsstring) : occursIn (contentOf raw) raw.
Proof.
  unfold contentOf. destruct (codeBlockMatch (trim raw)) as [capture|] eqn:E.
  - apply (occursIn_trans _ capture); [apply trim_occursIn|].
    apply (occursIn_trans _ (trim raw)); [|apply trim_occursIn].
    now apply codeBlockMatch_occursIn.
  - apply trim_occursIn.
Qed.

(** Every piece of [split] is a run of the text without line feed. *)
Lemma splitLines_In (inSeparator : bool) (current s line : jsstring) :
  ~ In 10%N current ->
  In line (splitLines inSeparator current s) ->
  occursIn line (current ++ s) /\ ~ In 10%N line.
Proof.
  revert inSeparator current.
  induction s as [|c s IH]; intros b current Hc; cbn [splitLines].
  - intros [<- | []]. split; [|exact Hc]. exists [], [].
    now rewrite !app_nil_r.
  - assert (Hrest :
              In line (splitLines true [] s) ->
              occursIn line (current ++ c :: s) /\ ~ In 10%N line).
    { intros H. apply (IH true []) in H; [|intros []].
      destruct H as [H Hl]. split; [|exact Hl].
      apply (occursIn_trans _ s); [exact H|].
      replace (current ++ c :: s) with ((current ++ [c]) ++ s)
        by now rewrite <- app_assoc.
      apply occursIn_suffix. }
    assert (Hcur : occursIn current (current ++ c :: s))
      by now exists [], (c :: s).
    destruct (N.eqb_spec c 10) as [->|Hn].
    + destruct b; [exact Hrest|].
      intros [<- | H]; [now split | now apply Hrest].
    + destruct ((c =? 13)%N && startsWith s [10%N]).
      * intros [<- | H]; [now split | now apply Hrest].
      * intros H. apply IH in H.
        -- now rewrite <- app_assoc in H.
        -- intros Hin. apply in_app_or in Hin.
           destruct Hin as [Hin | [-> | []]]; [now apply Hc | now apply Hn].
Qed.

Lemma dropWhile_suffix (f : code_unit -> bool) (s : jsstring) :
  exists taken, s = taken ++ dropWhile f s /\ forallb f taken = true.
Proof.
  induction s as [|c s [taken [Hs Ht]]]; [now exists []|].
  simpl. destruct (f c) eqn:Ec.
  - exists (c :: taken). simpl. now rewrite Ec, Ht, <- Hs.
  - now exists [].
Qed.

Lemma stripListPrefix_suffix (line : jsstring) :
  exists marker, line = marker ++ stripListPrefix line.
Proof.
  unfold stripListPrefix. cbv zeta.
  match goal with
  | |- context [dropWhile ?f line] =>
      destruct (dropWhile_suffix f line) as [taken [Hl _]];
      destruct (dropWhile f line) as [|c r]
  end.
  - exists taken. simpl. exact Hl.
  - 
    destruct ((c =? 41) || (c =? 46) || (c =? 58))%N.
    + destruct (trimStart_split r) as [blank [Hb _]].
      exists (taken ++ c :: blank). rewrite Hl, Hb at 1.
      now rewrite <- app_assoc.
    + destruct (trimStart_split (c :: r)) as [blank [Hb _]].
      exists (taken ++ blank). rewrite Hl, Hb at 1.
      now rewrite <- app_assoc.
Qed.

(** A text without line break is one piece. *)
Lemma splitLines_one (inSeparator : bool) (current s : jsstring) :
  ~ In 10%N s -> ~ In 13%N s ->
  splitLines inSeparator current s = [current ++ s].
Proof.
  revert inSeparator current.
  induction s as [|c s IH]; intros b current H10 H13; cbn [splitLines].
  - now rewrite app_nil_r.
  - destruct (N.eqb_spec c 10) as [->|_]; [exfalso; apply H10; now left|].
    destruct (N.eqb_spec c 13) as [->|_]; [exfalso; apply H13; now left|].
    cbn [andb]. rewrite IH, <- app_assoc; [reflexivity| |];
      intros Hin; [apply H10 | apply H13]; now right.
Qed.

(** A line feed after a text without line break ends the piece. *)
Lemma splitLines_line (current l rest : jsstring) :
  ~ In 10%N l -> ~ In 13%N l ->
  splitLines false current (l ++ 10%N :: rest)
  = (current ++ l) :: splitLines true [] rest.
Proof.
  revert current.
  induction l as [|c l IH]; intros current H10 H13.
  - cbn [app splitLines]. now rewrite app_nil_r.
  - cbn [app splitLines].
    destruct (N.eqb_spec c 10) as [->|_]; [exfalso; apply H10; now left|].
    destruct (N.eqb_spec c 13) as [->|_]; [exfalso; apply H13; now left|].
    cbn [andb]. rewrite IH, <- app_assoc; [reflexivity| |];
      intros Hin; [apply H10 | apply H13]; now right.
Qed.

(** After a separator a piece starts afresh. *)
Lemma splitLines_fresh (c : code_unit) (s : jsstring) :
  c <> 10%N -> c <> 13%N ->
  splitLines true [] (c :: s) = splitLines false [] (c :: s).
Proof.
  intros H10 H13. cbn [splitLines].
  destruct (N.eqb_spec c 10); [contradiction|].
  destruct (N.eqb_spec c 13); [contradiction|]. reflexivity.
Qed.

Lemma join_cons (sep l : jsstring) (m : jsstring) (more : list jsstring) :
  join sep (l :: m :: more) = l ++ sep ++ join sep (m :: more).
Proof. reflexivity. Qed.

Lemma splitLines_join (lines : list jsstring) :
  lines <> [] ->
  Forall (fun l => l <> [] /\ ~ In 10%N l /\ ~ In 13%N l) lines ->
  splitLines false [] (join [10%N] lines) = lines.
Proof.
  induction lines as [|l lines IH]; [congruence|]. intros _ H.
  inversion H as [|? ? [Hne [H10 H13]] Hmore]; subst.
  destruct lines as [|m more].
  - cbn [join]. now apply splitLines_one.
  - rewrite join_cons. cbn [app]. rewrite splitLines_line by assumption.
    cbn [app]. f_equal.
    assert (Hstart : exists c k, join [10%N] (m :: more) = c :: k /\
                                 c <> 10%N /\ c <> 13%N).
    { inversion Hmore as [|? ? [Hm [Hm10 Hm13]] _]; subst.
      destruct m as [|c k]; [exfalso; now apply Hm|]. exists c.
      destruct more as [|m' more'].
      - exists k. cbn [join]. repeat split; intros ->;
          [apply Hm10 | apply Hm13]; now left.
      - eexists. rewrite join_cons. cbn [app].
        repeat split; intros ->; [apply Hm10 | apply Hm13]; now left. }
    destruct Hstart as [c [k [E [Hc10 Hc13]]]].
    rewrite E, splitLines_fresh, <- E by assumption.
    apply IH; [discriminate | exact Hmore].
Qed.

Lemma dropWhile_app (f : code_unit -> bool) (a b : jsstring) :
  dropWhile f (a ++ b)
  = match dropWhile f a with
    | [] => dropWhile f b
    | r => r ++ b
    end.
Proof.
  induction a as [|c a IH]; simpl.
  - now destruct (dropWhile f b).
  - destruct (f c); [exact IH | reflexivity].
Qed.

Lemma trimStart_app_blank (a b : jsstring) :
  trimStart a = [] -> trimStart (a ++ b) = trimStart b.
Proof.
  induction a as [|c a IH]; simpl; [reflexivity|].
  destruct (isWhiteSpace c); [exact IH | discriminate].
Qed.

(** The prefix pattern consumes a marker and stops at a plain word. *)
Lemma stripListPrefix_marker (m w : jsstring) :
  stripListPrefix m = [] -> plainWord w ->
  stripListPrefix (m ++ w) = w.
Proof.
  intros Hm [[c [k [-> Hc]]] [Hstart _]].
  unfold isMarkerUnit in Hc. apply orb_false_iff in Hc.
  destruct Hc as [Hc H58]. apply orb_false_iff in Hc.
  destruct Hc as [Hc H41]. 
  assert (Hp : ((c =? 41) || (c =? 46) || (c =? 58))%N = false).
  { apply orb_false_iff in Hc. destruct Hc as [_ H46].
    now rewrite H41, H46, H58. }
  revert Hm. unfold stripListPrefix. cbv zeta.
  rewrite dropWhile_app.
  match goal with
  | |- context [dropWhile ?f m] =>
      assert (Hw : dropWhile f (c :: k) = c :: k)
        by (cbn [dropWhile]; now rewrite Hc);
      destruct (dropWhile f m) as [|d r]
  end.
  - intros _. rewrite Hw, Hp. exact Hstart.
  - cbn [app].
    destruct ((d =? 41) || (d =? 46) || (d =? 58))%N eqn:Ed; intros Hm.
    + rewrite (trimStart_app_blank r (c :: k) Hm). exact Hstart.
    + change (d :: r ++ c :: k) with ((d :: r) ++ c :: k).
      rewrite (trimStart_app_blank (d :: r) (c :: k) Hm). exact Hstart.
Qed.

Lemma plainWord_solid (w : jsstring) :
  plainWord w -> exists c k, w = c :: k /\ isWhiteSpace c = false.
Proof.
  intros [[c [k [-> _]]] [Hstart _]]. exists c, k. split; [reflexivity|].
  cbn [trimStart] in Hstart. destruct (isWhiteSpace c); [|reflexivity].
  exfalso. 
  assert (Hlen : length (trimStart k) <= length k).
  { destruct (trimStart_split k) as [blank [E _]].
    rewrite E at 2. rewrite length_app. lia. }
  rewrite Hstart in Hlen. simpl in Hlen. lia.
Qed.

Lemma trimStart_start (a b : jsstring) :
  a <> [] -> trimStart a = a -> trimStart (a ++ b) = a ++ b.
Proof.
  destruct a as [|c a]; [congruence|]. intros _ H.
  assert (Hc : isWhiteSpace c = false).
  { cbn [trimStart] in H. destruct (isWhiteSpace c); [|reflexivity].
    exfalso.
    assert (Hlen : length (trimStart a) <= length a).
    { destruct (trimStart_split a) as [blank [E _]].
      rewrite E at 2. rewrite length_app. lia. }
    rewrite H in Hlen. simpl in Hlen. lia. }
  cbn [app trimStart]. now rewrite Hc.
Qed.

Lemma join_first (sep l : jsstring) (more : list jsstring) :
  exists rest, join sep (l :: more) = l ++ rest.
Proof.
  destruct more as [|m more]; [exists []; cbn [join]; now rewrite app_nil_r|].
  rewrite join_cons. now eexists.
Qed.

Lemma join_last (sep : jsstring) (lines : list jsstring) (l : jsstring) :
  exists front, join sep (lines ++ [l]) = front ++ l.
Proof.
  induction lines as [|m lines [front IH]]; [now exists []|].
  destruct lines as [|m' lines].
  - exists (m ++ sep). cbn [app]. rewrite join_cons. cbn [join].
    now rewrite <- app_assoc.
  - exists (m ++ sep ++ front). cbn [app] in *. rewrite join_cons, IH.
    now rewrite <- !app_assoc.
Qed.

Lemma plainWord_trim (w : jsstring) : plainWord w -> trim w = w.
Proof.
  intros [_ [Hstart [Hend _]]]. unfold trim.
  now rewrite Hstart, Hend, rev_involutive.
Qed.

Lemma parseOpenAIContent_eq (raw : jsstring) :
  trim raw <> [] ->
  parseOpenAIContent raw
  = match tryParseJson (contentOf raw) with
    | VArr parsed => filterStrings parsed
    | _ =>
        filter nonEmpty
          (map (fun line => trim (stripListPrefix line))
               (splitLines false [] (contentOf raw)))
    end.
Proof.
  intros H. unfold parseOpenAIContent, contentOf. cbv zeta.
  destruct (trim raw) as [|c r]; [congruence | reflexivity].
Qed.

(** A message of list lines is its own content. *)
Lemma listLines_content (lines : list (jsstring * jsstring)) (raw : jsstring) :
  lines <> [] ->
  raw = join [10%N] (map (fun l => fst l ++ snd l) lines) ->
  Forall (fun l => listMarker (fst l) /\ plainWord (snd l)) lines ->
  ~ In 96%N raw ->
  trim raw = raw /\ raw <> [] /\ contentOf raw = raw.
Proof.
  intros Hne Hraw Hlines Hfence.
  assert (Hline : forall l, In l lines ->
            fst l ++ snd l <> [] /\
            trimStart (fst l ++ snd l) = fst l ++ snd l /\
            trimStart (rev (snd l)) = rev (snd l) /\ snd l <> []).
  { rewrite Forall_forall in Hlines. intros [m w] Hin.
    destruct (Hlines _ Hin) as [[_ [Hm _]] Hw]. cbn [fst snd] in *.
    destruct (plainWord_solid w Hw) as [c [k [E Hc]]].
    destruct Hw as [_ [Hstart [Hend _]]].
    repeat split; try assumption; try (subst w; discriminate).
    - subst w. now destruct m.
    - destruct m as [|d m]; [exact Hstart|].
      now apply trimStart_start. }
  assert (Hstart : raw <> [] /\ trimStart raw = raw).
  { destruct lines as [|l more]; [congruence|].
    destruct (Hline l (or_introl eq_refl)) as [Hl [Ht _]].
    destruct (join_first [10%N] (fst l ++ snd l)
                (map (fun l => fst l ++ snd l) more)) as [rest E].
    assert (Hraw' : raw = (fst l ++ snd l) ++ rest)
      by (rewrite Hraw; exact E).
    clear Hraw. subst raw. split.
    - destruct (fst l ++ snd l); [congruence | discriminate].
    - now apply trimStart_start. }
  assert (Hend : trimStart (rev raw) = rev raw).
  { destruct (exists_last Hne) as [front [l E]]. subst lines.
    destruct (Hline l) as [_ [_ [Hw Hn]]];
      [apply in_or_app; right; now left|].
    rewrite map_app in Hraw.
    destruct (join_last [10%N] (map (fun l => fst l ++ snd l) front)
                (fst l ++ snd l)) as [pre E].
    assert (Hraw' : raw = pre ++ fst l ++ snd l)
      by (rewrite Hraw; exact E).
    clear Hraw. subst raw.
    rewrite !rev_app_distr, <- app_assoc.
    apply trimStart_start; [|exact Hw].
    intros Hr. apply Hn. apply (f_equal (@rev code_unit)) in Hr.
    now rewrite rev_involutive in Hr. }
  destruct Hstart as [Hnil Hstart].
  assert (Htrim : trim raw = raw)
    by (unfold trim; now rewrite Hstart, Hend, rev_involutive).
  repeat split; [exact Htrim | exact Hnil |].
  unfold contentOf. rewrite Htrim. now rewrite codeBlockMatch_none.
Qed.

(** X24.  The words read from the content of a chat message.  Blank
    content gives none.  The content read is a run of the message: the
    trimmed capture of its first fenced block, or the trimmed message.
    When the content parses to a JSON array, the words are the strings
    among its entries.  Otherwise every word is a line of the content
    after the list prefix and the white space around it are removed: it
    is not empty, holds no line feed, has no white space at either end
    and occurs in the message.  A message without fence that is no JSON
    array and whose lines are plain words, each after a list marker that
    may be empty, gives these words in their order. *)
Theorem parseOpenAIContent_words (raw : jsstring) :
  (forallb isWhiteSpace raw = true -> parseOpenAIContent raw = []) /\
  occursIn (contentOf raw) raw /\
  (forall items,
      trim raw <> [] ->
      JSON_parse (contentOf raw) = Some (VArr items) ->
      parseOpenAIContent raw = filterStrings items) /\
  ((forall items, JSON_parse (contentOf raw) <> Some (VArr items)) ->
   forall w,
     In w (parseOpenAIContent raw) ->
     (exists line,
         In line (splitLines false [] (contentOf raw)) /\
         w = trim (stripListPrefix line)) /\
     w <> [] /\ trim w = w /\ ~ In 10%N w /\ occursIn w raw) /\
  (forall lines : list (jsstring * jsstring),
      raw = join [10%N] (map (fun l => fst l ++ snd l) lines) ->
      Forall (fun l => listMarker (fst l) /\ plainWord (snd l)) lines ->
      ~ In 96%N raw ->
      (forall items, JSON_parse raw <> Some (VArr items)) ->
      parseOpenAIContent raw = map snd lines).
Proof.
  assert (Hfallback :
            (forall items, JSON_parse (contentOf raw) <> Some (VArr items)) ->
            trim raw <> [] ->
            parseOpenAIContent raw
            = filter nonEmpty
                (map (fun line => trim (stripListPrefix line))
                     (splitLines false [] (contentOf raw)))).
  { intros Hno Hne. rewrite parseOpenAIContent_eq by exact Hne.
    unfold tryParseJson.
    destruct (JSON_parse (contentOf raw)) as [v|] eqn:E; [|reflexivity].
    destruct v; try reflexivity. exfalso. now apply (Hno items). }
  split; [|split; [|split; [|split]]].
  - intros Hblank. unfold parseOpenAIContent.
    now rewrite (proj2 (trim_nil raw) Hblank).
  - apply contentOf_occursIn.
  - intros items Hne Hparse. rewrite parseOpenAIContent_eq by exact Hne.
    unfold tryParseJson. now rewrite Hparse.
  - intros Hno w Hin.
    destruct (jsstring_eq_dec (trim raw) []) as [Et | Et].
    { unfold parseOpenAIContent in Hin. rewrite Et in Hin. destruct Hin. }
    rewrite Hfallback in Hin by assumption.
    apply filter_In in Hin. destruct Hin as [Hin Hw].
    apply in_map_iff in Hin. destruct Hin as [line [<- Hline]].
    split; [now exists line|].
    split; [intros E; rewrite E in Hw; discriminate|].
    split; [apply trim_idem|].
    destruct (splitLines_In false [] (contentOf raw) line
                (fun H => H) Hline) as [Hrun Hfeed].
    cbn [app] in Hrun.
    assert (Hword : occursIn (trim (stripListPrefix line)) line).
    { apply (occursIn_trans _ (stripListPrefix line));
        [apply trim_occursIn|].
      destruct (stripListPrefix_suffix line) as [marker E].
      rewrite E at 2. apply occursIn_suffix. }
    split.
    + intros H10. apply Hfeed. now apply (occursIn_In _ _ _ Hword).
    + apply (occursIn_trans _ line); [exact Hword|].
      apply (occursIn_trans _ (contentOf raw)); [exact Hrun|].
      apply contentOf_occursIn.
  - intros lines Hraw Hlines Hfence Hno.
    destruct lines as [|l0 more] eqn:El.
    { cbn in Hraw. now subst raw. }
    rewrite <- El in *.
    assert (Hne : lines <> []) by (rewrite El; discriminate).
    clear El l0 more.
    destruct (listLines_content lines raw Hne Hraw Hlines Hfence)
      as [Htrim [Hnil Hcontent]].
    rewrite Hfallback; rewrite ?Hcontent, ?Htrim; try assumption.
    rewrite Hraw at 1. rewrite splitLines_join.
    + rewrite map_map.
      rewrite Forall_forall in Hlines.
      assert (Hmap : map (fun l => trim (stripListPrefix (fst l ++ snd l)))
                       lines = map snd lines).
      { apply map_ext_in. intros [m w] Hin.
        destruct (Hlines _ Hin) as [[Hm _] Hw]. cbn [fst snd] in *.
        rewrite stripListPrefix_marker by assumption.
        now apply plainWord_trim. }
      rewrite Hmap.
      apply forallb_filter_id. apply forallb_forall. intros w Hin.
      apply in_map_iff in Hin. destruct Hin as [[m w'] [<- Hin]].
      destruct (Hlines _ Hin) as [_ [[c [k [E _]]] _]]. cbn [fst snd] in *.
      now rewrite E.
    + destruct lines; [congruence | discriminate].
    + rewrite Forall_forall in *. intros line Hin.
      apply in_map_iff in Hin. destruct Hin as [[m w] [<- Hin]].
      destruct (Hlines _ Hin) as [[_ [_ [Hm10 Hm13]]] Hw].
      cbn [fst snd] in *.
      destruct Hw as [[c [k [E _]]] [_ [_ [Hw10 Hw13]]]].
      repeat split.
      * subst w. now destruct m.
      * intros H. apply in_app_or in H. tauto.
      * intros H. apply in_app_or in H. tauto.
Qed.

End LlmContent.

(* ================================================================== *)
(** * The LLM provider on concrete inputs *)
(* ================================================================== *)

(** The closed examples run with the ASCII string built-ins and the
    stand-in for the JSON built-ins. *)
#[local] Existing Instance asciiBuiltins.
#[local] Existing Instance noJson.

(** C2 as stated fails when C is the cached key: after the request for
    [hel] was answered, with the request for [hell] in flight, the call
    for [hello] is parked and the call for [hel] is answered from the
    cache, so the slot keeps [hello] and its request is the one sent
    when the call in flight settles. *)
Lemma C2_counterexample :
  let A := Examples.typed "hell" "hell" in
  let B := Examples.typed "hello" "hello" in
  let C := Examples.typed "hel" "hel" in
  let key := LlmSuggestionProvider.requestKey in
  let ok := Normal (Examples.response200 ["help"%string]) in
  let cached :=
    LlmSuggestionProvider.run
      [LlmSuggestionProvider.Call C Examples.settings;
       LlmSuggestionProvider.Settle 0 ok]
      LlmSuggestionProvider.initial in
  key B Examples.settings <> key A Examples.settings /\
  key C Examples.settings <> key A Examples.settings /\
  fst (LlmSuggestionProvider.getSuggestions
         A Examples.settings cached)
  = LlmSuggestionProvider.ReturnsExecuteRequest 1 /\
  map LlmSuggestionProvider.call_key
    (LlmSuggestionProvider.requests
       (LlmSuggestionProvider.run
          [LlmSuggestionProvider.Call A Examples.settings;
           LlmSuggestionProvider.Call B Examples.settings;
           LlmSuggestionProvider.Call C Examples.settings;
           LlmSuggestionProvider.Settle 1 ok;
           LlmSuggestionProvider.Settle 2 ok]
          cached))
  = map LlmSuggestionProvider.call_key
      (LlmSuggestionProvider.requests cached)
    ++ [key A Examples.settings; key B Examples.settings].
Proof.
  cbv zeta. split; [|split; [|split]].
  - apply str_eqb_neq. vm_compute. reflexivity.
  - apply str_eqb_neq. vm_compute. reflexivity.
  - vm_compute. reflexivity.
  - vm_compute. reflexivity.
Qed.

Lemma C2_pending_slot_last_write_wins_witness :
  let A := Examples.typed "hell" "hell" in
  let B := Examples.typed "hello" "hello" in
  let C := Examples.typed "hel" "hel" in
  let key := LlmSuggestionProvider.requestKey in
  let ok := Normal (Examples.response200 ["help"%string]) in
  map LlmSuggestionProvider.call_key
    (LlmSuggestionProvider.requests
       (LlmSuggestionProvider.run
          [LlmSuggestionProvider.Call A Examples.settings;
           LlmSuggestionProvider.Call B Examples.settings;
           LlmSuggestionProvider.Call C Examples.settings;
           LlmSuggestionProvider.Settle 0 ok]
          LlmSuggestionProvider.initial))
  = [key A Examples.settings; key C Examples.settings].
Proof.
  cbv zeta.
  pose proof (@C2_pending_slot_last_write_wins asciiBuiltins noJson
                LlmSuggestionProvider.initial
                (snd (LlmSuggestionProvider.getSuggestions
                        (Examples.typed "hell" "hell") Examples.settings
                        LlmSuggestionProvider.initial))
                (Examples.typed "hell" "hell")
                (Examples.typed "hello" "hello")
                (Examples.typed "hel" "hel")
                Examples.settings Examples.settings Examples.settings 0) as H.
  cbv zeta in H.
  refine (proj1 (proj2 (proj2 (proj2 (proj2 (H _ _ _ _ _ _ _))))
                   (Normal (Examples.response200 ["help"%string]))
                   (Normal (Examples.response200 ["help"%string])))).
  - exists []. reflexivity.
  - vm_compute. reflexivity.
  - vm_compute. reflexivity.
  - vm_compute. reflexivity.
  - apply str_eqb_neq. vm_compute. reflexivity.
  - apply str_eqb_neq. vm_compute. reflexivity.
  - vm_compute. reflexivity.
Defined.



Lemma C6_failures_yield_empty_witness :
  let A := Examples.typed "hell" "hell" in
  let w1 :=
    snd (LlmProviderTs.getSuggestions
           A Examples.settings LlmProviderTs.initial) in
  LlmProviderTs.received
    (LlmProviderTs.settle
       0 (Normal Examples.response500) w1)
    (LlmProviderTs.AwaitsRequest 0)
  = Some (Normal []).
Proof.
  cbv zeta.
  refine (proj1 (proj2 (proj2 (proj2 (proj2 (proj2 (proj2
            (@C6_failures_yield_empty asciiBuiltins noJson)))))))
            LlmProviderTs.initial _ (Examples.typed "hell" "hell")
            Examples.settings 0 Examples.response500 _ _ _).
  - exists []. reflexivity.
  - vm_compute. reflexivity.
  - reflexivity.
Defined.

(** C7 as stated fails in the direction from the key to the components:
    two temperatures that differ print alike with three decimals, a
    separator that is the sentinel moves the border between context and
    separator, and two documents that differ only before the last 6000
    code units are clipped to the same context.  In [llm_provider.ts]
    the key does not depend on the temperature at all.  A model name
    that starts with the sentinel moves the border between separator
    and model. *)
Lemma C7_counterexample :
  let key := LlmSuggestionProvider.requestKey in
  let A := Examples.typed "hell" "hell" in
  (key A (Examples.withTemperature (1 # 2))
   = key A (Examples.withTemperature (4097 # 8192)) /\
   ~ LlmSuggestionProvider.resolveTemperature (Some (1 # 2))
     == LlmSuggestionProvider.resolveTemperature (Some (4097 # 8192))) /\
  (LlmSuggestionProvider.createCacheKey
     (js "a" ++ LlmSuggestionProvider.CACHE_SEPARATOR) None
     (Some (js "m")) (1 # 2)
   = LlmSuggestionProvider.createCacheKey
       (js "a") (Some LlmSuggestionProvider.CACHE_SEPARATOR)
       (Some (js "m")) (1 # 2) /\
   js "a" ++ LlmSuggestionProvider.CACHE_SEPARATOR <> js "a") /\
  (key (Examples.longDocument 98%N) Examples.settings
   = key (Examples.longDocument 99%N) Examples.settings /\
   textBeforeCursor (Examples.longDocument 98%N)
   <> textBeforeCursor (Examples.longDocument 99%N)) /\
  (map LlmProviderTs.call_key
     (LlmProviderTs.requests
        (snd (LlmProviderTs.getSuggestions A
                (Examples.withTemperature (1 # 2)) LlmProviderTs.initial)))
   = map LlmProviderTs.call_key
       (LlmProviderTs.requests
          (snd (LlmProviderTs.getSuggestions A
                  (Examples.withTemperature (3 # 2)) LlmProviderTs.initial))) /\
   toFixed3 (LlmSuggestionProvider.resolveTemperature (Some (1 # 2)))
   <> toFixed3 (LlmSuggestionProvider.resolveTemperature (Some (3 # 2)))) /\
  (LlmSuggestionProvider.createCacheKey
     (js "a") None
     (Some (LlmSuggestionProvider.CACHE_SEPARATOR ++ js "m")) (1 # 2)
   = LlmSuggestionProvider.createCacheKey
       (js "a") (Some LlmSuggestionProvider.CACHE_SEPARATOR)
       (Some (js "m")) (1 # 2) /\
   LlmSuggestionProvider.orEmptyString None
   <> LlmSuggestionProvider.orEmptyString
        (Some LlmSuggestionProvider.CACHE_SEPARATOR)).
Proof.
  cbv zeta. split; [|split; [|split; [|split]]]; split.
  - vm_compute. reflexivity.
  - unfold Qeq. vm_compute. discriminate.
  - vm_compute. reflexivity.
  - discriminate.
  - vm_compute. reflexivity.
  - intros H. injection H as H. discriminate H.
  - vm_compute. reflexivity.
  - vm_compute. discriminate.
  - vm_compute. reflexivity.
  - discriminate.
Qed.

Lemma C7_request_key_witness :
  js "hel" = js "hel" /\
  LlmSuggestionProvider.orEmptyString (Some (js " "))
  = LlmSuggestionProvider.orEmptyString (Some (js " ")) /\
  LlmSuggestionProvider.orEmptyString (Some (js "m"))
  = LlmSuggestionProvider.orEmptyString (Some (js "m")) /\
  toFixed3 (7 # 10) = toFixed3 (14 # 20).
Proof.
  refine (proj1 (proj2 (proj2 (proj2 (@C7_request_key asciiBuiltins noJson))))
            (js "hel") (js "hel") (Some (js " ")) (Some (js " "))
            (Some (js "m")) (Some (js "m")) (7 # 10) (14 # 20)
            _ _ _ _ _).
  - simpl. intuition discriminate.
  - simpl. intuition discriminate.
  - simpl. intuition discriminate.
  - simpl. intuition discriminate.
  - vm_compute. reflexivity.
Defined.

Lemma one_request_in_flight_witness :
  let w :=
    LlmSuggestionProvider.run
      [LlmSuggestionProvider.Call (Examples.typed "hell" "hell")
         Examples.settings;
       LlmSuggestionProvider.Call (Examples.typed "hello" "hello")
         Examples.settings;
       LlmSuggestionProvider.Settle 0
         (Normal (Examples.response200 ["help"%string]))]
      LlmSuggestionProvider.initial in
  1 < length (LlmSuggestionProvider.requests w) /\
  LlmSuggestionProvider.settlement (LlmSuggestionProvider.settled w) 1 = None
  <-> LlmSuggestionProvider.inflightPromise (LlmSuggestionProvider.this w)
      = Some 1.
Proof.
  cbv zeta.
  apply (@one_request_in_flight asciiBuiltins noJson).
  eexists. reflexivity.
Defined.

Lemma request_cache_bounded_witness :
  let w :=
    LlmSuggestionProvider.run
      [LlmSuggestionProvider.Call (Examples.typed "hell" "hell")
         Examples.settings;
       LlmSuggestionProvider.Settle 0
         (Normal (Examples.response200 ["help"%string]))]
      LlmSuggestionProvider.initial in
  length (LlmSuggestionProvider.requestCache (LlmSuggestionProvider.this w))
  <= 20 /\
  forall key request,
    In (key, request)
       (LlmSuggestionProvider.requestCache (LlmSuggestionProvider.this w)) ->
    exists separator,
      key = LlmSuggestionProvider.createCacheKey
              (LlmSuggestionProvider.clippedContext request) separator
              (LlmSuggestionProvider.request_model request)
              (LlmSuggestionProvider.request_temperature request).
Proof.
  cbv zeta.
  apply (@request_cache_bounded asciiBuiltins noJson).
  eexists. reflexivity.
Defined.

Lemma request_body_matches_key_witness :
  let context := Examples.typed "hell" "hell" in
  let w :=
    LlmSuggestionProvider.run
      [LlmSuggestionProvider.Call context Examples.settings]
      LlmSuggestionProvider.initial in
  let args := LlmSuggestionProvider.preparedFor context Examples.settings
                LlmSuggestionProvider.initial in
  length (LlmSuggestionProvider.clippedContext
            (LlmSuggestionProvider.args_request args))
  <= LlmSuggestionProvider.CHAT_COMPLETION_CONTEXT_LIMIT.
Proof.
  cbv zeta.
  refine (proj2 (proj2 (@request_body_matches_key asciiBuiltins noJson
            (LlmSuggestionProvider.run
               [LlmSuggestionProvider.Call (Examples.typed "hell" "hell")
                  Examples.settings]
               LlmSuggestionProvider.initial)
            {| LlmSuggestionProvider.call_key :=
                 LlmSuggestionProvider.requestKey
                   (Examples.typed "hell" "hell") Examples.settings;
               LlmSuggestionProvider.call_args :=
                 LlmSuggestionProvider.preparedFor
                   (Examples.typed "hell" "hell") Examples.settings
                   LlmSuggestionProvider.initial;
               LlmSuggestionProvider.call_param :=
                 LlmSuggestionProvider.requestUrlParam
                   (LlmSuggestionProvider.getLLMProviderSettings
                      Examples.settings)
                   (LlmSuggestionProvider.args_request
                      (LlmSuggestionProvider.preparedFor
                         (Examples.typed "hell" "hell") Examples.settings
                         LlmSuggestionProvider.initial)) |} _ _))).
  - eexists. reflexivity.
  - left. reflexivity.
Defined.

Lemma settled_request_is_cached_witness :
  let context := Examples.typed "hell" "hell" in
  let w :=
    LlmSuggestionProvider.run
      [LlmSuggestionProvider.Call context Examples.settings]
      LlmSuggestionProvider.initial in
  let w2 :=
    LlmSuggestionProvider.settle 0 (Normal Examples.response500) w in
  exists l,
    LlmSuggestionProvider.fetchSuggestions (Normal Examples.response500)
    = Normal l /\
    LlmSuggestionProvider.cacheKey (LlmSuggestionProvider.this w2)
    = Some (LlmSuggestionProvider.requestKey context Examples.settings) /\
    forall context' settings',
      LlmSuggestionProvider.isEnabled
        (LlmSuggestionProvider.getLLMProviderSettings settings') = true ->
      LlmSuggestionProvider.requestKey context' settings'
      = LlmSuggestionProvider.requestKey context Examples.settings ->
      LlmSuggestionProvider.getSuggestions context' settings' w2
      = (LlmSuggestionProvider.ReturnsArray l, w2).
Proof.
  cbv zeta.
  apply (@settled_request_is_cached asciiBuiltins noJson).
  - eexists. reflexivity.
  - reflexivity.
  - reflexivity.
Defined.


Lemma ts_superseded_response_not_cached_witness :
  let A := Examples.typed "hell" "hell" in
  let B := Examples.typed "hello" "hello" in
  let w1 :=
    snd (LlmProviderTs.getSuggestions A Examples.settings
           LlmProviderTs.initial) in
  let w2 := snd (LlmProviderTs.getSuggestions B Examples.settings w1) in
  let ok := Normal (Examples.response200 ["help"%string]) in
  LlmProviderTs.requestKey B <> LlmProviderTs.requestKey A /\
  1 = 1 /\
  LlmSuggestionProvider.settlement (LlmProviderTs.settled w2) 0 = None /\
  LlmSuggestionProvider.settlement (LlmProviderTs.settled w2) 1 = None /\
  LlmProviderTs.this (LlmProviderTs.settle 0 ok w2) = LlmProviderTs.this w2 /\
  LlmProviderTs.inflightKey (LlmProviderTs.this w2)
  = Some (LlmProviderTs.requestKey B) /\
  LlmProviderTs.requests (LlmProviderTs.settle 0 ok w2)
  = LlmProviderTs.requests w2 /\
  LlmProviderTs.received (LlmProviderTs.settle 0 ok w2)
    (LlmProviderTs.AwaitsRequest 0)
  = Some (LlmProviderTs.fetchSuggestions ok).
Proof.
  cbv zeta.
  apply (@ts_superseded_response_not_cached asciiBuiltins noJson
           LlmProviderTs.initial
           (snd (LlmProviderTs.getSuggestions (Examples.typed "hell" "hell")
                   Examples.settings LlmProviderTs.initial))
           (snd (LlmProviderTs.getSuggestions
                   (Examples.typed "hello" "hello") Examples.settings
                   (snd (LlmProviderTs.getSuggestions
                           (Examples.typed "hell" "hell")
                           Examples.settings LlmProviderTs.initial))))
           (Examples.typed "hell" "hell") (Examples.typed "hello" "hello")
           Examples.settings Examples.settings 0 1
           (Normal (Examples.response200 ["help"%string]))).
  - exists []. reflexivity.
  - reflexivity.
  - reflexivity.
Defined.

Lemma fetchSuggestions_array_payload_witness :
  LlmSuggestionProvider.fetchSuggestions
    (Normal (Examples.response200 ["help"%string; "hello"%string]))
  = Normal (Examples.suggestionsOf ["help"%string; "hello"%string]) /\
  LlmProviderTs.fetchSuggestions
    (Normal (Examples.response200 ["help"%string; "hello"%string]))
  = Normal (Examples.suggestionsOf ["help"%string; "hello"%string]).
Proof.
  apply (@fetchSuggestions_array_payload noJson
           (Examples.response200 ["help"%string; "hello"%string])
           [VStr (js "help"); VStr (js "hello")]).
  - simpl. lia.
  - left. reflexivity.
Defined.

Lemma llm_disabled_answers_empty_witness :
  LlmSuggestionProvider.getSuggestions (Examples.typed "hell" "hell")
    Examples.blankUrlSettings LlmSuggestionProvider.initial
  = (LlmSuggestionProvider.ReturnsArray [], LlmSuggestionProvider.initial) /\
  LlmProviderTs.getSuggestions (Examples.typed "hell" "hell")
    Examples.blankUrlSettings LlmProviderTs.initial
  = (LlmProviderTs.ReturnsArray [], LlmProviderTs.initial).
Proof.
  apply (@llm_disabled_answers_empty asciiBuiltins noJson
           Examples.blankUrlSettings).
  right. reflexivity.
Defined.

Lemma pending_request_is_served_next_witness :
  let A := Examples.typed "hell" "hell" in
  let B := Examples.typed "hello" "hello" in
  let w :=
    LlmSuggestionProvider.run
      [LlmSuggestionProvider.Call A Examples.settings;
       LlmSuggestionProvider.Call B Examples.settings]
      LlmSuggestionProvider.initial in
  let w' :=
    LlmSuggestionProvider.settle 0
      (Normal (Examples.response200 ["help"%string])) w in
  LlmSuggestionProvider.pendingKey (LlmSuggestionProvider.this w)
  = Some (LlmSuggestionProvider.requestKey B Examples.settings) /\
  map LlmSuggestionProvider.call_key (LlmSuggestionProvider.requests w')
  = [LlmSuggestionProvider.requestKey A Examples.settings;
     LlmSuggestionProvider.requestKey B Examples.settings] /\
  LlmSuggestionProvider.inflightPromise (LlmSuggestionProvider.this w')
  = Some 1.
Proof.
  cbv zeta.
  destruct (proj1 (@pending_request_is_served_next asciiBuiltins noJson
              (LlmSuggestionProvider.run
                 [LlmSuggestionProvider.Call (Examples.typed "hell" "hell")
                    Examples.settings;
                  LlmSuggestionProvider.Call (Examples.typed "hello" "hello")
                    Examples.settings]
                 LlmSuggestionProvider.initial)
              0 (Normal (Examples.response200 ["help"%string]))
              (ex_intro _ _ eq_refl) eq_refl)
             (LlmSuggestionProvider.requestKey
                (Examples.typed "hello" "hello") Examples.settings)
             eq_refl)
    as [args (Hargs & Hreq & Hik & Hip & Hpk & Hpa)].
  split; [reflexivity|]. split; [|exact Hip].
  rewrite Hreq, map_app. reflexivity.
Defined.

Lemma fenced_json_array_is_unwrapped_witness :
  LlmSuggestionProvider.parseOpenAIContent (J := Examples.alphaBetaJson)
    (LlmSuggestionProvider.fence ++ js "JSON"
     ++ (10%N :: Examples.alphaBetaText ++ [10%N])
     ++ LlmSuggestionProvider.fence)
  = [js "alpha"; js "beta"].
Proof.
  apply (@fenced_json_array_is_unwrapped Examples.alphaBetaJson
           (js "JSON") (10%N :: Examples.alphaBetaText ++ [10%N])
           [VStr (js "alpha"); VStr (js "beta")]).
  - reflexivity.
  - intros c Hc E. subst c. vm_compute in Hc. intuition discriminate.
  - reflexivity.
Defined.

Lemma parseOpenAIContent_words_witness :
  LlmSuggestionProvider.parseOpenAIContent
    (js "1. alpha" ++ [10%N] ++ js "2) beta" ++ [10%N] ++ js "- gamma"
        ++ [10%N] ++ js "delta")
  = [js "alpha"; js "beta"; js "gamma"; js "delta"].
Proof.
  refine (proj2 (proj2 (proj2 (proj2
            (@parseOpenAIContent_words noJson
               (js "1. alpha" ++ [10%N] ++ js "2) beta" ++ [10%N]
                   ++ js "- gamma" ++ [10%N] ++ js "delta")))))
            [(js "1. ", js "alpha"); (js "2) ", js "beta");
             (js "- ", js "gamma"); ([], js "delta")] _ _ _ _).
  - reflexivity.
  - repeat constructor; try (vm_compute; reflexivity);
      try (vm_compute; intuition discriminate);
      eexists; eexists; split; reflexivity.
  - vm_compute. intuition discriminate.
  - intros items. vm_compute. discriminate.
Defined.
